(** * Access-control rule algebra of solid-client-js

    A shallow embedding of the ACL modules of the library
    ([acl/acl.ts], [acl/class.ts], [acl/group.ts] and [interfaces.ts]):
    rule classification, the access-mode algebra, the fallback walk,
    the public-grant mutator and the garbage collection of empty rules. *)

From Stdlib Require Import List String Ascii Bool ZArith Lia Permutation.
Import ListNotations.
Open Scope string_scope.

Set Implicit Arguments.

(** ** RDF terms, quads and Things *)

(** The subject of a Thing: a [NamedNode] with a full IRI
    ([internal_url]) or a [LocalNode] that only has a name until the
    dataset is persisted ([internal_localSubject]). *)
Inductive Subject : Type :=
| NamedSubject (iri : string)
| LocalSubject (name : string).

(** Object position of a quad.  [getIriAll] only reports [NamedNode]
    objects, the ACL-quad test below looks at any object. *)
Inductive Term : Type :=
| NamedNode (iri : string)
| Literal (value : string).

Record Quad : Type := mkQuad {
  subject : Subject;
  predicate : string;
  object : Term
}.

(** A predicate/object pair; a Thing holds the statements of one
    subject ("all Quads with a given Subject", interfaces.ts). *)
Definition Statement : Type := (string * Term)%type.

Record Thing : Type := mkThing {
  thing_subject : Subject;
  thing_statements : list Statement
}.

Definition AclRule : Type := Thing.

Definition subject_eqb (a b : Subject) : bool :=
  match a, b with
  | NamedSubject x, NamedSubject y => String.eqb x y
  | LocalSubject x, LocalSubject y => String.eqb x y
  | _, _ => false
  end.

Definition term_eqb (a b : Term) : bool :=
  match a, b with
  | NamedNode x, NamedNode y => String.eqb x y
  | Literal x, Literal y => String.eqb x y
  | _, _ => false
  end.

Definition statement_eqb (a b : Statement) : bool :=
  String.eqb (fst a) (fst b) && term_eqb (snd a) (snd b).

Definition quad_eqb (a b : Quad) : bool :=
  subject_eqb (subject a) (subject b)
  && String.eqb (predicate a) (predicate b)
  && term_eqb (object a) (object b).

(** JavaScript's [Array.prototype.includes] on an array of strings. *)
Definition includes (l : list string) (x : string) : bool :=
  existsb (String.eqb x) l.

(** ** Vocabulary (constants.ts) *)

(** Modelled from the spec: constants.ts is missing; the IRIs are the
    terms of the Web Access Control, RDF and FOAF vocabularies, as the
    tests of acl.ts and class.ts spell them. *)
Module acl.
Definition Authorization := "http://www.w3.org/ns/auth/acl#Authorization".
Definition accessTo := "http://www.w3.org/ns/auth/acl#accessTo".
Definition agent := "http://www.w3.org/ns/auth/acl#agent".
Definition agentGroup := "http://www.w3.org/ns/auth/acl#agentGroup".
Definition agentClass := "http://www.w3.org/ns/auth/acl#agentClass".
Definition default := "http://www.w3.org/ns/auth/acl#default".
Definition defaultForNew := "http://www.w3.org/ns/auth/acl#defaultForNew".
Definition mode := "http://www.w3.org/ns/auth/acl#mode".
Definition origin := "http://www.w3.org/ns/auth/acl#origin".
End acl.

Module rdf.
Definition type := "http://www.w3.org/1999/02/22-rdf-syntax-ns#type".
End rdf.

Module foaf.
Definition Agent := "http://xmlns.com/foaf/0.1/Agent".
End foaf.

(** [internal_accessModeIriStrings] of acl.ts. *)
Module internal_accessModeIriStrings.
Definition read := "http://www.w3.org/ns/auth/acl#Read".
Definition append := "http://www.w3.org/ns/auth/acl#Append".
Definition write := "http://www.w3.org/ns/auth/acl#Write".
Definition control := "http://www.w3.org/ns/auth/acl#Control".
Definition values : list string := [read; append; write; control].
End internal_accessModeIriStrings.

(** ** Thing accessors (thing/get.ts, thing/add.ts, thing/set.ts,
       thing/remove.ts, thing/thing.ts) *)

(** Modelled from the spec: thing/get.ts is not part of the sources at
    hand.  [getIriAll] returns the IRIs of the [NamedNode] objects that a
    Thing has for a property, in the order in which they are stored. *)
Definition getIriAll (thing : Thing) (property : string) : list string :=
  flat_map
    (fun st : Statement =>
       if String.eqb (fst st) property
       then match snd st with NamedNode i => [i] | Literal _ => [] end
       else [])
    (thing_statements thing).

(** Modelled from the spec: thing/get.ts is missing; [getIri] is the
    first IRI value of the property, or [null]. *)
Definition getIri (thing : Thing) (property : string) : option string :=
  hd_error (getIriAll thing property).

(** Modelled from the spec: thing/add.ts is missing; a Thing is a set
    of quads, so adding a statement that is present leaves it as it is. *)
Definition addIri (thing : Thing) (property iri : string) : Thing :=
  let st : Statement := (property, NamedNode iri) in
  if existsb (statement_eqb st) (thing_statements thing)
  then thing
  else mkThing (thing_subject thing) (thing_statements thing ++ [st]).

(** Modelled from the spec: thing/remove.ts is missing; [removeAll]
    drops every statement of the property. *)
Definition removeAll (thing : Thing) (property : string) : Thing :=
  mkThing (thing_subject thing)
    (filter (fun st : Statement => negb (String.eqb (fst st) property))
       (thing_statements thing)).

(** Modelled from the spec: thing/remove.ts is missing; [removeIri]
    drops the statement of the property whose object is that IRI. *)
Definition removeIri (thing : Thing) (property iri : string) : Thing :=
  mkThing (thing_subject thing)
    (filter (fun st : Statement =>
               negb (statement_eqb (property, NamedNode iri) st))
       (thing_statements thing)).

(** Modelled from the spec: thing/set.ts is missing; [setIri] replaces
    all values of the property by the one IRI. *)
Definition setIri (thing : Thing) (property iri : string) : Thing :=
  addIri (removeAll thing property) property iri.

(** ** Access modes (interfaces.ts, [Access]) *)

Record Access : Type := mkAccess {
  read : bool;
  append : bool;
  write : bool;
  control : bool
}.

Definition noAccess : Access := mkAccess false false false false.

(** acl.ts, [internal_getAccess]. *)
Definition internal_getAccess (rule : AclRule) : Access :=
  let ruleAccessModes := getIriAll rule acl.mode in
  let writeAccess := includes ruleAccessModes internal_accessModeIriStrings.write in
  if writeAccess
  then mkAccess (includes ruleAccessModes internal_accessModeIriStrings.read)
                true
                true
                (includes ruleAccessModes internal_accessModeIriStrings.control)
  else mkAccess (includes ruleAccessModes internal_accessModeIriStrings.read)
                (includes ruleAccessModes internal_accessModeIriStrings.append)
                false
                (includes ruleAccessModes internal_accessModeIriStrings.control).

(** The reducer of [internal_combineAccessModes]. *)
Definition combineStep (accumulator current : Access) : Access :=
  let writeAccess := write accumulator || write current in
  if writeAccess
  then mkAccess (read accumulator || read current)
                true
                true
                (control accumulator || control current)
  else mkAccess (read accumulator || read current)
                (append accumulator || append current)
                false
                (control accumulator || control current).

(** acl.ts, [internal_combineAccessModes]: [modes.reduce] from the
    all-false record. *)
Definition internal_combineAccessModes (modes : list Access) : Access :=
  fold_left combineStep modes noAccess.

(** *** Reference notions for the access-mode algebra *)

(** Field-wise disjunction of a list of access records. *)
Definition fieldwiseOr (modes : list Access) : Access :=
  mkAccess (existsb read modes) (existsb append modes)
           (existsb write modes) (existsb control modes).

(** Write implies append: raise [append] when [write] is set. *)
Definition normalise (a : Access) : Access :=
  mkAccess (read a) (append a || write a) (write a) (control a).

(** The rule stores the statement [acl:mode <m>]. *)
Definition HasMode (rule : AclRule) (m : string) : Prop :=
  In (acl.mode, NamedNode m) (thing_statements rule).


(** ** Datasets and resources (interfaces.ts) *)

(** [internal_resourceInfo]: where the resource was fetched from, and
    the ACL URL the server advertised for it ([aclUrl] is left out when
    the user may not see the ACL). *)
Record ResourceInfo : Type := mkResourceInfo {
  sourceIri : string;
  aclUrl : option string
}.

(** [AclDataset = SolidDataset & WithResourceInfo & { internal_accessTo }].
    The change log a dataset also carries records the same additions and
    deletions a second time and is read by none of the functions below;
    it is left out. *)
Record AclDataset : Type := mkAclDataset {
  quads : list Quad;
  internal_accessTo : string;
  acl_resourceInfo : ResourceInfo
}.

(** [WithAcl & WithResourceInfo]: a resource with whatever ACLs were
    fetched with it. *)
Record Resource : Type := mkResource {
  internal_resourceInfo : ResourceInfo;
  resourceAcl : option AclDataset;
  fallbackAcl : option AclDataset
}.

(** Modelled from the spec: resource/resource.ts is missing;
    [getSourceUrl] reads the URL a resource was fetched from. *)
Definition getSourceUrl (info : ResourceInfo) : string := sourceIri info.

(** interfaces.ts, [hasAccessibleAcl]. *)
Definition hasAccessibleAcl (info : ResourceInfo) : bool :=
  match aclUrl info with Some _ => true | None => false end.

(** ** The statement store (thing/thing.ts) *)

Definition toQuad (s : Subject) (st : Statement) : Quad :=
  mkQuad s (fst st) (snd st).

Definition toStatement (q : Quad) : Statement := (predicate q, object q).

(** [DatasetCore.add]: a dataset is a set, a quad it has is not added
    again. *)
Definition datasetAdd (ds : list Quad) (q : Quad) : list Quad :=
  if existsb (quad_eqb q) ds then ds else (ds ++ [q])%list.

(** Modelled from the spec: thing/thing.ts is missing; [getThing]
    collects the statements the dataset has about one subject. *)
Definition getThing (ds : list Quad) (s : Subject) : Thing :=
  mkThing s (map toStatement
               (filter (fun q => subject_eqb (subject q) s) ds)).

(** The distinct subjects of a dataset, in the order in which they
    first occur. *)
Definition subjectsOf (ds : list Quad) : list Subject :=
  fold_left
    (fun acc q =>
       if existsb (subject_eqb (subject q)) acc then acc
       else (acc ++ [subject q])%list)
    ds [].

(** Modelled from the spec: thing/thing.ts is missing; [getThingAll]
    returns one Thing per subject of the dataset. *)
Definition getThingAll (d : AclDataset) : list Thing :=
  map (getThing (quads d)) (subjectsOf (quads d)).

(** Modelled from the spec: thing/thing.ts is missing; [removeThing]
    drops every quad about the Thing's subject and keeps the rest, and
    the metadata, as they are. *)
Definition removeThing (d : AclDataset) (thing : Thing) : AclDataset :=
  mkAclDataset
    (filter (fun q => negb (subject_eqb (subject q) (thing_subject thing)))
       (quads d))
    (internal_accessTo d) (acl_resourceInfo d).

(** Modelled from the spec: thing/thing.ts is missing; [setThing]
    replaces what the dataset says about the Thing's subject by the
    Thing's statements. *)
Definition setThing (d : AclDataset) (thing : Thing) : AclDataset :=
  let cleared := removeThing d thing in
  mkAclDataset
    (fold_left datasetAdd
       (map (toQuad (thing_subject thing)) (thing_statements thing))
       (quads cleared))
    (internal_accessTo d) (acl_resourceInfo d).

(** ** Rule classification (acl.ts) *)

Definition isAclRule (thing : Thing) : bool :=
  includes (getIriAll thing rdf.type) acl.Authorization.

Definition internal_getAclRules (aclDataset : AclDataset) : list AclRule :=
  filter isAclRule (getThingAll aclDataset).

Definition isSome (A : Type) (o : option A) : bool :=
  match o with Some _ => true | None => false end.

Definition isResourceAclRule (aclRule : AclRule) : bool :=
  isSome (getIri aclRule acl.accessTo).

Definition internal_getResourceAclRules (aclRules : list AclRule) : list AclRule :=
  filter isResourceAclRule aclRules.

Definition appliesToResource (aclRule : AclRule) (resource : string) : bool :=
  includes (getIriAll aclRule acl.accessTo) resource.

Definition internal_getResourceAclRulesForResource
    (aclRules : list AclRule) (resource : string) : list AclRule :=
  filter (fun rule => appliesToResource rule resource) aclRules.

Definition isDefaultAclRule (aclRule : AclRule) : bool :=
  isSome (getIri aclRule acl.default)
  || isSome (getIri aclRule acl.defaultForNew).

Definition internal_getDefaultAclRules (aclRules : list AclRule) : list AclRule :=
  filter isDefaultAclRule aclRules.

Definition isDefaultForResource (aclRule : AclRule) (resource : string) : bool :=
  includes (getIriAll aclRule acl.default) resource
  || includes (getIriAll aclRule acl.defaultForNew) resource.

Definition internal_getDefaultAclRulesForResource
    (aclRules : list AclRule) (resource : string) : list AclRule :=
  filter (fun rule => isDefaultForResource rule resource) aclRules.

(** [internal_getAclRulesForIri]: [targetType] is [acl:agent] or
    [acl:agentGroup]. *)
Definition internal_getAclRulesForIri
    (aclRules : list AclRule) (targetIri targetType : string) : list AclRule :=
  filter (fun rule => includes (getIriAll rule targetType) targetIri) aclRules.

(** ** Garbage collection of empty rules (acl.ts) *)

Definition isAclQuad (quad : Statement) : bool :=
  let predicate := fst quad in
  let object := snd quad in
  if String.eqb predicate rdf.type
     && term_eqb object (NamedNode acl.Authorization)
  then true
  else if String.eqb predicate acl.accessTo
          || String.eqb predicate acl.default
          || String.eqb predicate acl.defaultForNew
  then true
  else if String.eqb predicate acl.mode
          && existsb (fun mode => term_eqb object (NamedNode mode))
               internal_accessModeIriStrings.values
  then true
  else if String.eqb predicate acl.agent
          || String.eqb predicate acl.agentGroup
          || String.eqb predicate acl.agentClass
  then true
  else if String.eqb predicate acl.origin
  then true
  else false.

Definition isNull (A : Type) (o : option A) : bool := negb (isSome o).

Definition isEmptyAclRule (aclRule : AclRule) : bool :=
  if existsb (fun quad => negb (isAclQuad quad)) (thing_statements aclRule)
  then false
  else if isNull (getIri aclRule acl.accessTo)
          && isNull (getIri aclRule acl.default)
          && isNull (getIri aclRule acl.defaultForNew)
  then true
  else if isNull (getIri aclRule acl.mode)
  then true
  else if isNull (getIri aclRule acl.agent)
          && isNull (getIri aclRule acl.agentGroup)
          && isNull (getIri aclRule acl.agentClass)
  then true
  else false.

Definition internal_removeEmptyAclRules (aclDataset : AclDataset) : AclDataset :=
  let aclRules := internal_getAclRules aclDataset in
  let aclRulesToRemove := filter isEmptyAclRule aclRules in
  fold_left removeThing aclRulesToRemove aclDataset.

(** ** ACLs attached to a resource (acl.ts) *)

Definition option_string_eqb (a b : option string) : bool :=
  match a, b with
  | Some x, Some y => String.eqb x y
  | None, None => true
  | _, _ => false
  end.

(** [hasResourceAcl]: the three conjuncts of the source, in order;
    [aclUrl] may be undefined, the ACL's source URL is a string. *)
Definition hasResourceAcl (resource : Resource) : bool :=
  match resourceAcl resource with
  | None => false
  | Some acl =>
      String.eqb (getSourceUrl (internal_resourceInfo resource))
                 (internal_accessTo acl)
      && option_string_eqb (aclUrl (internal_resourceInfo resource))
                           (Some (getSourceUrl (acl_resourceInfo acl)))
  end.

Definition getResourceAcl (resource : Resource) : option AclDataset :=
  if negb (hasResourceAcl resource) then None else resourceAcl resource.

Definition hasFallbackAcl (resource : Resource) : bool :=
  isSome (fallbackAcl resource).

Definition getFallbackAcl (resource : Resource) : option AclDataset :=
  if negb (hasFallbackAcl resource) then None else fallbackAcl resource.

(** ** Effective access (class.ts, group.ts) *)

Definition appliesToClass (aclRule : AclRule) (agentClass : string) : bool :=
  includes (getIriAll aclRule acl.agentClass) agentClass.

Definition getClassAclRulesForClass
    (aclRules : list AclRule) (agentClass : string) : list AclRule :=
  filter (fun rule => appliesToClass rule agentClass) aclRules.

Definition getPublicResourceAccess (aclDataset : AclDataset) : Access :=
  let allRules := internal_getAclRules aclDataset in
  let resourceRules :=
    internal_getResourceAclRulesForResource allRules (internal_accessTo aclDataset) in
  let publicResourceRules := getClassAclRulesForClass resourceRules foaf.Agent in
  let publicAccessModes := map internal_getAccess publicResourceRules in
  internal_combineAccessModes publicAccessModes.

Definition getPublicDefaultAccess (aclDataset : AclDataset) : Access :=
  let allRules := internal_getAclRules aclDataset in
  let resourceRules :=
    internal_getDefaultAclRulesForResource allRules (internal_accessTo aclDataset) in
  let publicResourceRules := getClassAclRulesForClass resourceRules foaf.Agent in
  let publicAccessModes := map internal_getAccess publicResourceRules in
  internal_combineAccessModes publicAccessModes.

(** class.ts, [getPublicAccess]; the resource ACL is read under the
    guard [hasResourceAcl], which makes it non-null. *)
Definition getPublicAccess (resourceInfo : Resource) : option Access :=
  if hasResourceAcl resourceInfo then
    match resourceAcl resourceInfo with
    | Some acl => Some (getPublicResourceAccess acl)
    | None => None
    end
  else if hasFallbackAcl resourceInfo then
    match fallbackAcl resourceInfo with
    | Some acl => Some (getPublicDefaultAccess acl)
    | None => None
    end
  else None.

Definition getGroupAclRuleForGroup (rules : list AclRule) (group : string) : list AclRule :=
  internal_getAclRulesForIri rules group acl.agentGroup.

Definition getGroupResourceAccess (aclDataset : AclDataset) (group : string) : Access :=
  let allRules := internal_getAclRules aclDataset in
  let resourceRules :=
    internal_getResourceAclRulesForResource allRules (internal_accessTo aclDataset) in
  let groupResourceRules := getGroupAclRuleForGroup resourceRules group in
  let groupAccessModes := map internal_getAccess groupResourceRules in
  internal_combineAccessModes groupAccessModes.

Definition getGroupDefaultAccess (aclDataset : AclDataset) (group : string) : Access :=
  let allRules := internal_getAclRules aclDataset in
  let defaultRules :=
    internal_getDefaultAclRulesForResource allRules (internal_accessTo aclDataset) in
  let groupDefaultRules := getGroupAclRuleForGroup defaultRules group in
  let groupAccessModes := map internal_getAccess groupDefaultRules in
  internal_combineAccessModes groupAccessModes.

Definition getGroupAccess (resourceInfo : Resource) (group : string) : option Access :=
  if hasResourceAcl resourceInfo then
    match resourceAcl resourceInfo with
    | Some acl => Some (getGroupResourceAccess acl group)
    | None => None
    end
  else if hasFallbackAcl resourceInfo then
    match fallbackAcl resourceInfo with
    | Some acl => Some (getGroupDefaultAccess acl group)
    | None => None
    end
  else None.

(** Modelled from the spec: acl/agent.ts is missing; the access of one
    agent is computed like a group's, with the rules selected by
    [internal_getAclRulesForIri] on [acl:agent]. *)
Definition getAgentResourceAccess (aclDataset : AclDataset) (agent : string) : Access :=
  let allRules := internal_getAclRules aclDataset in
  let resourceRules :=
    internal_getResourceAclRulesForResource allRules (internal_accessTo aclDataset) in
  let agentResourceRules := internal_getAclRulesForIri resourceRules agent acl.agent in
  let agentAccessModes := map internal_getAccess agentResourceRules in
  internal_combineAccessModes agentAccessModes.

(** Modelled from the spec: acl/agent.ts is missing; as above, for the
    default rules of a container. *)
Definition getAgentDefaultAccess (aclDataset : AclDataset) (agent : string) : Access :=
  let allRules := internal_getAclRules aclDataset in
  let defaultRules :=
    internal_getDefaultAclRulesForResource allRules (internal_accessTo aclDataset) in
  let agentDefaultRules := internal_getAclRulesForIri defaultRules agent acl.agent in
  let agentAccessModes := map internal_getAccess agentDefaultRules in
  internal_combineAccessModes agentAccessModes.

(** *** Reference notions for the garbage collection *)

(** The statements that belong to access control: the Authorization
    type, a target, one of the four access modes, a grantee, an origin. *)
Inductive AclStatement : Statement -> Prop :=
| AclType : AclStatement (rdf.type, NamedNode acl.Authorization)
| AclTarget p o :
    p = acl.accessTo \/ p = acl.default \/ p = acl.defaultForNew ->
    AclStatement (p, o)
| AclMode m :
    In m internal_accessModeIriStrings.values ->
    AclStatement (acl.mode, NamedNode m)
| AclGrantee p o :
    p = acl.agent \/ p = acl.agentGroup \/ p = acl.agentClass ->
    AclStatement (p, o)
| AclOrigin o : AclStatement (acl.origin, o).

(** The Thing names an IRI for the property. *)
Definition HasIri (thing : Thing) (property : string) : Prop :=
  exists iri, In (property, NamedNode iri) (thing_statements thing).

Definition NoTarget (rule : AclRule) : Prop :=
  ~ HasIri rule acl.accessTo /\ ~ HasIri rule acl.default
  /\ ~ HasIri rule acl.defaultForNew.

Definition NoMode (rule : AclRule) : Prop := ~ HasIri rule acl.mode.

Definition NoGrantee (rule : AclRule) : Prop :=
  ~ HasIri rule acl.agent /\ ~ HasIri rule acl.agentGroup
  /\ ~ HasIri rule acl.agentClass.

(** A rule that the garbage collection takes out. *)
Definition Ineffective (rule : AclRule) : Prop :=
  In (rdf.type, NamedNode acl.Authorization) (thing_statements rule)
  /\ (forall st, In st (thing_statements rule) -> AclStatement st)
  /\ (NoTarget rule \/ NoMode rule \/ NoGrantee rule).

Definition ineffective (rule : AclRule) : bool :=
  isAclRule rule && isEmptyAclRule rule.

(** ** Creating an ACL (acl.ts) *)

(** The argument of [createAcl] and [createAclFromFallbackAcl]:
    [WithFallbackAcl & WithResourceInfo & WithAccessibleAcl], a resource
    whose ACL URL is known and whose fallback ACL is attached. *)
Record ResourceWithFallbackAcl : Type := mkResourceWithFallbackAcl {
  target_sourceIri : string;
  target_aclUrl : string;
  target_fallbackAcl : AclDataset
}.

(** [createAcl]: an empty dataset for the resource, to be stored at the
    resource's ACL URL. *)
Definition createAcl (targetSourceIri targetAclUrl : string) : AclDataset :=
  mkAclDataset [] targetSourceIri (mkResourceInfo targetAclUrl None).

(** The function [createAclFromFallbackAcl] maps over the default
    rules: a default rule becomes a rule for the resource. *)
Definition toResourceRule (resourceUrl : string) (rule : AclRule) : AclRule :=
  let rule := removeAll rule acl.default in
  let rule := removeAll rule acl.defaultForNew in
  let rule := setIri rule acl.accessTo resourceUrl in
  rule.

Definition createAclFromFallbackAcl (resource : ResourceWithFallbackAcl) : AclDataset :=
  let emptyResourceAcl :=
    createAcl (target_sourceIri resource) (target_aclUrl resource) in
  let fallbackAclRules := internal_getAclRules (target_fallbackAcl resource) in
  let defaultAclRules :=
    internal_getDefaultAclRulesForResource fallbackAclRules
      (internal_accessTo (target_fallbackAcl resource)) in
  let resourceAclRules :=
    map (toResourceRule (target_sourceIri resource)) defaultAclRules in
  let initialisedResourceAcl := fold_left setThing resourceAclRules emptyResourceAcl in
  initialisedResourceAcl.

(** ** The public-grant mutator (class.ts) *)

(** [createThing] names a new Thing by a random string; the strings it
    draws are taken from a generator, and a computation that creates
    Things threads the number of names drawn so far. *)
Definition Fresh (A : Type) : Type := nat -> A * nat.

Definition ret (A : Type) (a : A) : Fresh A := fun n => (a, n).

Definition bind (A B : Type) (m : Fresh A) (k : A -> Fresh B) : Fresh B :=
  fun n => let (a, n') := m n in k a n'.

Notation "x <- m ;; k" := (bind m (fun x => k))
  (at level 61, m at next level, right associativity).

(** ["resource" | "default"]. *)
Inductive RuleType : Type := RuleResource | RuleDefault.

Section Mutator.

Variable generateName : nat -> string.

(** Modelled from the spec: thing/thing.ts is missing; [createThing]
    makes a Thing without statements, on a new local subject. *)
Definition createThing : Fresh Thing :=
  fun n => (mkThing (LocalSubject (generateName n)) [], S n).

(** acl.ts, [internal_initialiseAclRule]. *)
Definition internal_initialiseAclRule (access : Access) : Fresh AclRule :=
  newRule <- createThing ;;
  let newRule := setIri newRule rdf.type acl.Authorization in
  let newRule :=
    if read access
    then addIri newRule acl.mode internal_accessModeIriStrings.read
    else newRule in
  let newRule :=
    if append access && negb (write access)
    then addIri newRule acl.mode internal_accessModeIriStrings.append
    else newRule in
  let newRule :=
    if write access
    then addIri newRule acl.mode internal_accessModeIriStrings.write
    else newRule in
  let newRule :=
    if control access
    then addIri newRule acl.mode internal_accessModeIriStrings.control
    else newRule in
  ret newRule.

(** The local function [copyIris] of [internal_duplicateAclRule]. *)
Definition copyIris (inputRule outputRule : AclRule) (predicate : string) : AclRule :=
  fold_left (fun outputRule iriTarget => addIri outputRule predicate iriTarget)
    (getIriAll inputRule predicate) outputRule.

(** acl.ts, [internal_duplicateAclRule]. *)
Definition internal_duplicateAclRule (sourceRule : AclRule) : Fresh AclRule :=
  targetRule <- createThing ;;
  let targetRule := setIri targetRule rdf.type acl.Authorization in
  let targetRule := copyIris sourceRule targetRule acl.accessTo in
  let targetRule := copyIris sourceRule targetRule acl.default in
  let targetRule := copyIris sourceRule targetRule acl.defaultForNew in
  let targetRule := copyIris sourceRule targetRule acl.agent in
  let targetRule := copyIris sourceRule targetRule acl.agentGroup in
  let targetRule := copyIris sourceRule targetRule acl.agentClass in
  let targetRule := copyIris sourceRule targetRule acl.origin in
  let targetRule := copyIris sourceRule targetRule acl.mode in
  ret targetRule.

(** class.ts, [removePublicFromRule]. *)
Definition removePublicFromRule
    (rule : AclRule) (resourceIri : string) (ruleType : RuleType)
  : Fresh (AclRule * AclRule) :=
  if negb (includes (getIriAll rule acl.agentClass) foaf.Agent) then
    emptyRule <- internal_initialiseAclRule (mkAccess false false false false) ;;
    ret (rule, emptyRule)
  else
    let ruleWithoutPublic := removeIri rule acl.agentClass foaf.Agent in
    ruleForOtherTargets <- internal_duplicateAclRule rule ;;
    let ruleForOtherTargets := setIri ruleForOtherTargets acl.agentClass foaf.Agent in
    let ruleForOtherTargets := removeAll ruleForOtherTargets acl.agent in
    let ruleForOtherTargets := removeAll ruleForOtherTargets acl.agentGroup in
    let ruleForOtherTargets :=
      removeIri ruleForOtherTargets
        (match ruleType with
         | RuleResource => acl.accessTo
         | RuleDefault => acl.default
         end)
        resourceIri in
    ret (ruleWithoutPublic, ruleForOtherTargets).

(** The [forEach] loop of [setPublicResourceAccess] and
    [setPublicDefaultAccess]: the rules come from the dataset as it was
    given, the two rules of each split are stored in [filteredAcl]. *)
Fixpoint filterPublicRules
    (rules : list AclRule) (resourceIri : string) (ruleType : RuleType)
    (filteredAcl : AclDataset) : Fresh AclDataset :=
  match rules with
  | [] => ret filteredAcl
  | aclRule :: rest =>
      split <- removePublicFromRule aclRule resourceIri ruleType ;;
      let filteredRule := fst split in
      let remainingRule := snd split in
      let filteredAcl := setThing filteredAcl filteredRule in
      let filteredAcl := setThing filteredAcl remainingRule in
      filterPublicRules rest resourceIri ruleType filteredAcl
  end.

(** class.ts, [setPublicResourceAccess]. *)
Definition setPublicResourceAccess (aclDataset : AclDataset) (access : Access)
  : Fresh AclDataset :=
  filteredAcl <- filterPublicRules (getThingAll aclDataset)
                   (internal_accessTo aclDataset) RuleResource aclDataset ;;
  newRule <- internal_initialiseAclRule access ;;
  let newRule := setIri newRule acl.accessTo (internal_accessTo aclDataset) in
  let newRule := setIri newRule acl.agentClass foaf.Agent in
  let updatedAcl := setThing filteredAcl newRule in
  ret (internal_removeEmptyAclRules updatedAcl).

(** class.ts, [setPublicDefaultAccess]. *)
Definition setPublicDefaultAccess (aclDataset : AclDataset) (access : Access)
  : Fresh AclDataset :=
  filteredAcl <- filterPublicRules (getThingAll aclDataset)
                   (internal_accessTo aclDataset) RuleDefault aclDataset ;;
  newRule <- internal_initialiseAclRule access ;;
  let newRule := setIri newRule acl.default (internal_accessTo aclDataset) in
  let newRule := setIri newRule acl.agentClass foaf.Agent in
  let updatedAcl := setThing filteredAcl newRule in
  let cleanedAcl := internal_removeEmptyAclRules updatedAcl in
  ret cleanedAcl.

End Mutator.

(** *** Reference notions for effective access *)

(** Whether a rule is in the scope of a target: a resource rule for it,
    or a default rule for it. *)
Definition scopeTest (ruleType : RuleType) (rule : AclRule) (target : string) : bool :=
  match ruleType with
  | RuleResource => appliesToResource rule target
  | RuleDefault => isDefaultForResource rule target
  end.

(** A grantee as the rules name it: the property ([acl:agent],
    [acl:agentGroup] or [acl:agentClass]) and the IRI. *)
Definition namesGrantee (rule : AclRule) (granteeType grantee : string) : bool :=
  includes (getIriAll rule granteeType) grantee.

(** What one Thing contributes to the access of a grantee in a scope:
    the modes of the Thing when it is an Authorization for the target
    that names the grantee, and nothing otherwise. *)
Definition grant (ruleType : RuleType) (target granteeType grantee : string)
    (thing : Thing) : Access :=
  if isAclRule thing && scopeTest ruleType thing target
     && namesGrantee thing granteeType grantee
  then internal_getAccess thing
  else noAccess.

(** The effective access of a grantee in a scope: the combination of
    the modes of the rules that the getters of class.ts and group.ts
    select. *)
Definition effectiveAccess (ruleType : RuleType) (granteeType grantee : string)
    (aclDataset : AclDataset) : Access :=
  internal_combineAccessModes
    (map internal_getAccess
       (filter (fun rule => namesGrantee rule granteeType grantee)
          (filter (fun rule => scopeTest ruleType rule (internal_accessTo aclDataset))
             (internal_getAclRules aclDataset)))).

(** The names [createThing] draws while [setPublicResourceAccess] works
    on a dataset, one per Thing and one for the new rule, are the names
    of no Thing of the dataset. *)
Definition freshNames (generateName : nat -> string) (n : nat) (d : AclDataset) : bool :=
  forallb
    (fun i => negb (existsb (subject_eqb (LocalSubject (generateName i)))
                      (subjectsOf (quads d))))
    (seq n (S (List.length (getThingAll d)))).

(** Two Things name the same IRIs for a property. *)
Definition sameIris (t1 t2 : Thing) (property : string) : Prop :=
  forall iri,
    In (property, NamedNode iri) (thing_statements t1)
    <-> In (property, NamedNode iri) (thing_statements t2).

(** The property [removePublicFromRule] carves the target out of. *)
Definition targetProperty (ruleType : RuleType) : string :=
  match ruleType with
  | RuleResource => acl.accessTo
  | RuleDefault => acl.default
  end.

(** ** Sample data *)

(** A generator of names that never repeats: [new-], followed by as
    many [i] as names were drawn before. *)
Fixpoint tally (n : nat) : string :=
  match n with
  | O => EmptyString
  | S k => String "i" (tally k)
  end.

Definition exampleNames (n : nat) : string := "new-" ++ tally n.

Definition exampleResource : string := "https://pod.example/c/r".

Definition exampleAgent : string := "https://alice.example/profile#me".

(** An ACL for [exampleResource] with one rule, which gives Control to
    the public and to one agent. *)
Definition exampleAcl : AclDataset :=
  let rule := NamedSubject "https://pod.example/c/r.acl#owner" in
  mkAclDataset
    [ mkQuad rule rdf.type (NamedNode acl.Authorization);
      mkQuad rule acl.accessTo (NamedNode exampleResource);
      mkQuad rule acl.agentClass (NamedNode foaf.Agent);
      mkQuad rule acl.agent (NamedNode exampleAgent);
      mkQuad rule acl.mode (NamedNode internal_accessModeIriStrings.control) ]
    exampleResource
    (mkResourceInfo "https://pod.example/c/r.acl" None).

(** ** JavaScript strings *)

Definition js_length (s : string) : Z := Z.of_nat (String.length s).

(** [String.prototype.substring(start, end)]: both indices are clamped
    to the string, and swapped when the first is the larger. *)
Definition js_substring (s : string) (start finish : Z) : string :=
  let clamp := fun i => Z.max 0 (Z.min i (js_length s)) in
  let lo := Z.min (clamp start) (clamp finish) in
  let hi := Z.max (clamp start) (clamp finish) in
  String.substring (Z.to_nat lo) (Z.to_nat (hi - lo)) s.

(** [substring(start)], to the end of the string. *)
Definition js_substring_from (s : string) (start : Z) : string :=
  js_substring s start (js_length s).

Fixpoint lastIndexOfFrom (s : string) (c : ascii) (i found : Z) : Z :=
  match s with
  | EmptyString => found
  | String x rest =>
      lastIndexOfFrom rest c (i + 1) (if Ascii.eqb x c then i else found)
  end.

(** [String.prototype.lastIndexOf] for a search string of one
    character: the last index at which it occurs, or [-1]. *)
Definition js_lastIndexOf (s : string) (c : ascii) : Z :=
  lastIndexOfFrom s c 0 (-1).

(** ** The fallback walk (acl.ts) *)

(** acl.ts, [internal_getContainerPath]. *)
Definition internal_getContainerPath (resourcePath : string) : string :=
  let resourcePathWithoutTrailingSlash :=
    if String.eqb (js_substring_from resourcePath (js_length resourcePath - 1)) "/"
    then js_substring resourcePath 0 (js_length resourcePath - 1)
    else resourcePath in
  let containerPath :=
    js_substring resourcePath 0
      (js_lastIndexOf resourcePathWithoutTrailingSlash "/") ++ "/" in
  containerPath.

(** The string has no ['/']. *)
Fixpoint hasSlash (s : string) : bool :=
  match s with
  | EmptyString => false
  | String c rest => Ascii.eqb c "/" || hasSlash rest
  end.

(** Why a request failed: the HTTP statuses 404 and 403, any other
    status that is not [ok], and a fetch that was rejected. *)
Inductive FetchError : Type :=
| NotFound
| Forbidden
| OtherStatus (status : nat)
| NetworkFailure.

(** A request as the fetcher sees it. *)
Inductive Request : Type :=
| Head (url : string)
| Get (url : string).

(** How an [async] function ends: its promise resolves, or rejects, or
    has not settled when the walk was cut off. *)
Inductive Outcome (A : Type) : Type :=
| Resolved (value : A)
| Rejected (reason : FetchError)
| Unsettled.

Arguments Rejected {A} reason.
Arguments Unsettled {A}.

(** An [async] computation: the requests it sent, in order, and how it
    ended. *)
Definition Promise (A : Type) : Type := (list Request * Outcome A)%type.

Definition resolve (A : Type) (a : A) : Promise A := ([], Resolved a).

(** [await]: go on with the value, or stop with the rejection. *)
Definition await (A B : Type) (m : Promise A) (k : A -> Promise B) : Promise B :=
  match m with
  | (log, Resolved a) => let (log', out) := k a in ((log ++ log')%list, out)
  | (log, Rejected e) => (log, Rejected e)
  | (log, Unsettled) => (log, Unsettled)
  end.

(** [try { ... } catch (e) { ... }] around an awaited computation. *)
Definition tryCatch (A : Type) (m : Promise A) (handler : FetchError -> Promise A)
  : Promise A :=
  match m with
  | (log, Rejected e) => let (log', out) := handler e in ((log ++ log')%list, out)
  | settled => settled
  end.

(** A dataset as [getSolidDataset] returns it. *)
Record SolidDataset : Type := mkSolidDataset {
  sd_quads : list Quad;
  sd_resourceInfo : ResourceInfo
}.

Section Fallback.

(** The platform's [URL]: [new URL(u).pathname], [new URL(u).origin]
    and [new URL(path, origin).href]. *)
Variable urlPathname : string -> string.
Variable urlOrigin : string -> string.
Variable urlHref : string -> string -> string.

(** What the server answers to [getResourceInfo] (resource/resource.ts)
    and to [getSolidDataset] (resource/solidDataset.ts), both of which
    reject when the response is not [ok]. *)
Variable serverResourceInfo : string -> Outcome ResourceInfo.
Variable serverSolidDataset : string -> Outcome SolidDataset.

Definition getResourceInfo (url : string) : Promise ResourceInfo :=
  ([Head url], serverResourceInfo url).

Definition getSolidDataset (url : string) : Promise SolidDataset :=
  ([Get url], serverSolidDataset url).

(** acl.ts, [internal_fetchResourceAcl]. *)
Definition internal_fetchResourceAcl (dataset : ResourceInfo)
  : Promise (option AclDataset) :=
  match aclUrl dataset with
  | None => resolve None
  | Some datasetAclUrl =>
      tryCatch
        (await (getSolidDataset datasetAclUrl)
           (fun aclSolidDataset =>
              resolve
                (Some (mkAclDataset (sd_quads aclSolidDataset)
                         (getSourceUrl dataset)
                         (sd_resourceInfo aclSolidDataset)))))
        (fun e => resolve None)
  end.

(** acl.ts, [internal_fetchFallbackAcl]; [fuel] bounds the number of
    recursive calls. *)
Fixpoint internal_fetchFallbackAcl (fuel : nat) (resource : ResourceInfo)
  : Promise (option AclDataset) :=
  let resourceUrl := getSourceUrl resource in
  let resourcePath := urlPathname resourceUrl in
  if String.eqb resourcePath "/" then resolve None
  else
    let containerPath := internal_getContainerPath resourcePath in
    let containerIri := urlHref containerPath (urlOrigin resourceUrl) in
    await (getResourceInfo containerIri)
      (fun containerInfo =>
         if negb (hasAccessibleAcl containerInfo) then resolve None
         else
           await (internal_fetchResourceAcl containerInfo)
             (fun containerAcl =>
                match containerAcl with
                | None =>
                    match fuel with
                    | O => ([], Unsettled)
                    | S fuel' => internal_fetchFallbackAcl fuel' containerInfo
                    end
                | Some acl => resolve (Some acl)
                end)).

End Fallback.


(** *** Sample URLs and a sample server *)

(** The part of a string before its first ['/'], and the rest. *)
Fixpoint untilSlash (s : string) : string * string :=
  match s with
  | EmptyString => (EmptyString, EmptyString)
  | String c rest =>
      if Ascii.eqb c "/" then (EmptyString, s)
      else let (before, after) := untilSlash rest in (String c before, after)
  end.

(** Origin and path of a URL of the shape [scheme://host/path]. *)
Definition exampleSplitUrl (url : string) : string * string :=
  let (scheme, rest) := untilSlash url in
  match rest with
  | String "/" (String "/" rest') =>
      let (host, path) := untilSlash rest' in
      (scheme ++ "//" ++ host, if String.eqb path "" then "/" else path)
  | _ => (url, "/")
  end.

Definition examplePathname (url : string) : string := snd (exampleSplitUrl url).

Definition exampleOrigin (url : string) : string := fst (exampleSplitUrl url).

Definition exampleHref (path origin : string) : string := origin ++ path.

(** A Pod in which [/with-acl/] has an ACL and the ACL of
    [/with-acl/without-acl/] answers 403. *)
Definition exampleServerResourceInfo (url : string) : Outcome ResourceInfo :=
  if String.eqb url "https://some.pod/with-acl/without-acl/" then
    Resolved (mkResourceInfo url (Some "https://some.pod/with-acl/without-acl/.acl"))
  else if String.eqb url "https://some.pod/with-acl/" then
    Resolved (mkResourceInfo url (Some "https://some.pod/with-acl/.acl"))
  else Rejected NotFound.

Definition exampleServerSolidDataset (url : string) : Outcome SolidDataset :=
  if String.eqb url "https://some.pod/with-acl/without-acl/.acl" then
    Rejected Forbidden
  else if String.eqb url "https://some.pod/with-acl/.acl" then
    Resolved (mkSolidDataset [] (mkResourceInfo url None))
  else Rejected NotFound.

Definition exampleFetchedResource : ResourceInfo :=
  mkResourceInfo "https://some.pod/with-acl/without-acl/resource"
    (Some "https://some.pod/with-acl/without-acl/resource.acl").

(** ** The group-grant mutator (group.ts) *)

Section GroupMutator.

Variable generateName : nat -> string.

(** group.ts, [removeGroupFromRule]. *)
Definition removeGroupFromRule
    (rule : AclRule) (group resourceIri : string) (ruleType : RuleType)
  : Fresh (AclRule * AclRule) :=
  if negb (includes (getIriAll rule acl.agentGroup) group) then
    emptyRule <- internal_initialiseAclRule generateName
                   (mkAccess false false false false) ;;
    ret (rule, emptyRule)
  else
    let ruleWithoutGroup := removeIri rule acl.agentGroup group in
    ruleForOtherTargets <- internal_duplicateAclRule generateName rule ;;
    let ruleForOtherTargets :=
      removeIri ruleForOtherTargets
        (match ruleType with
         | RuleResource => acl.accessTo
         | RuleDefault => acl.default
         end)
        resourceIri in
    let ruleForOtherTargets := setIri ruleForOtherTargets acl.agent group in
    let ruleForOtherTargets := removeAll ruleForOtherTargets acl.agentClass in
    let ruleForOtherTargets := removeAll ruleForOtherTargets acl.agentGroup in
    ret (ruleWithoutGroup, ruleForOtherTargets).

(** The [forEach] loop of [setGroupResourceAccess]. *)
Fixpoint filterGroupRules
    (rules : list AclRule) (group resourceIri : string) (ruleType : RuleType)
    (filteredAcl : AclDataset) : Fresh AclDataset :=
  match rules with
  | [] => ret filteredAcl
  | aclRule :: rest =>
      split <- removeGroupFromRule aclRule group resourceIri ruleType ;;
      let filteredRule := fst split in
      let remainingRule := snd split in
      let filteredAcl := setThing filteredAcl filteredRule in
      let filteredAcl := setThing filteredAcl remainingRule in
      filterGroupRules rest group resourceIri ruleType filteredAcl
  end.

(** group.ts, [setGroupResourceAccess]. *)
Definition setGroupResourceAccess
    (aclDataset : AclDataset) (group : string) (access : Access)
  : Fresh AclDataset :=
  filteredAcl <- filterGroupRules (getThingAll aclDataset) group
                   (internal_accessTo aclDataset) RuleResource aclDataset ;;
  newRule <- internal_initialiseAclRule generateName access ;;
  let newRule := setIri newRule acl.accessTo (internal_accessTo aclDataset) in
  let newRule := setIri newRule acl.agentGroup group in
  let updatedAcl := setThing filteredAcl newRule in
  let cleanedAcl := internal_removeEmptyAclRules updatedAcl in
  ret cleanedAcl.

End GroupMutator.

(** ** Access of all grantees of a kind (acl.ts, group.ts) *)

(** A [Record<IriString, Access>]: the keys in the order in which they
    were first assigned, each with its current value.  The keys are the
    IRIs of the rules. *)
Definition AccessRecord : Type := list (string * Access).

(** [record[key]], [undefined] when the key was never assigned. *)
Fixpoint recordGet (record : AccessRecord) (key : string) : option Access :=
  match record with
  | [] => None
  | (k, v) :: rest => if String.eqb k key then Some v else recordGet rest key
  end.

(** [record[key] = value]. *)
Fixpoint recordSet (record : AccessRecord) (key : string) (value : Access)
  : AccessRecord :=
  match record with
  | [] => [(key, value)]
  | (k, v) :: rest =>
      if String.eqb k key then (k, value) :: rest
      else (k, v) :: recordSet rest key value
  end.

(** acl.ts, [internal_getAccessByIri]: the two nested [forEach]. *)
Definition internal_getAccessByIri (aclRules : list AclRule) (targetType : string)
  : AccessRecord :=
  fold_left
    (fun targetIriAccess rule =>
       let ruleTargetIri := getIriAll rule targetType in
       let access := internal_getAccess rule in
       fold_left
         (fun targetIriAccess targetIri =>
            recordSet targetIriAccess targetIri
              (match recordGet targetIriAccess targetIri with
               | None => access
               | Some previous => internal_combineAccessModes [previous; access]
               end))
         ruleTargetIri targetIriAccess)
    aclRules [].

Definition getAccessByGroup (aclRules : list AclRule) : AccessRecord :=
  internal_getAccessByIri aclRules acl.agentGroup.

Definition getGroupResourceAccessAll (aclDataset : AclDataset) : AccessRecord :=
  let allRules := internal_getAclRules aclDataset in
  let resourceRules :=
    internal_getResourceAclRulesForResource allRules (internal_accessTo aclDataset) in
  getAccessByGroup resourceRules.

Definition getGroupDefaultAccessAll (aclDataset : AclDataset) : AccessRecord :=
  let allRules := internal_getAclRules aclDataset in
  let defaultRules :=
    internal_getDefaultAclRulesForResource allRules (internal_accessTo aclDataset) in
  getAccessByGroup defaultRules.

(** group.ts, [getGroupAccessAll]; the ACLs are read under the guards
    [hasResourceAcl] and [hasFallbackAcl], which make them non-null. *)
Definition getGroupAccessAll (resourceInfo : Resource) : option AccessRecord :=
  if hasResourceAcl resourceInfo then
    match getResourceAcl resourceInfo with
    | Some resourceAcl => Some (getGroupResourceAccessAll resourceAcl)
    | None => None
    end
  else if hasFallbackAcl resourceInfo then
    match getFallbackAcl resourceInfo with
    | Some fallbackAcl => Some (getGroupDefaultAccessAll fallbackAcl)
    | None => None
    end
  else None.

(** *** Reference notions for the mutators *)

(** The loop of the mutators, for any way of splitting a rule. *)
Fixpoint splitLoop (split : AclRule -> Fresh (AclRule * AclRule))
    (rules : list AclRule) (filteredAcl : AclDataset) : Fresh AclDataset :=
  match rules with
  | [] => ret filteredAcl
  | aclRule :: rest =>
      fun n =>
        splitLoop split rest
          (setThing (setThing filteredAcl (fst (fst (split aclRule n))))
             (snd (fst (split aclRule n))))
          (snd (split aclRule n))
  end.

(** A split draws one name, keeps the subject of the rule in its first
    half and puts the second half under the name drawn. *)
Definition WellSplit (generateName : nat -> string)
    (split : AclRule -> Fresh (AclRule * AclRule)) : Prop :=
  forall r n,
    snd (split r n) = S n
    /\ thing_subject (fst (fst (split r n))) = thing_subject r
    /\ thing_subject (snd (fst (split r n))) = LocalSubject (generateName n).

(** The names drawn while a mutator works on a dataset differ from one
    another. *)
Definition distinctNames (generateName : nat -> string) (n : nat) (d : AclDataset)
  : bool :=
  forallb (fun i =>
             forallb (fun j =>
                        negb (String.eqb (generateName i) (generateName j))
                        || Nat.eqb i j)
               (seq n (S (List.length (getThingAll d)))))
    (seq n (S (List.length (getThingAll d)))).

(** Every Thing of the dataset that names the public is an
    Authorization. *)
Definition publicThingsAreRules (d : AclDataset) : bool :=
  forallb (fun t => negb (appliesToClass t foaf.Agent) || isAclRule t)
    (getThingAll d).

(** No Thing of the dataset names the public together with an
    [acl:defaultForNew] for the dataset's container. *)
Definition noPublicDefaultForNew (d : AclDataset) : bool :=
  forallb (fun t =>
             negb (appliesToClass t foaf.Agent
                   && includes (getIriAll t acl.defaultForNew) (internal_accessTo d)))
    (getThingAll d).

(** The path starts with ['/'], as every [pathname] of a URL does. *)
Definition startsWithSlash (path : string) : bool :=
  match path with
  | String c _ => Ascii.eqb c "/"
  | EmptyString => false
  end.

(** A write comes with append. *)
Definition writeImpliesAppend (a : Access) : bool := implb (write a) (append a).

(** The properties [internal_duplicateAclRule] copies. *)
Definition copiedProperties : list string :=
  [acl.accessTo; acl.default; acl.defaultForNew; acl.agent; acl.agentGroup;
   acl.agentClass; acl.origin; acl.mode].

(** *** Reference notions for the fallback walk *)

(** The URL the walk asks about after [url]: the path of the container,
    resolved against the origin of [url]. *)
Definition containerUrlOf (urlPathname urlOrigin : string -> string)
    (urlHref : string -> string -> string) (url : string) : string :=
  urlHref (internal_getContainerPath (urlPathname url)) (urlOrigin url).

(** The URL the walk asks about at its [k]th step. *)
Fixpoint ancestorUrl (urlPathname urlOrigin : string -> string)
    (urlHref : string -> string -> string) (k : nat) (url : string) : string :=
  match k with
  | O => url
  | S k' =>
      containerUrlOf urlPathname urlOrigin urlHref
        (ancestorUrl urlPathname urlOrigin urlHref k' url)
  end.

(** Resolving the path of a container gives a URL with that path, at
    every step of the walk from [url] up to the root. *)
Definition urlsFollowPaths (urlPathname urlOrigin : string -> string)
    (urlHref : string -> string -> string) (url : string) : bool :=
  forallb
    (fun k =>
       let u := ancestorUrl urlPathname urlOrigin urlHref k url in
       String.eqb (urlPathname u) "/"
       || String.eqb
            (urlPathname (containerUrlOf urlPathname urlOrigin urlHref u))
            (internal_getContainerPath (urlPathname u)))
    (seq 0 (String.length (urlPathname url))).

(** *** Reference notions for the access a dataset gives *)

(** The properties by which a rule names its target, in each scope. *)
Definition scopeProperties (ruleType : RuleType) : list string :=
  match ruleType with
  | RuleResource => [acl.accessTo]
  | RuleDefault => [acl.default; acl.defaultForNew]
  end.

(** Some subject of the dataset is an Authorization that names the
    target in the scope, names the grantee, and has the mode. *)
Definition RuleGrants (ds : list Quad) (ruleType : RuleType)
    (target granteeType grantee mode : string) : Prop :=
  exists s,
    In (mkQuad s rdf.type (NamedNode acl.Authorization)) ds
    /\ (exists p, In p (scopeProperties ruleType)
                  /\ In (mkQuad s p (NamedNode target)) ds)
    /\ In (mkQuad s granteeType (NamedNode grantee)) ds
    /\ In (mkQuad s acl.mode (NamedNode mode)) ds.

(** The access record is the one the rules of the dataset give the
    grantee in the scope, field by field; Write gives Append. *)
Definition AccessFrom (ds : list Quad) (ruleType : RuleType)
    (target granteeType grantee : string) (a : Access) : Prop :=
  (read a = true <->
   RuleGrants ds ruleType target granteeType grantee
     internal_accessModeIriStrings.read)
  /\ (append a = true <->
      RuleGrants ds ruleType target granteeType grantee
        internal_accessModeIriStrings.append
      \/ RuleGrants ds ruleType target granteeType grantee
           internal_accessModeIriStrings.write)
  /\ (write a = true <->
      RuleGrants ds ruleType target granteeType grantee
        internal_accessModeIriStrings.write)
  /\ (control a = true <->
      RuleGrants ds ruleType target granteeType grantee
        internal_accessModeIriStrings.control).

(** An ACL for [exampleResource] with one rule that was not saved yet,
    under the first name of [exampleNames]; it gives Read to one agent. *)
Definition exampleUnsavedAcl : AclDataset :=
  let rule := LocalSubject (exampleNames 0) in
  mkAclDataset
    [ mkQuad rule rdf.type (NamedNode acl.Authorization);
      mkQuad rule acl.accessTo (NamedNode exampleResource);
      mkQuad rule acl.agent (NamedNode exampleAgent);
      mkQuad rule acl.mode (NamedNode internal_accessModeIriStrings.read) ]
    exampleResource
    (mkResourceInfo "https://pod.example/c/r.acl" None).

(** [setPublicResourceAccess] and [setPublicDefaultAccess] in one: they
    differ in the scope that is passed to [removePublicFromRule] and in the
    property that binds the new rule to its target. *)
Definition setPublicAccessFor (generateName : nat -> string) (ruleType : RuleType)
    (aclDataset : AclDataset) (access : Access) : Fresh AclDataset :=
  filteredAcl <- filterPublicRules generateName (getThingAll aclDataset)
                   (internal_accessTo aclDataset) ruleType aclDataset ;;
  newRule <- internal_initialiseAclRule generateName access ;;
  let newRule :=
    setIri newRule (targetProperty ruleType) (internal_accessTo aclDataset) in
  let newRule := setIri newRule acl.agentClass foaf.Agent in
  let updatedAcl := setThing filteredAcl newRule in
  ret (internal_removeEmptyAclRules updatedAcl).

(** The other scope. *)
Definition otherScope (ruleType : RuleType) : RuleType :=
  match ruleType with
  | RuleResource => RuleDefault
  | RuleDefault => RuleResource
  end.
(** ** Basic facts *)

Lemma subject_eqb_eq (a b : Subject) : subject_eqb a b = true <-> a = b.
Proof.
  destruct a as [x|x], b as [y|y]; simpl; try (split; discriminate).
  - rewrite String.eqb_eq. split; congruence.
  - rewrite String.eqb_eq. split; congruence.
Qed.

Lemma subject_eqb_refl (a : Subject) : subject_eqb a a = true.
Proof. now apply subject_eqb_eq. Qed.

Lemma subject_eqb_neq (a b : Subject) : subject_eqb a b = false <-> a <> b.
Proof.
  rewrite <- subject_eqb_eq. destruct (subject_eqb a b); split; congruence.
Qed.

Lemma subject_eqb_sym (a b : Subject) : subject_eqb a b = subject_eqb b a.
Proof.
  destruct (subject_eqb b a) eqn:E.
  - apply subject_eqb_eq in E. subst. apply subject_eqb_refl.
  - apply subject_eqb_neq. apply subject_eqb_neq in E. congruence.
Qed.

Lemma term_eqb_eq (a b : Term) : term_eqb a b = true <-> a = b.
Proof.
  destruct a as [x|x], b as [y|y]; simpl; try (split; discriminate).
  - rewrite String.eqb_eq. split; congruence.
  - rewrite String.eqb_eq. split; congruence.
Qed.

Lemma statement_eqb_eq (a b : Statement) : statement_eqb a b = true <-> a = b.
Proof.
  destruct a as [p o], b as [p' o']. unfold statement_eqb. simpl.
  rewrite andb_true_iff, String.eqb_eq, term_eqb_eq. split.
  - intros [-> ->]. reflexivity.
  - intros H. inversion H. auto.
Qed.

Lemma includes_In (l : list string) (x : string) :
  includes l x = true <-> In x l.
Proof.
  unfold includes. rewrite existsb_exists. split.
  - intros [y [Hy E]]. apply String.eqb_eq in E. now subst.
  - intros H. exists x. split; [assumption | apply String.eqb_refl].
Qed.

Lemma getIriAll_In (t : Thing) (p i : string) :
  In i (getIriAll t p) <-> In (p, NamedNode i) (thing_statements t).
Proof.
  unfold getIriAll. rewrite in_flat_map. split.
  - intros [[q o] [Hin Hi]]. simpl in Hi.
    destruct (String.eqb q p) eqn:E; [|contradiction].
    apply String.eqb_eq in E. subst q.
    destruct o; simpl in Hi; [|contradiction].
    destruct Hi as [->|[]]. assumption.
  - intros Hin. exists (p, NamedNode i). split; [assumption|].
    simpl. rewrite String.eqb_refl. now left.
Qed.

Lemma includes_getIriAll (t : Thing) (p i : string) :
  includes (getIriAll t p) i = true <-> In (p, NamedNode i) (thing_statements t).
Proof. rewrite includes_In. apply getIriAll_In. Qed.

(** Two boolean tests agree as soon as they are true together. *)
Lemma bool_ext (a b : bool) : (a = true <-> b = true) -> a = b.
Proof. destruct a, b; intuition congruence. Qed.

(** ** The access-mode algebra *)

Lemma combineStep_normalise (a b : Access) :
  combineStep a b =
  mkAccess (read a || read b)
           (if write a || write b then true else append a || append b)
           (write a || write b)
           (control a || control b).
Proof. unfold combineStep. destruct (write a || write b); reflexivity. Qed.

(** The fold, started from any accumulator: every field is the
    disjunction of the accumulator's and the members' fields, and
    [append] is raised by any [write] that took part in a step. *)
Lemma fold_combineStep (modes : list Access) (acc : Access) :
  fold_left combineStep modes acc =
  match modes with
  | [] => acc
  | _ :: _ =>
      mkAccess (read acc || existsb read modes)
               (append acc || existsb append modes
                || write acc || existsb write modes)
               (write acc || existsb write modes)
               (control acc || existsb control modes)
  end.
Proof.
  revert acc. induction modes as [|m ms IH]; intros acc; [reflexivity|].
  simpl fold_left. rewrite IH. rewrite combineStep_normalise.
  destruct ms as [|m' ms'].
  - simpl. destruct acc as [r a w c], m as [r' a' w' c']; simpl.
    destruct r, a, w, c, r', a', w', c'; reflexivity.
  - cbn [read append write control existsb].
    generalize (read m' || existsb read ms'), (append m' || existsb append ms'),
      (write m' || existsb write ms'), (control m' || existsb control ms').
    intros x1 x2 x3 x4.
    destruct acc as [r a w c], m as [r' a' w' c']; cbn [read append write control].
    destruct r, a, w, c, r', a', w', c', x1, x2, x3, x4; reflexivity.
Qed.

Lemma internal_combineAccessModes_fields (modes : list Access) :
  internal_combineAccessModes modes =
  mkAccess (existsb read modes)
           (existsb append modes || existsb write modes)
           (existsb write modes)
           (existsb control modes).
Proof.
  unfold internal_combineAccessModes. rewrite fold_combineStep.
  destruct modes as [|m ms]; [reflexivity|].
  unfold noAccess. cbn [read append write control].
  rewrite !orb_false_l, orb_false_r. reflexivity.
Qed.

Lemma existsb_Permutation (A : Type) (f : A -> bool) (l l' : list A) :
  Permutation l l' -> existsb f l = existsb f l'.
Proof.
  intros P. apply bool_ext. rewrite !existsb_exists.
  split; intros [x [Hx Hf]]; exists x; split; auto.
  - eapply Permutation_in; eauto.
  - eapply Permutation_in; [apply Permutation_sym|]; eauto.
Qed.

(** C5. [internal_getAccess] reads the four modes off the rule's
    [acl:mode] statements: with Write stored the result is
    [{read: has(Read), append: true, write: true, control: has(Control)}],
    without it [{read: has(Read), append: has(Append), write: false,
    control: has(Control)}]; so a result with [write] always has [append],
    whether or not an Append mode is stored. *)
Theorem internal_getAccess_spec (r : AclRule) :
  let has := includes (getIriAll r acl.mode) in
  (forall m, has m = true <-> HasMode r m)
  /\ internal_getAccess r =
     (if has internal_accessModeIriStrings.write
      then mkAccess (has internal_accessModeIriStrings.read) true true
                    (has internal_accessModeIriStrings.control)
      else mkAccess (has internal_accessModeIriStrings.read)
                    (has internal_accessModeIriStrings.append) false
                    (has internal_accessModeIriStrings.control))
  /\ (write (internal_getAccess r) = true <->
      HasMode r internal_accessModeIriStrings.write)
  /\ implb (write (internal_getAccess r)) (append (internal_getAccess r)) = true.
Proof.
  intros has. repeat split.
  - unfold has. apply includes_getIriAll.
  - unfold has, HasMode. apply includes_getIriAll.
  - unfold internal_getAccess. fold has.
    destruct (has internal_accessModeIriStrings.write) eqn:E; simpl; intros H.
    + apply (proj1 (includes_getIriAll r acl.mode _)). exact E.
    + discriminate.
  - intros H. apply (proj2 (includes_getIriAll r acl.mode _)) in H.
    unfold internal_getAccess. fold has. change (has internal_accessModeIriStrings.write = true) in H.
    rewrite H. reflexivity.
  - unfold internal_getAccess. fold has.
    destruct (has internal_accessModeIriStrings.write); reflexivity.
Qed.

(** C6. [internal_combineAccessModes] is the field-wise OR of the list
    followed by the write-implies-append normalisation; the empty list
    gives the all-false record; the result does not depend on the order
    of the list, nor on how it is split into sub-lists that are combined
    first. *)
Theorem internal_combineAccessModes_spec :
  (forall L, internal_combineAccessModes L = normalise (fieldwiseOr L))
  /\ internal_combineAccessModes [] = noAccess
  /\ (forall L L', Permutation L L' ->
        internal_combineAccessModes L = internal_combineAccessModes L')
  /\ (forall L1 L2,
        internal_combineAccessModes (L1 ++ L2) =
        internal_combineAccessModes
          [internal_combineAccessModes L1; internal_combineAccessModes L2])
  /\ (forall a b c,
        internal_combineAccessModes [internal_combineAccessModes [a; b]; c] =
        internal_combineAccessModes [a; internal_combineAccessModes [b; c]]).
Proof.
  split; [|split; [|split; [|split]]].
  - intros L. rewrite internal_combineAccessModes_fields. reflexivity.
  - reflexivity.
  - intros L L' P. rewrite !internal_combineAccessModes_fields.
    rewrite (existsb_Permutation read P), (existsb_Permutation append P),
      (existsb_Permutation write P), (existsb_Permutation control P).
    reflexivity.
  - intros L1 L2.
    rewrite (internal_combineAccessModes_fields (L1 ++ L2)).
    rewrite (internal_combineAccessModes_fields [_; _]).
    rewrite !internal_combineAccessModes_fields.
    cbn [existsb read append write control]. rewrite !existsb_app.
    destruct (existsb read L1), (existsb read L2), (existsb append L1),
      (existsb append L2), (existsb write L1), (existsb write L2),
      (existsb control L1), (existsb control L2); reflexivity.
  - intros [r a w c] [r' a' w' c'] [r'' a'' w'' c''].
    destruct r, a, w, c, r', a', w', c', r'', a'', w'', c''; reflexivity.
Qed.

(** ** The statement store *)

Lemma subjectsOf_fold_In (ds : list Quad) (acc : list Subject) (s : Subject) :
  In s (fold_left
          (fun acc q =>
             if existsb (subject_eqb (subject q)) acc then acc
             else (acc ++ [subject q])%list) ds acc)
  <-> In s acc \/ exists q, In q ds /\ subject q = s.
Proof.
  revert acc. induction ds as [|q ds IH]; intros acc; simpl.
  - split; [auto | intros [H|[q [[] _]]]; exact H].
  - rewrite IH. destruct (existsb (subject_eqb (subject q)) acc) eqn:E.
    + apply existsb_exists in E. destruct E as [s' [Hs' E]].
      apply subject_eqb_eq in E. subst s'.
      split.
      * intros [H|[q' [Hq' Hs]]]; [now left | right; eauto].
      * intros [H|[q' [[->|Hq'] Hs]]]; [now left | subst; now left | right; eauto].
    + rewrite in_app_iff. simpl. split.
      * intros [[H|[H|[]]]|[q' [Hq' Hs]]]; [now left | right; eauto | right; eauto].
      * intros [H|[q' [[->|Hq'] Hs]]]; [left; now left | left; right; now left | right; eauto].
Qed.

Lemma subjectsOf_In (ds : list Quad) (s : Subject) :
  In s (subjectsOf ds) <-> exists q, In q ds /\ subject q = s.
Proof.
  unfold subjectsOf. rewrite subjectsOf_fold_In. simpl. tauto.
Qed.

Lemma getThing_subject (ds : list Quad) (s : Subject) :
  thing_subject (getThing ds s) = s.
Proof. reflexivity. Qed.

Lemma getThing_In (ds : list Quad) (s : Subject) (st : Statement) :
  In st (thing_statements (getThing ds s)) <-> In (toQuad s st) ds.
Proof.
  unfold getThing. simpl. rewrite in_map_iff. split.
  - intros [q [E Hq]]. apply filter_In in Hq. destruct Hq as [Hq Hs].
    apply subject_eqb_eq in Hs. subst. destruct q; exact Hq.
  - intros H. exists (toQuad s st). split; [destruct st; reflexivity|].
    apply filter_In. split; [exact H | apply subject_eqb_refl].
Qed.

Lemma getThingAll_In (d : AclDataset) (t : Thing) :
  In t (getThingAll d) <->
  exists s, In s (subjectsOf (quads d)) /\ t = getThing (quads d) s.
Proof.
  unfold getThingAll. rewrite in_map_iff. split; intros [s [A B]]; exists s; auto.
Qed.

Lemma fold_removeThing_quads (things : list Thing) (d : AclDataset) :
  quads (fold_left removeThing things d) =
  filter (fun q => negb (existsb (fun t => subject_eqb (subject q) (thing_subject t)) things))
    (quads d).
Proof.
  revert d. induction things as [|t ts IH]; intros d; simpl.
  - induction (quads d) as [|q qs IHq]; simpl; [reflexivity | now rewrite <- IHq].
  - rewrite IH. simpl. clear IH.
    induction (quads d) as [|q qs IHq]; simpl; [reflexivity|].
    destruct (subject_eqb (subject q) (thing_subject t)); simpl; rewrite IHq; reflexivity.
Qed.

Lemma fold_removeThing_meta (things : list Thing) (d : AclDataset) :
  internal_accessTo (fold_left removeThing things d) = internal_accessTo d
  /\ acl_resourceInfo (fold_left removeThing things d) = acl_resourceInfo d.
Proof.
  revert d. induction things as [|t ts IH]; intros d; simpl; [auto|].
  destruct (IH (removeThing d t)) as [A B]. rewrite A, B. auto.
Qed.

(** The rules that [internal_removeEmptyAclRules] selects are the
    Things of the dataset that are empty Authorizations. *)
Lemma removed_subject_iff (d : AclDataset) (q : Quad) :
  In q (quads d) ->
  existsb (fun t => subject_eqb (subject q) (thing_subject t))
    (filter isEmptyAclRule (internal_getAclRules d))
  = ineffective (getThing (quads d) (subject q)).
Proof.
  intros Hq. apply bool_ext. rewrite existsb_exists. unfold ineffective.
  rewrite andb_true_iff. split.
  - intros [t [Ht E]]. apply subject_eqb_eq in E.
    apply filter_In in Ht. destruct Ht as [Ht He].
    unfold internal_getAclRules in Ht. apply filter_In in Ht.
    destruct Ht as [Ht Ha]. apply getThingAll_In in Ht.
    destruct Ht as [s [_ ->]]. simpl in E. subst s. auto.
  - intros [Ha He]. exists (getThing (quads d) (subject q)).
    split; [|apply subject_eqb_refl].
    apply filter_In. split; [|exact He].
    unfold internal_getAclRules. apply filter_In. split; [|exact Ha].
    apply getThingAll_In. exists (subject q). split; [|reflexivity].
    apply subjectsOf_In. eauto.
Qed.

Lemma internal_removeEmptyAclRules_quads (d : AclDataset) :
  quads (internal_removeEmptyAclRules d) =
  filter (fun q => negb (ineffective (getThing (quads d) (subject q)))) (quads d).
Proof.
  unfold internal_removeEmptyAclRules. rewrite fold_removeThing_quads.
  apply filter_ext_in. intros q Hq. now rewrite removed_subject_iff.
Qed.

(** ** Empty rules *)

Lemma isAclQuad_iff (st : Statement) : isAclQuad st = true <-> AclStatement st.
Proof.
  destruct st as [p o]. unfold isAclQuad. cbn [fst snd]. split.
  - destruct (String.eqb p rdf.type && term_eqb o (NamedNode acl.Authorization)) eqn:E1.
    { intros _. apply andb_true_iff in E1. destruct E1 as [A B].
      apply String.eqb_eq in A. apply term_eqb_eq in B. subst. constructor. }
    destruct (String.eqb p acl.accessTo || String.eqb p acl.default
              || String.eqb p acl.defaultForNew) eqn:E2.
    { intros _. rewrite !orb_true_iff, !String.eqb_eq in E2.
      apply AclTarget. tauto. }
    destruct (String.eqb p acl.mode
              && existsb (fun mode => term_eqb o (NamedNode mode))
                   internal_accessModeIriStrings.values) eqn:E3.
    { intros _. apply andb_true_iff in E3. destruct E3 as [A B].
      apply String.eqb_eq in A. apply existsb_exists in B.
      destruct B as [m [Hm B]]. apply term_eqb_eq in B. subst.
      now apply AclMode. }
    destruct (String.eqb p acl.agent || String.eqb p acl.agentGroup
              || String.eqb p acl.agentClass) eqn:E4.
    { intros _. rewrite !orb_true_iff, !String.eqb_eq in E4.
      apply AclGrantee. tauto. }
    destruct (String.eqb p acl.origin) eqn:E5; [|discriminate].
    intros _. apply String.eqb_eq in E5. subst. apply AclOrigin.
  - intros H. inversion H as [ | p' o' Hp | m Hm | p' o' Hp | o']; subst.
    + reflexivity.
    + destruct Hp as [->|[->| ->]]; reflexivity.
    + simpl in Hm. destruct Hm as [<-|[<-|[<-|[<-|[]]]]]; reflexivity.
    + destruct Hp as [->|[->| ->]]; reflexivity.
    + reflexivity.
Qed.

Lemma getIri_None (t : Thing) (p : string) :
  getIri t p = None <-> ~ HasIri t p.
Proof.
  unfold getIri, HasIri. split.
  - intros H [i Hi]. apply getIriAll_In in Hi.
    destruct (getIriAll t p); [contradiction | discriminate].
  - intros H. destruct (getIriAll t p) as [|i l] eqn:E; [reflexivity|].
    exfalso. apply H. exists i. apply getIriAll_In. rewrite E. now left.
Qed.

Lemma isNull_getIri (t : Thing) (p : string) :
  isNull (getIri t p) = true <-> ~ HasIri t p.
Proof.
  rewrite <- getIri_None. unfold isNull, isSome.
  destruct (getIri t p); simpl; split; congruence.
Qed.

Lemma isSome_getIri (t : Thing) (p : string) :
  isSome (getIri t p) = true <-> HasIri t p.
Proof.
  unfold getIri, HasIri. split.
  - destruct (getIriAll t p) as [|i l] eqn:E; simpl; [discriminate|].
    intros _. exists i. apply getIriAll_In. rewrite E. now left.
  - intros [i Hi]. apply getIriAll_In in Hi.
    destruct (getIriAll t p); [contradiction | reflexivity].
Qed.

Lemma isAclRule_iff (t : Thing) :
  isAclRule t = true <->
  In (rdf.type, NamedNode acl.Authorization) (thing_statements t).
Proof. unfold isAclRule. apply includes_getIriAll. Qed.

Lemma isEmptyAclRule_iff (rule : AclRule) :
  isEmptyAclRule rule = true <->
  (forall st, In st (thing_statements rule) -> AclStatement st)
  /\ (NoTarget rule \/ NoMode rule \/ NoGrantee rule).
Proof.
  unfold isEmptyAclRule, NoTarget, NoMode, NoGrantee.
  rewrite <- !isNull_getIri.
  destruct (existsb (fun quad => negb (isAclQuad quad)) (thing_statements rule)) eqn:E.
  - split; [discriminate|]. intros [H _]. exfalso.
    apply existsb_exists in E. destruct E as [st [Hst Hn]].
    apply H, isAclQuad_iff in Hst. rewrite Hst in Hn. discriminate.
  - assert (Hall : forall st, In st (thing_statements rule) -> AclStatement st).
    { intros st Hst. apply isAclQuad_iff.
      destruct (isAclQuad st) eqn:Q; [reflexivity|]. exfalso.
      assert (X : existsb (fun quad => negb (isAclQuad quad)) (thing_statements rule) = true).
      { apply existsb_exists. exists st. rewrite Q. auto. }
      congruence. }
    destruct (isNull (getIri rule acl.accessTo)), (isNull (getIri rule acl.default)),
      (isNull (getIri rule acl.defaultForNew)), (isNull (getIri rule acl.mode)),
      (isNull (getIri rule acl.agent)), (isNull (getIri rule acl.agentGroup)),
      (isNull (getIri rule acl.agentClass)); simpl;
      intuition congruence.
Qed.

Lemma ineffective_iff (rule : AclRule) :
  ineffective rule = true <-> Ineffective rule.
Proof.
  unfold ineffective, Ineffective.
  rewrite andb_true_iff, isAclRule_iff, isEmptyAclRule_iff. tauto.
Qed.

Lemma getThing_filter_subject (g : Subject -> bool) (ds : list Quad) (s : Subject) :
  getThing (filter (fun q => g (subject q)) ds) s =
  if g s then getThing ds s else mkThing s [].
Proof.
  unfold getThing. destruct (g s) eqn:G; f_equal.
  - induction ds as [|q ds IH]; simpl; [reflexivity|].
    destruct (subject_eqb (subject q) s) eqn:E.
    + apply subject_eqb_eq in E. rewrite E, G. simpl.
      rewrite <- E at 1. rewrite subject_eqb_refl. simpl. now rewrite IH.
    + destruct (g (subject q)); simpl; [rewrite E|]; exact IH.
  - induction ds as [|q ds IH]; simpl; [reflexivity|].
    destruct (g (subject q)) eqn:G'; simpl; [|exact IH].
    destruct (subject_eqb (subject q) s) eqn:E; [|exact IH].
    apply subject_eqb_eq in E. congruence.
Qed.

(** C8. [internal_removeEmptyAclRules] takes out of the dataset exactly
    the quads of the Authorizations that are ineffective, and leaves every
    other quad and the metadata as they are.  An Authorization is
    ineffective when all its statements are ACL statements and it names no
    target IRI (accessTo, default, defaultForNew), or no mode, or no
    grantee IRI (agent, agentGroup, agentClass); a rule with a statement
    that is not an ACL statement is never taken out, a rule that names
    only an origin and no grantee is. *)
Theorem internal_removeEmptyAclRules_spec (d : AclDataset) :
  quads (internal_removeEmptyAclRules d) =
    filter (fun q => negb (ineffective (getThing (quads d) (subject q)))) (quads d)
  /\ internal_accessTo (internal_removeEmptyAclRules d) = internal_accessTo d
  /\ acl_resourceInfo (internal_removeEmptyAclRules d) = acl_resourceInfo d
  /\ (forall rule, ineffective rule = true <-> Ineffective rule)
  /\ (forall s,
        getThing (quads (internal_removeEmptyAclRules d)) s =
        if ineffective (getThing (quads d) s) then mkThing s []
        else getThing (quads d) s)
  /\ (forall rule st,
        In st (thing_statements rule) -> ~ AclStatement st ->
        ineffective rule = false)
  /\ (forall rule origin,
        isAclRule rule = true ->
        (forall st, In st (thing_statements rule) -> AclStatement st) ->
        In (acl.origin, NamedNode origin) (thing_statements rule) ->
        NoGrantee rule ->
        ineffective rule = true).
Proof.
  split; [apply internal_removeEmptyAclRules_quads|].
  split; [apply fold_removeThing_meta|].
  split; [apply fold_removeThing_meta|].
  split; [apply ineffective_iff|].
  split; [|split].
  - intros s. rewrite internal_removeEmptyAclRules_quads.
    rewrite (getThing_filter_subject
               (fun s' => negb (ineffective (getThing (quads d) s')))).
    destruct (ineffective (getThing (quads d) s)); reflexivity.
  - intros rule st Hst Hn. destruct (ineffective rule) eqn:E; [|reflexivity].
    apply ineffective_iff in E. destruct E as [_ [Hall _]]. exfalso. auto.
  - intros rule origin Ha Hall _ Hg. apply ineffective_iff.
    split; [now apply isAclRule_iff|]. split; [exact Hall|]. auto.
Qed.

(** ** ACLs attached to a resource *)

Lemma option_string_eqb_eq (a b : option string) :
  option_string_eqb a b = true <-> a = b.
Proof.
  destruct a, b; simpl; try (split; congruence).
  rewrite String.eqb_eq. split; congruence.
Qed.

Lemma hasResourceAcl_iff (r : Resource) :
  hasResourceAcl r = true <->
  exists acl,
    resourceAcl r = Some acl
    /\ getSourceUrl (internal_resourceInfo r) = internal_accessTo acl
    /\ aclUrl (internal_resourceInfo r) = Some (getSourceUrl (acl_resourceInfo acl)).
Proof.
  unfold hasResourceAcl. destruct (resourceAcl r) as [acl|].
  - rewrite andb_true_iff, String.eqb_eq, option_string_eqb_eq. split.
    + intros [A B]. exists acl. auto.
    + intros [acl' [E [A B]]]. inversion E. subst. auto.
  - split; [discriminate | intros [acl [E _]]; discriminate].
Qed.

(** C10. [hasResourceAcl] holds exactly when a resource ACL is attached,
    its [internal_accessTo] is the resource's own source URL and its own
    source URL is the ACL URL the server advertised for the resource;
    [getResourceAcl] returns the attached ACL under that test and [null]
    otherwise, also when an ACL dataset is attached. *)
Theorem hasResourceAcl_spec (r : Resource) :
  (hasResourceAcl r = true <->
   exists acl,
     resourceAcl r = Some acl
     /\ getSourceUrl (internal_resourceInfo r) = internal_accessTo acl
     /\ aclUrl (internal_resourceInfo r) = Some (getSourceUrl (acl_resourceInfo acl)))
  /\ getResourceAcl r = (if hasResourceAcl r then resourceAcl r else None)
  /\ (forall acl,
        resourceAcl r = Some acl ->
        getSourceUrl (internal_resourceInfo r) <> internal_accessTo acl
        \/ aclUrl (internal_resourceInfo r) <> Some (getSourceUrl (acl_resourceInfo acl)) ->
        hasResourceAcl r = false /\ getResourceAcl r = None).
Proof.
  split; [apply hasResourceAcl_iff|]. split.
  - unfold getResourceAcl. destruct (hasResourceAcl r); reflexivity.
  - intros acl E H.
    assert (F : hasResourceAcl r = false).
    { destruct (hasResourceAcl r) eqn:Hh; [|reflexivity]. exfalso.
      apply hasResourceAcl_iff in Hh. destruct Hh as [acl' [E' [A B]]].
      rewrite E in E'. inversion E'. subst acl'. tauto. }
    split; [exact F|]. unfold getResourceAcl. now rewrite F.
Qed.

(** ** Statements of edited Things *)

Lemma addIri_In (t : Thing) (p i : string) (st : Statement) :
  In st (thing_statements (addIri t p i))
  <-> In st (thing_statements t) \/ st = (p, NamedNode i).
Proof.
  unfold addIri.
  destruct (existsb (statement_eqb (p, NamedNode i)) (thing_statements t)) eqn:E.
  - apply existsb_exists in E. destruct E as [st' [Hin E]].
    apply statement_eqb_eq in E. subst st'.
    split; [auto | intros [H| ->]; assumption].
  - simpl. rewrite in_app_iff. simpl. intuition congruence.
Qed.

Lemma addIri_subject (t : Thing) (p i : string) :
  thing_subject (addIri t p i) = thing_subject t.
Proof.
  unfold addIri.
  destruct (existsb (statement_eqb (p, NamedNode i)) (thing_statements t)); reflexivity.
Qed.

Lemma removeAll_In (t : Thing) (p : string) (st : Statement) :
  In st (thing_statements (removeAll t p))
  <-> In st (thing_statements t) /\ fst st <> p.
Proof.
  unfold removeAll. simpl. rewrite filter_In, negb_true_iff.
  rewrite <- String.eqb_neq. tauto.
Qed.

Lemma removeIri_In (t : Thing) (p i : string) (st : Statement) :
  In st (thing_statements (removeIri t p i))
  <-> In st (thing_statements t) /\ st <> (p, NamedNode i).
Proof.
  unfold removeIri. simpl. rewrite filter_In, negb_true_iff. split.
  - intros [A B]. split; [exact A|]. intros ->.
    rewrite (proj2 (statement_eqb_eq _ _) eq_refl) in B. discriminate.
  - intros [A B]. split; [exact A|].
    destruct (statement_eqb (p, NamedNode i) st) eqn:E; [|reflexivity].
    apply statement_eqb_eq in E. congruence.
Qed.

Lemma setIri_In (t : Thing) (p i : string) (st : Statement) :
  In st (thing_statements (setIri t p i))
  <-> (In st (thing_statements t) /\ fst st <> p) \/ st = (p, NamedNode i).
Proof. unfold setIri. rewrite addIri_In, removeAll_In. tauto. Qed.

Lemma setIri_subject (t : Thing) (p i : string) :
  thing_subject (setIri t p i) = thing_subject t.
Proof. unfold setIri. rewrite addIri_subject. reflexivity. Qed.

Lemma fold_addIri_In (p : string) (iris : list string) (out : Thing) (st : Statement) :
  In st (thing_statements
           (fold_left (fun o i => addIri o p i) iris out))
  <-> In st (thing_statements out) \/ exists i, In i iris /\ st = (p, NamedNode i).
Proof.
  revert out. induction iris as [|i l IH]; intros out; simpl.
  - split; [auto | intros [H|[i [[] _]]]; exact H].
  - rewrite IH, addIri_In. split.
    + intros [[H|H]|[j [Hj E]]]; eauto.
    + intros [H|[j [[->|Hj] E]]]; eauto.
Qed.

Lemma fold_addIri_subject (p : string) (iris : list string) (out : Thing) :
  thing_subject (fold_left (fun o i => addIri o p i) iris out) = thing_subject out.
Proof.
  revert out. induction iris as [|i l IH]; intros out; simpl; [reflexivity|].
  rewrite IH. apply addIri_subject.
Qed.

Lemma copyIris_In (input out : Thing) (p : string) (st : Statement) :
  In st (thing_statements (copyIris input out p))
  <-> In st (thing_statements out)
      \/ exists i, In (p, NamedNode i) (thing_statements input) /\ st = (p, NamedNode i).
Proof.
  unfold copyIris. rewrite fold_addIri_In. split.
  - intros [H|[i [Hi E]]]; [auto|]. right. exists i. split; [|exact E].
    now apply getIriAll_In.
  - intros [H|[i [Hi E]]]; [auto|]. right. exists i. split; [|exact E].
    now apply getIriAll_In.
Qed.

Lemma copyIris_subject (input out : Thing) (p : string) :
  thing_subject (copyIris input out p) = thing_subject out.
Proof. apply fold_addIri_subject. Qed.

(** ** What a Thing grants depends on the IRIs it names *)

Lemma includes_sameIris (t1 t2 : Thing) (p x : string) :
  sameIris t1 t2 p ->
  includes (getIriAll t1 p) x = includes (getIriAll t2 p) x.
Proof.
  intros H. apply bool_ext. rewrite !includes_getIriAll. apply H.
Qed.

Lemma internal_getAccess_ext (t1 t2 : Thing) :
  sameIris t1 t2 acl.mode -> internal_getAccess t1 = internal_getAccess t2.
Proof.
  intros H. unfold internal_getAccess.
  rewrite !(includes_sameIris _ H). reflexivity.
Qed.

Lemma scopeTest_ext (ty : RuleType) (t1 t2 : Thing) (target : string) :
  sameIris t1 t2 acl.accessTo -> sameIris t1 t2 acl.default ->
  sameIris t1 t2 acl.defaultForNew ->
  scopeTest ty t1 target = scopeTest ty t2 target.
Proof.
  intros A B C. destruct ty; simpl.
  - unfold appliesToResource. now rewrite (includes_sameIris _ A).
  - unfold isDefaultForResource.
    now rewrite (includes_sameIris _ B), (includes_sameIris _ C).
Qed.

Lemma grant_ext (ty : RuleType) (target gt g : string) (t1 t2 : Thing) :
  sameIris t1 t2 rdf.type -> sameIris t1 t2 acl.mode ->
  sameIris t1 t2 acl.accessTo -> sameIris t1 t2 acl.default ->
  sameIris t1 t2 acl.defaultForNew -> sameIris t1 t2 gt ->
  grant ty target gt g t1 = grant ty target gt g t2.
Proof.
  intros T M A D N G. unfold grant, isAclRule, namesGrantee.
  rewrite (includes_sameIris _ T), (includes_sameIris _ G),
    (scopeTest_ext ty target A D N), (internal_getAccess_ext M).
  reflexivity.
Qed.

Lemma grant_sameStatements (ty : RuleType) (target gt g : string) (t1 t2 : Thing) :
  (forall st, In st (thing_statements t1) <-> In st (thing_statements t2)) ->
  grant ty target gt g t1 = grant ty target gt g t2.
Proof. intros H. apply grant_ext; intros i; apply H. Qed.

Lemma grant_no_statements (ty : RuleType) (target gt g : string) (s : Subject) :
  grant ty target gt g (mkThing s []) = noAccess.
Proof. reflexivity. Qed.

(** ** Things of an edited dataset *)

Lemma quad_eqb_eq (a b : Quad) : quad_eqb a b = true <-> a = b.
Proof.
  destruct a as [s p o], b as [s' p' o']. unfold quad_eqb. simpl.
  rewrite !andb_true_iff, subject_eqb_eq, String.eqb_eq, term_eqb_eq. split.
  - intros [[-> ->] ->]. reflexivity.
  - intros H. inversion H. auto.
Qed.

Lemma datasetAdd_In (ds : list Quad) (q q' : Quad) :
  In q' (datasetAdd ds q) <-> In q' ds \/ q' = q.
Proof.
  unfold datasetAdd. destruct (existsb (quad_eqb q) ds) eqn:E.
  - apply existsb_exists in E. destruct E as [x [Hx E]].
    apply quad_eqb_eq in E. subst x.
    split; [auto | intros [H| ->]; assumption].
  - rewrite in_app_iff. simpl. intuition congruence.
Qed.

Lemma fold_datasetAdd_In (l ds : list Quad) (q : Quad) :
  In q (fold_left datasetAdd l ds) <-> In q ds \/ In q l.
Proof.
  revert ds. induction l as [|x l IH]; intros ds; simpl; [tauto|].
  rewrite IH, datasetAdd_In. intuition congruence.
Qed.

Lemma setThing_In (d : AclDataset) (t : Thing) (q : Quad) :
  In q (quads (setThing d t))
  <-> (In q (quads d) /\ subject q <> thing_subject t)
      \/ exists st, In st (thing_statements t) /\ q = toQuad (thing_subject t) st.
Proof.
  unfold setThing, removeThing. simpl.
  rewrite fold_datasetAdd_In, filter_In, negb_true_iff, subject_eqb_neq, in_map_iff.
  split.
  - intros [H|[st [E H]]]; [auto | right; eauto].
  - intros [H|[st [H E]]]; [auto | right; eauto].
Qed.

Lemma setThing_accessTo (d : AclDataset) (t : Thing) :
  internal_accessTo (setThing d t) = internal_accessTo d.
Proof. reflexivity. Qed.

Lemma getThing_setThing_In (d : AclDataset) (t : Thing) (s : Subject) (st : Statement) :
  In st (thing_statements (getThing (quads (setThing d t)) s))
  <-> In st (thing_statements
               (if subject_eqb s (thing_subject t) then t
                else getThing (quads d) s)).
Proof.
  rewrite getThing_In, setThing_In.
  destruct (subject_eqb s (thing_subject t)) eqn:E.
  - apply subject_eqb_eq in E. subst s. split.
    + intros [[_ H]|[st' [H E]]]; [now elim H|].
      destruct st, st'. inversion E. subst. exact H.
    + intros H. right. eauto.
  - apply subject_eqb_neq in E. rewrite getThing_In. split.
    + intros [[H _]|[st' [H E']]]; [exact H|].
      exfalso. apply E. destruct st, st'. inversion E'. reflexivity.
    + intros H. left. split; [exact H | exact E].
Qed.

Lemma grant_setThing (ty : RuleType) (target gt g : string)
    (d : AclDataset) (t : Thing) (s : Subject) :
  grant ty target gt g (getThing (quads (setThing d t)) s) =
  if subject_eqb s (thing_subject t) then grant ty target gt g t
  else grant ty target gt g (getThing (quads d) s).
Proof.
  rewrite (grant_sameStatements ty target gt g
             (getThing (quads (setThing d t)) s)
             (if subject_eqb s (thing_subject t) then t else getThing (quads d) s)).
  - destruct (subject_eqb s (thing_subject t)); reflexivity.
  - intros st. apply getThing_setThing_In.
Qed.

Lemma getThing_absent (ds : list Quad) (s : Subject) :
  ~ In s (subjectsOf ds) -> thing_statements (getThing ds s) = [].
Proof.
  intros H. destruct (thing_statements (getThing ds s)) as [|st l] eqn:E; [reflexivity|].
  exfalso. apply H. apply subjectsOf_In. exists (toQuad s st). split; [|reflexivity].
  apply getThing_In. rewrite E. now left.
Qed.

Lemma grant_absent (ty : RuleType) (target gt g : string) (ds : list Quad) (s : Subject) :
  ~ In s (subjectsOf ds) -> grant ty target gt g (getThing ds s) = noAccess.
Proof.
  intros H. rewrite (grant_sameStatements ty target gt g (getThing ds s) (mkThing s [])).
  - reflexivity.
  - intros st. rewrite (getThing_absent _ _ H). reflexivity.
Qed.

(** ** Effective access, subject by subject *)

Lemma grant_selected (ty : RuleType) (target gt g : string) (t : Thing) :
  isAclRule t = true -> scopeTest ty t target = true ->
  namesGrantee t gt g = true ->
  grant ty target gt g t = internal_getAccess t.
Proof. intros A B C. unfold grant. now rewrite A, B, C. Qed.

Lemma grant_some (f : Access -> bool) (ty : RuleType) (target gt g : string) (t : Thing) :
  f noAccess = false -> f (grant ty target gt g t) = true ->
  isAclRule t = true /\ scopeTest ty t target = true
  /\ namesGrantee t gt g = true.
Proof.
  intros F. unfold grant.
  destruct (isAclRule t), (scopeTest ty t target), (namesGrantee t gt g);
    simpl; intros H; auto; congruence.
Qed.

Lemma selected_field (f : Access -> bool) (ty : RuleType) (gt g : string)
    (d : AclDataset) :
  f noAccess = false ->
  existsb f
    (map internal_getAccess
       (filter (fun rule => namesGrantee rule gt g)
          (filter (fun rule => scopeTest ty rule (internal_accessTo d))
             (internal_getAclRules d)))) = true
  <-> exists s, f (grant ty (internal_accessTo d) gt g (getThing (quads d) s)) = true.
Proof.
  intros F. rewrite existsb_exists. split.
  - intros [a [Ha Hf]]. apply in_map_iff in Ha. destruct Ha as [t [<- Ht]].
    apply filter_In in Ht. destruct Ht as [Ht G].
    apply filter_In in Ht. destruct Ht as [Ht Sc].
    unfold internal_getAclRules in Ht. apply filter_In in Ht. destruct Ht as [Ht A].
    apply getThingAll_In in Ht. destruct Ht as [s [_ ->]].
    exists s. now rewrite grant_selected.
  - intros [s Hs]. destruct (grant_some f _ _ _ _ _ F Hs) as [A [Sc G]].
    exists (internal_getAccess (getThing (quads d) s)). split.
    + apply in_map. apply filter_In. split; [|exact G].
      apply filter_In. split; [|exact Sc].
      unfold internal_getAclRules. apply filter_In. split; [|exact A].
      apply getThingAll_In. exists s. split; [|reflexivity].
      apply isAclRule_iff in A. apply getThing_In in A.
      apply subjectsOf_In. eauto.
    + now rewrite grant_selected in Hs.
Qed.

Lemma effectiveAccess_ext (ty : RuleType) (gt g : string) (d1 d2 : AclDataset) :
  internal_accessTo d1 = internal_accessTo d2 ->
  (forall s, grant ty (internal_accessTo d1) gt g (getThing (quads d1) s)
             = grant ty (internal_accessTo d1) gt g (getThing (quads d2) s)) ->
  effectiveAccess ty gt g d1 = effectiveAccess ty gt g d2.
Proof.
  intros E H. unfold effectiveAccess.
  rewrite !internal_combineAccessModes_fields.
  assert (X : forall f, f noAccess = false ->
    existsb f (map internal_getAccess
       (filter (fun rule => namesGrantee rule gt g)
          (filter (fun rule => scopeTest ty rule (internal_accessTo d1))
             (internal_getAclRules d1))))
    = existsb f (map internal_getAccess
       (filter (fun rule => namesGrantee rule gt g)
          (filter (fun rule => scopeTest ty rule (internal_accessTo d2))
             (internal_getAclRules d2))))).
  { intros f F. apply bool_ext. rewrite !selected_field by exact F.
    rewrite <- E. split; intros [s Hs]; exists s; [rewrite <- H | rewrite H]; exact Hs. }
  rewrite (X read eq_refl), (X append eq_refl), (X write eq_refl), (X control eq_refl).
  reflexivity.
Qed.

Lemma effectiveAccess_single (ty : RuleType) (gt g : string) (d : AclDataset)
    (s0 : Subject) (a : Access) :
  (forall s, grant ty (internal_accessTo d) gt g (getThing (quads d) s)
             = if subject_eqb s s0 then a else noAccess) ->
  effectiveAccess ty gt g d = normalise a.
Proof.
  intros H. unfold effectiveAccess. rewrite internal_combineAccessModes_fields.
  assert (X : forall f, f noAccess = false ->
    existsb f (map internal_getAccess
       (filter (fun rule => namesGrantee rule gt g)
          (filter (fun rule => scopeTest ty rule (internal_accessTo d))
             (internal_getAclRules d)))) = f a).
  { intros f F. apply bool_ext. rewrite selected_field by exact F. split.
    - intros [s Hs]. rewrite H in Hs. destruct (subject_eqb s s0); congruence.
    - intros Hf. exists s0. now rewrite H, subject_eqb_refl. }
  rewrite (X read eq_refl), (X append eq_refl), (X write eq_refl), (X control eq_refl).
  reflexivity.
Qed.

(** ** The access a resource has, from its ACLs *)

Lemma internal_getAccess_fields (rule : AclRule) :
  read (internal_getAccess rule)
  = includes (getIriAll rule acl.mode) internal_accessModeIriStrings.read
  /\ append (internal_getAccess rule)
     = (includes (getIriAll rule acl.mode) internal_accessModeIriStrings.append
        || includes (getIriAll rule acl.mode) internal_accessModeIriStrings.write)
  /\ write (internal_getAccess rule)
     = includes (getIriAll rule acl.mode) internal_accessModeIriStrings.write
  /\ control (internal_getAccess rule)
     = includes (getIriAll rule acl.mode) internal_accessModeIriStrings.control.
Proof.
  unfold internal_getAccess. cbv zeta.
  destruct (includes (getIriAll rule acl.mode) internal_accessModeIriStrings.write);
    simpl; rewrite ?orb_true_r, ?orb_false_r; auto.
Qed.

(** A Thing of the dataset is selected for a grantee in a scope exactly
    when the dataset says so, statement by statement. *)
Lemma selected_iff (ty : RuleType) (target gt g : string) (ds : list Quad)
    (s : Subject) :
  isAclRule (getThing ds s) && scopeTest ty (getThing ds s) target
  && namesGrantee (getThing ds s) gt g = true
  <-> In (mkQuad s rdf.type (NamedNode acl.Authorization)) ds
      /\ (exists p, In p (scopeProperties ty)
                    /\ In (mkQuad s p (NamedNode target)) ds)
      /\ In (mkQuad s gt (NamedNode g)) ds.
Proof.
  rewrite !andb_true_iff, isAclRule_iff. unfold namesGrantee.
  rewrite includes_getIriAll, !getThing_In. cbn [toQuad fst snd].
  assert (Sc : scopeTest ty (getThing ds s) target = true
               <-> exists p, In p (scopeProperties ty)
                             /\ In (mkQuad s p (NamedNode target)) ds).
  { destruct ty; simpl scopeTest; unfold appliesToResource, isDefaultForResource;
      rewrite ?orb_true_iff, !includes_getIriAll, !getThing_In; cbn [toQuad fst snd];
      simpl scopeProperties.
    - split.
      + intros H. exists acl.accessTo. split; [now left | exact H].
      + intros [p [[<-|[]] H]]. exact H.
    - split.
      + intros [H|H]; [exists acl.default | exists acl.defaultForNew];
          (split; [simpl; auto | exact H]).
      + intros [p [[<-|[<-|[]]] H]]; auto. }
  rewrite Sc. tauto.
Qed.

Lemma grant_RuleGrants (f : Access -> bool) (ty : RuleType) (target gt g : string)
    (ds : list Quad) (modes : list string) :
  f noAccess = false ->
  (forall rule,
     f (internal_getAccess rule) = true
     <-> exists m, In m modes /\ In (acl.mode, NamedNode m) (thing_statements rule)) ->
  (exists s, f (grant ty target gt g (getThing ds s)) = true)
  <-> exists m, In m modes /\ RuleGrants ds ty target gt g m.
Proof.
  intros F Hf. split.
  - intros [s Hs]. unfold grant in Hs.
    destruct (isAclRule (getThing ds s) && scopeTest ty (getThing ds s) target
              && namesGrantee (getThing ds s) gt g) eqn:Sel; [|congruence].
    apply selected_iff in Sel. destruct Sel as [A [B C]].
    apply Hf in Hs. destruct Hs as [m [Hm Hin]].
    apply getThing_In in Hin. cbn [toQuad fst snd] in Hin.
    exists m. split; [exact Hm|]. exists s. auto.
  - intros [m [Hm [s [A [B [C D]]]]]]. exists s. unfold grant.
    assert (Sel : isAclRule (getThing ds s) && scopeTest ty (getThing ds s) target
                  && namesGrantee (getThing ds s) gt g = true)
      by (apply selected_iff; auto).
    rewrite Sel. apply Hf. exists m. split; [exact Hm|].
    apply getThing_In. exact D.
Qed.

(** The getters of class.ts and group.ts answer what the statements of
    the dataset say. *)
Lemma effectiveAccess_AccessFrom (ty : RuleType) (gt g : string) (d : AclDataset) :
  AccessFrom (quads d) ty (internal_accessTo d) gt g (effectiveAccess ty gt g d).
Proof.
  pose proof (fun m (rule : AclRule) =>
                includes_getIriAll rule acl.mode m) as Inc.
  assert (One : forall (f : Access -> bool) m,
             f noAccess = false ->
             (forall rule, f (internal_getAccess rule)
                           = includes (getIriAll rule acl.mode) m) ->
             (existsb f
                (map internal_getAccess
                   (filter (fun rule => namesGrantee rule gt g)
                      (filter (fun rule => scopeTest ty rule (internal_accessTo d))
                         (internal_getAclRules d)))) = true
              <-> RuleGrants (quads d) ty (internal_accessTo d) gt g m)).
  { intros f m F Hf. rewrite selected_field by exact F.
    rewrite (grant_RuleGrants f ty (internal_accessTo d) gt g (quads d) [m] F).
    - split.
      + intros [m' [[<-|[]] H]]. exact H.
      + intros H. exists m. split; [now left | exact H].
    - intros rule. rewrite Hf, Inc. split.
      + intros H. exists m. split; [now left | exact H].
      + intros [m' [[<-|[]] H]]. exact H. }
  unfold AccessFrom, effectiveAccess. rewrite internal_combineAccessModes_fields.
  cbn [read append write control].
  split; [|split; [|split]].
  - apply One; [reflexivity|]. intros rule.
    exact (proj1 (internal_getAccess_fields rule)).
  - rewrite orb_true_iff.
    rewrite (One write internal_accessModeIriStrings.write eq_refl
               (fun rule => proj1 (proj2 (proj2 (internal_getAccess_fields rule))))).
    rewrite selected_field by reflexivity.
    rewrite (grant_RuleGrants append ty (internal_accessTo d) gt g (quads d)
               [internal_accessModeIriStrings.append;
                internal_accessModeIriStrings.write] eq_refl).
    + split.
      * intros [[m [[<-|[<-|[]]] H]]|H]; auto.
      * intros [H|H]; [left; exists internal_accessModeIriStrings.append
                      | left; exists internal_accessModeIriStrings.write];
          (split; [simpl; auto | exact H]).
    + intros rule.
      rewrite (proj1 (proj2 (internal_getAccess_fields rule))), orb_true_iff, !Inc.
      split.
      * intros [H|H]; [exists internal_accessModeIriStrings.append
                      | exists internal_accessModeIriStrings.write];
          (split; [simpl; auto | exact H]).
      * intros [m [[<-|[<-|[]]] H]]; auto.
  - apply One; [reflexivity|]. intros rule.
    exact (proj1 (proj2 (proj2 (internal_getAccess_fields rule)))).
  - apply One; [reflexivity|]. intros rule.
    exact (proj2 (proj2 (proj2 (internal_getAccess_fields rule)))).
Qed.

(** C4. A resource has its own ACL when an ACL is attached that is bound
    to the resource and comes from the ACL URL the server advertised.  Then
    [getPublicAccess] and [getGroupAccess] answer what the Authorizations
    of that ACL with [acl:accessTo] the resource say, and nothing else: its
    default rules do not count, and the answer is the same whatever
    fallback ACL is attached.  Without such an ACL they answer what the
    Authorizations of the fallback ACL with [acl:default] or
    [acl:defaultForNew] its container say; with neither they answer
    [null], not the all-false record. *)
Theorem getAccess_fallback_precedence (r : Resource) (group : string) :
  let ownAcl :=
    exists racl,
      resourceAcl r = Some racl
      /\ getSourceUrl (internal_resourceInfo r) = internal_accessTo racl
      /\ aclUrl (internal_resourceInfo r)
         = Some (getSourceUrl (acl_resourceInfo racl)) in
  (forall racl,
      resourceAcl r = Some racl ->
      getSourceUrl (internal_resourceInfo r) = internal_accessTo racl ->
      aclUrl (internal_resourceInfo r) = Some (getSourceUrl (acl_resourceInfo racl)) ->
      exists p g,
        getPublicAccess r = Some p
        /\ AccessFrom (quads racl) RuleResource (internal_accessTo racl)
             acl.agentClass foaf.Agent p
        /\ getGroupAccess r group = Some g
        /\ AccessFrom (quads racl) RuleResource (internal_accessTo racl)
             acl.agentGroup group g
        /\ (forall fb,
              getPublicAccess
                (mkResource (internal_resourceInfo r) (resourceAcl r) fb) = Some p
              /\ getGroupAccess
                   (mkResource (internal_resourceInfo r) (resourceAcl r) fb) group
                 = Some g))
  /\ (forall fb,
        ~ ownAcl -> fallbackAcl r = Some fb ->
        exists p g,
          getPublicAccess r = Some p
          /\ AccessFrom (quads fb) RuleDefault (internal_accessTo fb)
               acl.agentClass foaf.Agent p
          /\ getGroupAccess r group = Some g
          /\ AccessFrom (quads fb) RuleDefault (internal_accessTo fb)
               acl.agentGroup group g)
  /\ (~ ownAcl -> fallbackAcl r = None ->
      getPublicAccess r = None /\ getGroupAccess r group = None
      /\ getPublicAccess r <> Some noAccess
      /\ getGroupAccess r group <> Some noAccess).
Proof.
  intros ownAcl.
  assert (Own : hasResourceAcl r = true <-> ownAcl) by apply hasResourceAcl_iff.
  split; [|split].
  - intros racl E A B.
    assert (H : forall fb,
               hasResourceAcl (mkResource (internal_resourceInfo r) (resourceAcl r) fb)
               = true).
    { intros fb. apply hasResourceAcl_iff. exists racl. auto. }
    assert (Hr : hasResourceAcl r = true) by (apply Own; exists racl; auto).
    exists (effectiveAccess RuleResource acl.agentClass foaf.Agent racl),
           (effectiveAccess RuleResource acl.agentGroup group racl).
    split; [unfold getPublicAccess; rewrite Hr, E; reflexivity|].
    split; [apply effectiveAccess_AccessFrom|].
    split; [unfold getGroupAccess; rewrite Hr, E; reflexivity|].
    split; [apply effectiveAccess_AccessFrom|].
    intros fb. unfold getPublicAccess, getGroupAccess. rewrite (H fb).
    cbn [resourceAcl]. rewrite E. split; reflexivity.
  - intros fb No E.
    assert (Hr : hasResourceAcl r = false).
    { destruct (hasResourceAcl r) eqn:Q; [|reflexivity]. now elim No; apply Own. }
    exists (effectiveAccess RuleDefault acl.agentClass foaf.Agent fb),
           (effectiveAccess RuleDefault acl.agentGroup group fb).
    unfold getPublicAccess, getGroupAccess, hasFallbackAcl. rewrite Hr, E. simpl.
    split; [reflexivity|]. split; [apply effectiveAccess_AccessFrom|].
    split; [reflexivity|]. apply effectiveAccess_AccessFrom.
  - intros No E.
    assert (Hr : hasResourceAcl r = false).
    { destruct (hasResourceAcl r) eqn:Q; [|reflexivity]. now elim No; apply Own. }
    unfold getPublicAccess, getGroupAccess, hasFallbackAcl. rewrite Hr, E. simpl.
    repeat split; discriminate.
Qed.

(** ** Splitting a rule *)

Ltac distinct_iris :=
  match goal with
  | |- ?a <> ?b => apply String.eqb_neq; reflexivity
  end.

Lemma internal_initialiseAclRule_noAccess (gen : nat -> string) (n : nat) :
  internal_initialiseAclRule gen (mkAccess false false false false) n =
  (mkThing (LocalSubject (gen n)) [(rdf.type, NamedNode acl.Authorization)], S n).
Proof. reflexivity. Qed.

Lemma internal_duplicateAclRule_counter (gen : nat -> string) (r : AclRule) (n : nat) :
  snd (internal_duplicateAclRule gen r n) = S n
  /\ thing_subject (fst (internal_duplicateAclRule gen r n)) = LocalSubject (gen n).
Proof.
  unfold internal_duplicateAclRule, bind, createThing, ret. simpl.
  split; [reflexivity|].
  rewrite !copyIris_subject, setIri_subject. reflexivity.
Qed.

Lemma removePublicFromRule_public
    (gen : nat -> string) (rule : AclRule) (X : string) (ty : RuleType) (n : nat) :
  includes (getIriAll rule acl.agentClass) foaf.Agent = true ->
  removePublicFromRule gen rule X ty n =
  ((removeIri rule acl.agentClass foaf.Agent,
    removeIri
      (removeAll
         (removeAll
            (setIri (fst (internal_duplicateAclRule gen rule n))
               acl.agentClass foaf.Agent)
            acl.agent)
         acl.agentGroup)
      (targetProperty ty) X),
   S n).
Proof.
  intros E. unfold removePublicFromRule. rewrite E. destruct ty; reflexivity.
Qed.

Lemma removePublicFromRule_other
    (gen : nat -> string) (rule : AclRule) (X : string) (ty : RuleType) (n : nat) :
  includes (getIriAll rule acl.agentClass) foaf.Agent = false ->
  removePublicFromRule gen rule X ty n =
  ((rule, mkThing (LocalSubject (gen n)) [(rdf.type, NamedNode acl.Authorization)]),
   S n).
Proof.
  intros E. unfold removePublicFromRule. rewrite E. reflexivity.
Qed.

(** What the two rules of a split say: the first is the input rule with
    the public taken off, the second is a new rule that names no agent and
    no group and has lost the target. *)
Lemma removePublicFromRule_spec
    (gen : nat -> string) (rule : AclRule) (X : string) (ty : RuleType) (n : nat) :
  let f := fst (fst (removePublicFromRule gen rule X ty n)) in
  let rem := snd (fst (removePublicFromRule gen rule X ty n)) in
  snd (removePublicFromRule gen rule X ty n) = S n
  /\ thing_subject f = thing_subject rule
  /\ thing_subject rem = LocalSubject (gen n)
  /\ (forall p, p <> acl.agentClass -> sameIris f rule p)
  /\ ~ In (acl.agentClass, NamedNode foaf.Agent) (thing_statements f)
  /\ (forall st, In st (thing_statements rem) ->
        fst st <> acl.agent /\ fst st <> acl.agentGroup)
  /\ ~ In (targetProperty ty, NamedNode X) (thing_statements rem).
Proof.
  destruct (includes (getIriAll rule acl.agentClass) foaf.Agent) eqn:E.
  - (* the rule names the public: it is split *)
    rewrite (removePublicFromRule_public gen rule X ty n E).
    cbn [fst snd].
    split; [reflexivity|]. split; [reflexivity|]. split.
    { simpl. rewrite setIri_subject.
      apply (internal_duplicateAclRule_counter gen rule n). }
    split.
    { intros p Hp i. rewrite removeIri_In. split; [tauto|].
      intros H. split; [exact H|]. intros Q. inversion Q. congruence. }
    split.
    { rewrite removeIri_In. tauto. }
    split.
    { intros st Hst. apply removeIri_In in Hst. destruct Hst as [Hst _].
      apply removeAll_In in Hst. destruct Hst as [Hst G].
      apply removeAll_In in Hst. destruct Hst as [_ A]. auto. }
    { rewrite removeIri_In. tauto. }
  - (* the rule does not name the public: it is kept, with an empty rule *)
    rewrite (removePublicFromRule_other gen rule X ty n E).
    cbn [fst snd thing_subject thing_statements].
    split; [reflexivity|]. split; [reflexivity|]. split; [reflexivity|].
    split; [intros p _ i; tauto|].
    split.
    { intros H. apply includes_getIriAll in H. congruence. }
    split.
    { intros st [<-|[]]. cbn [fst]. split; distinct_iris. }
    { intros [H|[]]. injection H as Q _. apply String.eqb_eq in Q.
      destruct ty; vm_compute in Q; discriminate Q. }
Qed.

(** ** The loop over the rules *)

Lemma filterPublicRules_cons (gen : nat -> string) (r : AclRule) (rest : list AclRule)
    (X : string) (ty : RuleType) (cur : AclDataset) (n : nat) :
  filterPublicRules gen (r :: rest) X ty cur n =
  filterPublicRules gen rest X ty
    (setThing (setThing cur (fst (fst (removePublicFromRule gen r X ty n))))
       (snd (fst (removePublicFromRule gen r X ty n))))
    (S n).
Proof.
  simpl. unfold bind.
  pose proof (removePublicFromRule_spec gen r X ty n) as [Hn _].
  destruct (removePublicFromRule gen r X ty n) as [[f rem] n'].
  simpl in Hn. subst n'. reflexivity.
Qed.

(** After the loop, what a subject grants is nothing (the subject is one
    of the new names), or what the first half of a split grants (the
    subject is one of the rules), or what it granted before. *)
Lemma filterPublicRules_grant
    (gen : nat -> string) (X : string) (ty tyq : RuleType) (target gt g : string)
    (rules : list AclRule) :
  (forall r k, grant tyq target gt g
                 (snd (fst (removePublicFromRule gen r X ty k))) = noAccess) ->
  forall (cur : AclDataset) (n : nat),
    let out := fst (filterPublicRules gen rules X ty cur n) in
    snd (filterPublicRules gen rules X ty cur n) = n + List.length rules
    /\ internal_accessTo out = internal_accessTo cur
    /\ forall s,
         (grant tyq target gt g (getThing (quads out) s) = noAccess
          /\ exists i, n <= i < n + List.length rules /\ s = LocalSubject (gen i))
         \/ (exists r k, In r rules /\ s = thing_subject r
               /\ grant tyq target gt g (getThing (quads out) s)
                  = grant tyq target gt g (fst (fst (removePublicFromRule gen r X ty k))))
         \/ ((forall r, In r rules -> s <> thing_subject r)
             /\ grant tyq target gt g (getThing (quads out) s)
                = grant tyq target gt g (getThing (quads cur) s)).
Proof.
  intros Hrem. induction rules as [|r rest IH]; intros cur n.
  - simpl. split; [lia|]. split; [reflexivity|].
    intros s. right. right. split; [intros r []|reflexivity].
  - rewrite filterPublicRules_cons.
    set (f := fst (fst (removePublicFromRule gen r X ty n))).
    set (rem := snd (fst (removePublicFromRule gen r X ty n))).
    destruct (IH (setThing (setThing cur f) rem) (S n)) as [Hn [Ha Hs]].
    split; [rewrite Hn; simpl; lia|]. split; [rewrite Ha; reflexivity|].
    intros s. destruct (Hs s) as [[H0 [i [Hi E]]]|[[r' [k [Hr [E H]]]]|[Hno H]]].
    + left. split; [exact H0|]. exists i. split; [simpl; lia | exact E].
    + right. left. exists r', k. split; [now right|]. auto.
    + rewrite !grant_setThing in H.
      pose proof (removePublicFromRule_spec gen r X ty n) as [_ [Sf [Sr _]]].
      fold f rem in Sf, Sr. rewrite Sf, Sr in H.
      destruct (subject_eqb s (LocalSubject (gen n))) eqn:E1.
      * left. split.
        { rewrite H. unfold rem. apply Hrem. }
        exists n. apply subject_eqb_eq in E1. split; [simpl; lia | exact E1].
      * destruct (subject_eqb s (thing_subject r)) eqn:E2.
        { right. left. exists r, n. apply subject_eqb_eq in E2.
          split; [now left|]. split; [exact E2 | exact H]. }
        { right. right. split; [|exact H].
          intros r' [<-|Hr']; [now apply subject_eqb_neq | now apply Hno]. }
Qed.

Lemma rem_grants_no_public (gen : nat -> string) (X : string) (r : AclRule) (k : nat) :
  grant RuleResource X acl.agentClass foaf.Agent
    (snd (fst (removePublicFromRule gen r X RuleResource k))) = noAccess.
Proof.
  pose proof (removePublicFromRule_spec gen r X RuleResource k) as [_ [_ [_ [_ [_ [_ H]]]]]].
  unfold grant. simpl scopeTest. unfold appliesToResource.
  destruct (includes _ X) eqn:E.
  - apply includes_getIriAll in E. contradiction.
  - now rewrite andb_false_r.
Qed.

Lemma split_grants_no_public (gen : nat -> string) (X : string) (ty tyq : RuleType)
    (r : AclRule) (k : nat) :
  grant tyq X acl.agentClass foaf.Agent
    (fst (fst (removePublicFromRule gen r X ty k))) = noAccess.
Proof.
  pose proof (removePublicFromRule_spec gen r X ty k) as [_ [_ [_ [_ [H _]]]]].
  unfold grant, namesGrantee.
  destruct (includes _ foaf.Agent) eqn:E.
  - apply includes_getIriAll in E. contradiction.
  - now rewrite andb_false_r.
Qed.

Lemma namesGrantee_absent (t : Thing) (gt g : string) :
  (forall st, In st (thing_statements t) -> fst st <> gt) ->
  namesGrantee t gt g = false.
Proof.
  intros H. unfold namesGrantee. destruct (includes _ g) eqn:E; [|reflexivity].
  apply includes_getIriAll in E. apply H in E. now elim E.
Qed.

Lemma rem_grants_no_other (gen : nat -> string) (X target : string) (ty tyq : RuleType)
    (gt g : string) (r : AclRule) (k : nat) :
  gt = acl.agent \/ gt = acl.agentGroup ->
  grant tyq target gt g (snd (fst (removePublicFromRule gen r X ty k))) = noAccess.
Proof.
  intros Hgt.
  pose proof (removePublicFromRule_spec gen r X ty k) as [_ [_ [_ [_ [_ [H _]]]]]].
  unfold grant. rewrite namesGrantee_absent; [now rewrite andb_false_r|].
  intros st Hst. destruct (H st Hst). destruct Hgt; subst; assumption.
Qed.

Lemma split_grants_other (gen : nat -> string) (X target : string) (ty tyq : RuleType)
    (gt g : string) (r : AclRule) (k : nat) :
  gt = acl.agent \/ gt = acl.agentGroup ->
  grant tyq target gt g (fst (fst (removePublicFromRule gen r X ty k)))
  = grant tyq target gt g r.
Proof.
  intros Hgt.
  pose proof (removePublicFromRule_spec gen r X ty k) as [_ [_ [_ [H _]]]].
  apply grant_ext; apply H; try distinct_iris.
  destruct Hgt; subst; distinct_iris.
Qed.

(** ** The new rule *)

Lemma newRule_facts (gen : nat -> string) (M : Access) (X : string) (n : nat) :
  let newRule :=
    setIri (setIri (fst (internal_initialiseAclRule gen M n)) acl.accessTo X)
      acl.agentClass foaf.Agent in
  snd (internal_initialiseAclRule gen M n) = S n
  /\ thing_subject newRule = LocalSubject (gen n)
  /\ isAclRule newRule = true
  /\ internal_getAccess newRule = normalise M
  /\ appliesToResource newRule X = true
  /\ appliesToClass newRule foaf.Agent = true
  /\ (forall st, In st (thing_statements newRule) ->
        fst st <> acl.agent /\ fst st <> acl.agentGroup).
Proof.
  intros newRule.
  split; [reflexivity|].
  split; [destruct M as [[] [] [] []]; reflexivity|].
  split; [destruct M as [[] [] [] []]; reflexivity|].
  split; [destruct M as [[] [] [] []]; reflexivity|].
  split.
  { apply includes_getIriAll. unfold newRule. apply setIri_In. left. split.
    - apply setIri_In. now right.
    - cbn [fst]. distinct_iris. }
  split.
  { apply includes_getIriAll. unfold newRule. apply setIri_In. now right. }
  intros st Hst. unfold newRule in Hst.
  apply setIri_In in Hst. destruct Hst as [[Hst _]| ->]; [|cbn [fst]; split; distinct_iris].
  apply setIri_In in Hst. destruct Hst as [[Hst _]| ->]; [|cbn [fst]; split; distinct_iris].
  destruct M as [[] [] [] []]; cbn in Hst;
    repeat (destruct Hst as [<-|Hst]; [cbn [fst]; split; distinct_iris|]);
    contradiction.
Qed.

Lemma setPublicResourceAccess_unfold (gen : nat -> string) (S0 : AclDataset)
    (M : Access) (n : nat) :
  let loop := filterPublicRules gen (getThingAll S0) (internal_accessTo S0)
                RuleResource S0 n in
  fst (setPublicResourceAccess gen S0 M n) =
  internal_removeEmptyAclRules
    (setThing (fst loop)
       (setIri (setIri (fst (internal_initialiseAclRule gen M (snd loop)))
                  acl.accessTo (internal_accessTo S0))
          acl.agentClass foaf.Agent)).
Proof.
  intros loop. unfold setPublicResourceAccess, bind. fold loop.
  destruct loop as [out n1]. cbn [fst snd].
  destruct (internal_initialiseAclRule gen M n1) as [nr n2]. reflexivity.
Qed.

(** ** Garbage collection does not change what is granted *)

Lemma scopeTest_target (ty : RuleType) (t : Thing) (target : string) :
  scopeTest ty t target = true -> ~ NoTarget t.
Proof.
  intros H [A [B C]]. destruct ty; simpl in H.
  - apply includes_getIriAll in H. apply A. now exists target.
  - unfold isDefaultForResource in H. apply orb_true_iff in H.
    destruct H as [H|H]; apply includes_getIriAll in H.
    + apply B. now exists target.
    + apply C. now exists target.
Qed.

Lemma internal_getAccess_NoMode (t : Thing) :
  NoMode t -> internal_getAccess t = noAccess.
Proof.
  intros H. apply getIri_None in H. unfold getIri in H.
  unfold internal_getAccess. destruct (getIriAll t acl.mode); [reflexivity | discriminate].
Qed.

Lemma grant_ineffective (ty : RuleType) (target gt g : string) (t : Thing) :
  gt = acl.agent \/ gt = acl.agentGroup \/ gt = acl.agentClass ->
  ineffective t = true -> grant ty target gt g t = noAccess.
Proof.
  intros Hgt H. apply ineffective_iff in H. destruct H as [_ [_ H]].
  unfold grant.
  destruct (isAclRule t); [|reflexivity].
  destruct (scopeTest ty t target) eqn:Sc; [|reflexivity].
  destruct (namesGrantee t gt g) eqn:G; [|reflexivity]. simpl.
  destruct H as [H|[H|H]].
  - exfalso. eapply scopeTest_target; eauto.
  - now apply internal_getAccess_NoMode.
  - exfalso. apply includes_getIriAll in G. destruct H as [A [B C]].
    destruct Hgt as [->|[->| ->]]; [apply A | apply B | apply C]; now exists g.
Qed.

Lemma getThing_removeEmpty (d : AclDataset) (s : Subject) :
  getThing (quads (internal_removeEmptyAclRules d)) s =
  if ineffective (getThing (quads d) s) then mkThing s []
  else getThing (quads d) s.
Proof.
  rewrite internal_removeEmptyAclRules_quads.
  rewrite (getThing_filter_subject
             (fun s' => negb (ineffective (getThing (quads d) s')))).
  destruct (ineffective (getThing (quads d) s)); reflexivity.
Qed.

Lemma grant_removeEmpty (ty : RuleType) (target gt g : string)
    (d : AclDataset) (s : Subject) :
  gt = acl.agent \/ gt = acl.agentGroup \/ gt = acl.agentClass ->
  grant ty target gt g (getThing (quads (internal_removeEmptyAclRules d)) s)
  = grant ty target gt g (getThing (quads d) s).
Proof.
  intros Hgt. rewrite getThing_removeEmpty.
  destruct (ineffective (getThing (quads d) s)) eqn:E; [|reflexivity].
  rewrite (@grant_ineffective ty target gt g _ Hgt E). reflexivity.
Qed.

Lemma normalise_idem (a : Access) : normalise (normalise a) = normalise a.
Proof. destruct a as [[] [] [] []]; reflexivity. Qed.

Lemma getThingAll_subject (d : AclDataset) (s : Subject) :
  (forall r, In r (getThingAll d) -> s <> thing_subject r) ->
  ~ In s (subjectsOf (quads d)).
Proof.
  intros H Hs. apply (H (getThing (quads d) s)); [|reflexivity].
  apply getThingAll_In. eauto.
Qed.

(** ** Setting the access of the public *)

Lemma setPublicResourceAccess_accessTo (gen : nat -> string) (S0 : AclDataset)
    (M : Access) (n : nat) :
  internal_accessTo (fst (setPublicResourceAccess gen S0 M n)) = internal_accessTo S0.
Proof.
  rewrite setPublicResourceAccess_unfold.
  destruct (fold_removeThing_meta
              (filter isEmptyAclRule
                 (internal_getAclRules
                    (setThing
                       (fst (filterPublicRules gen (getThingAll S0)
                               (internal_accessTo S0) RuleResource S0 n))
                       (setIri (setIri
                          (fst (internal_initialiseAclRule gen M
                             (snd (filterPublicRules gen (getThingAll S0)
                                     (internal_accessTo S0) RuleResource S0 n))))
                          acl.accessTo (internal_accessTo S0))
                          acl.agentClass foaf.Agent))))
              (setThing
                 (fst (filterPublicRules gen (getThingAll S0)
                         (internal_accessTo S0) RuleResource S0 n))
                 (setIri (setIri
                    (fst (internal_initialiseAclRule gen M
                       (snd (filterPublicRules gen (getThingAll S0)
                               (internal_accessTo S0) RuleResource S0 n))))
                    acl.accessTo (internal_accessTo S0))
                    acl.agentClass foaf.Agent))) as [A _].
  unfold internal_removeEmptyAclRules. rewrite A, setThing_accessTo.
  apply (filterPublicRules_grant gen (internal_accessTo S0) RuleResource RuleResource
           (internal_accessTo S0) acl.agentClass foaf.Agent (getThingAll S0)
           (rem_grants_no_public gen (internal_accessTo S0)) S0 n).
Qed.

(** What a subject grants to a grantee after [setPublicResourceAccess]:
    the new rule's grant at the new rule's name, and the loop's result
    elsewhere. *)
Lemma setPublicResourceAccess_grant (gen : nat -> string) (S0 : AclDataset)
    (M : Access) (n : nat) (tyq : RuleType) (gt g : string) (s : Subject) :
  gt = acl.agent \/ gt = acl.agentGroup \/ gt = acl.agentClass ->
  let loop := filterPublicRules gen (getThingAll S0) (internal_accessTo S0)
                RuleResource S0 n in
  let newRule :=
    setIri (setIri (fst (internal_initialiseAclRule gen M (snd loop)))
              acl.accessTo (internal_accessTo S0))
      acl.agentClass foaf.Agent in
  grant tyq (internal_accessTo S0) gt g
    (getThing (quads (fst (setPublicResourceAccess gen S0 M n))) s)
  = if subject_eqb s (LocalSubject (gen (snd loop)))
    then grant tyq (internal_accessTo S0) gt g newRule
    else grant tyq (internal_accessTo S0) gt g (getThing (quads (fst loop)) s).
Proof.
  intros Hgt loop newRule.
  rewrite setPublicResourceAccess_unfold. fold loop. fold newRule.
  rewrite grant_removeEmpty by exact Hgt.
  rewrite grant_setThing.
  destruct (newRule_facts gen M (internal_accessTo S0) (snd loop)) as [_ [Hs _]].
  fold newRule in Hs. rewrite Hs. reflexivity.
Qed.

(** Whatever the access asked for, the public ends with it, append
    raised by write. *)
Lemma setPublicResourceAccess_public_normalised
    (gen : nat -> string) (S0 : AclDataset) (M : Access) (n : nat) :
  getPublicResourceAccess (fst (setPublicResourceAccess gen S0 M n)) = normalise M.
Proof.
  change (effectiveAccess RuleResource acl.agentClass foaf.Agent
            (fst (setPublicResourceAccess gen S0 M n)) = normalise M).
  rewrite <- normalise_idem.
  set (loop := filterPublicRules gen (getThingAll S0) (internal_accessTo S0)
                 RuleResource S0 n).
  apply effectiveAccess_single with (s0 := LocalSubject (gen (snd loop))).
  intros s. rewrite setPublicResourceAccess_accessTo.
  rewrite setPublicResourceAccess_grant by auto. fold loop.
  destruct (subject_eqb s (LocalSubject (gen (snd loop)))); [|].
  - destruct (newRule_facts gen M (internal_accessTo S0) (snd loop))
      as [_ [_ [A [G [R [C _]]]]]].
    rewrite grant_selected; auto.
  - destruct (filterPublicRules_grant gen (internal_accessTo S0) RuleResource
                RuleResource (internal_accessTo S0) acl.agentClass foaf.Agent
                (getThingAll S0) (rem_grants_no_public gen (internal_accessTo S0))
                S0 n) as [_ [_ Hs]].
    fold loop in Hs.
    destruct (Hs s) as [[H0 _]|[[r [k [_ [_ H]]]]|[Hno H]]].
    + exact H0.
    + rewrite H. apply split_grants_no_public.
    + rewrite H. apply grant_absent. now apply getThingAll_subject.
Qed.

(** C1. For every ACL [S0] and every access-mode set [M], one in which
    write comes with append, the public's access to the resource of [S0]
    after [setPublicResourceAccess S0 M], as [getPublicResourceAccess]
    computes it, is exactly [M]: what [S0] granted to the public before is
    overwritten, not merged with [M]. *)
Theorem setPublicResourceAccess_public_access
    (gen : nat -> string) (S0 : AclDataset) (M : Access) (n : nat)
    (HM : writeImpliesAppend M = true) :
  getPublicResourceAccess (fst (setPublicResourceAccess gen S0 M n)) = M.
Proof.
  rewrite setPublicResourceAccess_public_normalised.
  unfold writeImpliesAppend in HM.
  destruct M as [r a [] c]; unfold normalise; simpl in *.
  - rewrite HM. reflexivity.
  - now rewrite orb_false_r.
Qed.

(** The scenario of the specification, by the theorem: the public had
    Control, Read alone is asked for, and Read alone is what it has. *)
Lemma setPublicResourceAccess_public_access_witness :
  getPublicResourceAccess exampleAcl = mkAccess false false false true
  /\ getPublicResourceAccess
       (fst (setPublicResourceAccess exampleNames exampleAcl
               (mkAccess true false false false) 0))
     = mkAccess true false false false.
Proof.
  split; [reflexivity|].
  apply (setPublicResourceAccess_public_access exampleNames exampleAcl
           (mkAccess true false false false) 0).
  reflexivity.
Defined.

(** The scenario of the specification: the ACL gives Control to the
    public, Read alone is asked for, and Read alone is what the public has
    afterwards, while the agent of the same rule keeps Control. *)
Example setPublicResourceAccess_overwrites :
  getPublicResourceAccess exampleAcl = mkAccess false false false true
  /\ getPublicResourceAccess
       (fst (setPublicResourceAccess exampleNames exampleAcl
               (mkAccess true false false false) 0))
     = mkAccess true false false false
  /\ getAgentResourceAccess
       (fst (setPublicResourceAccess exampleNames exampleAcl
               (mkAccess true false false false) 0)) exampleAgent
     = mkAccess false false false true.
Proof. repeat split; vm_compute; reflexivity. Qed.

(** C2, corrected. When the names drawn for the new Things are names
    of no Thing of the dataset, [setPublicResourceAccess] leaves the access
    of every agent and of every group as it was, for the resource and for
    the default scope. *)
Theorem setPublicResourceAccess_frame
    (gen : nat -> string) (S0 : AclDataset) (M : Access) (n : nat)
    (Hfresh : freshNames gen n S0 = true) (grantee : string) :
  getAgentResourceAccess (fst (setPublicResourceAccess gen S0 M n)) grantee
    = getAgentResourceAccess S0 grantee
  /\ getAgentDefaultAccess (fst (setPublicResourceAccess gen S0 M n)) grantee
    = getAgentDefaultAccess S0 grantee
  /\ getGroupResourceAccess (fst (setPublicResourceAccess gen S0 M n)) grantee
    = getGroupResourceAccess S0 grantee
  /\ getGroupDefaultAccess (fst (setPublicResourceAccess gen S0 M n)) grantee
    = getGroupDefaultAccess S0 grantee.
Proof.
  assert (Fresh : forall i, n <= i < S (n + List.length (getThingAll S0)) ->
            ~ In (LocalSubject (gen i)) (subjectsOf (quads S0))).
  { intros i Hi Hin. unfold freshNames in Hfresh.
    rewrite forallb_forall in Hfresh.
    assert (Hseq : In i (seq n (S (List.length (getThingAll S0)))))
      by (apply in_seq; lia).
    apply Hfresh in Hseq. apply negb_true_iff in Hseq.
    assert (X : existsb (subject_eqb (LocalSubject (gen i))) (subjectsOf (quads S0)) = true).
    { apply existsb_exists. exists (LocalSubject (gen i)).
      split; [exact Hin | apply subject_eqb_refl]. }
    congruence. }
  assert (Main : forall tyq gt, gt = acl.agent \/ gt = acl.agentGroup ->
            effectiveAccess tyq gt grantee (fst (setPublicResourceAccess gen S0 M n))
            = effectiveAccess tyq gt grantee S0).
  { intros tyq gt Hgt. apply effectiveAccess_ext.
    - apply setPublicResourceAccess_accessTo.
    - intros s. rewrite setPublicResourceAccess_accessTo.
      rewrite setPublicResourceAccess_grant by tauto.
      destruct (filterPublicRules_grant gen (internal_accessTo S0) RuleResource
                  tyq (internal_accessTo S0) gt grantee (getThingAll S0)
                  (fun r k => rem_grants_no_other gen (internal_accessTo S0)
                                (internal_accessTo S0) RuleResource tyq grantee r k Hgt)
                  S0 n) as [Hn [_ Hs]].
      remember (filterPublicRules gen (getThingAll S0) (internal_accessTo S0)
                  RuleResource S0 n) as loop eqn:Hloop in *.
      destruct (subject_eqb s (LocalSubject (gen (snd loop)))) eqn:E.
      + apply subject_eqb_eq in E. subst s.
        rewrite grant_absent by (apply Fresh; unfold AclRule in *; lia).
        destruct (newRule_facts gen M (internal_accessTo S0) (snd loop))
          as [_ [_ [_ [_ [_ [_ H]]]]]].
        unfold grant. rewrite namesGrantee_absent; [now rewrite andb_false_r|].
        intros st Hst. destruct (H st Hst). destruct Hgt; subst; assumption.
      + destruct (Hs s) as [[H0 [i [Hi ->]]]|[[r [k [Hr [-> H]]]]|[Hno H]]].
        * rewrite H0. symmetry. apply grant_absent. apply Fresh.
          unfold AclRule in *. lia.
        * rewrite H. rewrite split_grants_other by exact Hgt.
          apply getThingAll_In in Hr. destruct Hr as [s' [_ ->]]. reflexivity.
        * exact H. }
  repeat split.
  - apply (Main RuleResource acl.agent). now left.
  - apply (Main RuleDefault acl.agent). now left.
  - apply (Main RuleResource acl.agentGroup). now right.
  - apply (Main RuleDefault acl.agentGroup). now right.
Qed.

Lemma setPublicResourceAccess_frame_witness :
  freshNames exampleNames 0 exampleAcl = true
  /\ getAgentResourceAccess
       (fst (setPublicResourceAccess exampleNames exampleAcl
               (mkAccess true false false false) 0)) exampleAgent
     = getAgentResourceAccess exampleAcl exampleAgent.
Proof.
  split; [reflexivity|].
  exact (proj1 (setPublicResourceAccess_frame exampleNames exampleAcl
                  (mkAccess true false false false) 0 eq_refl exampleAgent)).
Defined.

(** C2, as stated, fails: in an ACL whose rule bears the name that is
    drawn next, the rule is overwritten by the Thing made under that name,
    and the agent of the rule loses its Read. *)
Lemma setPublicResourceAccess_frame_name_clash :
  freshNames exampleNames 0 exampleUnsavedAcl = false
  /\ getAgentResourceAccess exampleUnsavedAcl exampleAgent
     = mkAccess true false false false
  /\ getAgentResourceAccess
       (fst (setPublicResourceAccess exampleNames exampleUnsavedAcl
               (mkAccess true false false false) 0)) exampleAgent
     = mkAccess false false false false
  /\ getAgentResourceAccess
       (fst (setPublicResourceAccess exampleNames exampleUnsavedAcl
               (mkAccess true false false false) 0)) exampleAgent
     <> getAgentResourceAccess exampleUnsavedAcl exampleAgent.
Proof.
  assert (A : getAgentResourceAccess exampleUnsavedAcl exampleAgent
              = mkAccess true false false false) by (vm_compute; reflexivity).
  assert (B : getAgentResourceAccess
                (fst (setPublicResourceAccess exampleNames exampleUnsavedAcl
                        (mkAccess true false false false) 0)) exampleAgent
              = mkAccess false false false false) by (vm_compute; reflexivity).
  split; [vm_compute; reflexivity|]. split; [exact A|]. split; [exact B|].
  rewrite A, B. discriminate.
Qed.

(** ** An ACL made from the fallback ACL *)

Lemma effectiveAccess_ext_scopes (ty1 ty2 : RuleType) (gt g : string)
    (d1 d2 : AclDataset) :
  (forall s, grant ty1 (internal_accessTo d1) gt g (getThing (quads d1) s)
             = grant ty2 (internal_accessTo d2) gt g (getThing (quads d2) s)) ->
  effectiveAccess ty1 gt g d1 = effectiveAccess ty2 gt g d2.
Proof.
  intros H. unfold effectiveAccess.
  rewrite !internal_combineAccessModes_fields.
  assert (X : forall f, f noAccess = false ->
    existsb f (map internal_getAccess
       (filter (fun rule => namesGrantee rule gt g)
          (filter (fun rule => scopeTest ty1 rule (internal_accessTo d1))
             (internal_getAclRules d1))))
    = existsb f (map internal_getAccess
       (filter (fun rule => namesGrantee rule gt g)
          (filter (fun rule => scopeTest ty2 rule (internal_accessTo d2))
             (internal_getAclRules d2))))).
  { intros f F. apply bool_ext. rewrite !selected_field by exact F.
    split; intros [s Hs]; exists s; [rewrite <- H | rewrite H]; exact Hs. }
  rewrite (X read eq_refl), (X append eq_refl), (X write eq_refl), (X control eq_refl).
  reflexivity.
Qed.

Lemma fold_setThing_meta (ts : list Thing) (d : AclDataset) :
  internal_accessTo (fold_left setThing ts d) = internal_accessTo d
  /\ acl_resourceInfo (fold_left setThing ts d) = acl_resourceInfo d.
Proof.
  revert d. induction ts as [|t ts IH]; intros d; simpl; [auto|].
  destruct (IH (setThing d t)) as [A B]. rewrite A, B. auto.
Qed.

(** Storing a list of Things: a subject grants what the last Thing
    stored under it grants, or what it granted before. *)
Lemma grant_fold_setThing (ty : RuleType) (target gt g : string)
    (ts : list Thing) (d : AclDataset) (s : Subject) :
  (exists t, In t ts /\ thing_subject t = s
     /\ grant ty target gt g (getThing (quads (fold_left setThing ts d)) s)
        = grant ty target gt g t)
  \/ ((forall t, In t ts -> thing_subject t <> s)
      /\ grant ty target gt g (getThing (quads (fold_left setThing ts d)) s)
         = grant ty target gt g (getThing (quads d) s)).
Proof.
  revert d. induction ts as [|t ts IH]; intros d; simpl.
  - right. split; [intros t []|reflexivity].
  - destruct (IH (setThing d t)) as [[t' [Hin [Hs H]]]|[Hno H]].
    + left. exists t'. auto.
    + rewrite grant_setThing in H.
      destruct (subject_eqb s (thing_subject t)) eqn:E.
      * left. exists t. apply subject_eqb_eq in E. auto.
      * right. split; [|exact H]. intros t' [<-|Hin]; [|now apply Hno].
        apply subject_eqb_neq in E. congruence.
Qed.

Lemma toResourceRule_subject (X : string) (r : AclRule) :
  thing_subject (toResourceRule X r) = thing_subject r.
Proof. unfold toResourceRule. rewrite setIri_subject. reflexivity. Qed.

Lemma toResourceRule_sameIris (X : string) (r : AclRule) (p : string) :
  p <> acl.accessTo -> p <> acl.default -> p <> acl.defaultForNew ->
  sameIris (toResourceRule X r) r p.
Proof.
  intros A D N i. unfold toResourceRule.
  rewrite setIri_In, !removeAll_In. cbn [fst]. split.
  - intros [[[[H _] _] _]|H]; [exact H|]. inversion H. congruence.
  - intros H. left. auto.
Qed.

Lemma toResourceRule_grant (X target gt g : string) (r : AclRule) :
  gt = acl.agent \/ gt = acl.agentGroup \/ gt = acl.agentClass ->
  isDefaultForResource r target = true ->
  grant RuleResource X gt g (toResourceRule X r) = grant RuleDefault target gt g r.
Proof.
  intros Hgt Hd. unfold grant, isAclRule, namesGrantee. simpl scopeTest. rewrite Hd.
  assert (Sc : appliesToResource (toResourceRule X r) X = true).
  { apply includes_getIriAll. unfold toResourceRule. apply setIri_In. now right. }
  rewrite Sc.
  rewrite (includes_sameIris (t1 := toResourceRule X r) (t2 := r) (p := rdf.type))
    by (apply toResourceRule_sameIris; distinct_iris).
  rewrite (includes_sameIris (t1 := toResourceRule X r) (t2 := r) (p := gt))
    by (apply toResourceRule_sameIris; destruct Hgt as [->|[->| ->]]; distinct_iris).
  rewrite (internal_getAccess_ext (t1 := toResourceRule X r) (t2 := r))
    by (apply toResourceRule_sameIris; distinct_iris).
  reflexivity.
Qed.

Lemma createAclFromFallbackAcl_grant (resource : ResourceWithFallbackAcl)
    (gt g : string) (s : Subject) :
  gt = acl.agent \/ gt = acl.agentGroup \/ gt = acl.agentClass ->
  grant RuleResource (target_sourceIri resource) gt g
    (getThing (quads (createAclFromFallbackAcl resource)) s)
  = grant RuleDefault (internal_accessTo (target_fallbackAcl resource)) gt g
      (getThing (quads (target_fallbackAcl resource)) s).
Proof.
  intros Hgt. unfold createAclFromFallbackAcl.
  set (fb := target_fallbackAcl resource).
  set (X := target_sourceIri resource).
  set (rules := internal_getDefaultAclRulesForResource (internal_getAclRules fb)
                  (internal_accessTo fb)).
  assert (Hrules : forall r, In r rules <->
            exists s', In s' (subjectsOf (quads fb)) /\ r = getThing (quads fb) s'
                       /\ isAclRule r = true
                       /\ isDefaultForResource r (internal_accessTo fb) = true).
  { intros r. unfold rules, internal_getDefaultAclRulesForResource, internal_getAclRules.
    rewrite !filter_In, getThingAll_In. split.
    - intros [[[s' [A B]] C] D]. exists s'. auto.
    - intros [s' [A [B [C D]]]]. split; [split|]; eauto. }
  destruct (grant_fold_setThing RuleResource X gt g (map (toResourceRule X) rules)
              (createAcl X (target_aclUrl resource)) s)
    as [[t [Hin [Hs H]]]|[Hno H]].
  - rewrite H. apply in_map_iff in Hin. destruct Hin as [r [<- Hr]].
    rewrite toResourceRule_subject in Hs.
    apply Hrules in Hr. destruct Hr as [s' [_ [-> [_ Hd]]]].
    simpl in Hs. subst s'.
    now apply toResourceRule_grant.
  - rewrite H. simpl. symmetry.
    destruct (isAclRule (getThing (quads fb) s)
              && isDefaultForResource (getThing (quads fb) s) (internal_accessTo fb)) eqn:E.
    + exfalso. apply andb_true_iff in E. destruct E as [A D].
      apply (Hno (toResourceRule X (getThing (quads fb) s)));
        [|now rewrite toResourceRule_subject].
      apply in_map. apply Hrules. exists s. split; [|auto].
      apply isAclRule_iff in A. apply getThing_In in A.
      apply subjectsOf_In. eauto.
    + unfold grant. simpl scopeTest. rewrite E. reflexivity.
Qed.

Lemma fold_setThing_subjects (ts : list Thing) (d : AclDataset) (q : Quad) :
  In q (quads (fold_left setThing ts d)) ->
  In q (quads d) \/ exists t, In t ts /\ thing_subject t = subject q.
Proof.
  revert d. induction ts as [|t ts IH]; intros d H; simpl in H; [now left|].
  destruct (IH _ H) as [H'|[t' [A B]]].
  - apply setThing_In in H'. destruct H' as [[H' _]|[st' [_ Q]]]; [now left|].
    right. exists t. split; [now left|]. subst q. reflexivity.
  - right. exists t'. split; [now right | exact B].
Qed.

(** C7. The ACL [createAclFromFallbackAcl] makes is bound to the
    resource, and gives every grantee (the public, an agent, a group), as
    access to the resource, the access the fallback ACL gives that grantee
    by default; a rule of the fallback ACL that is not a default rule for
    the fallback ACL's container leaves no statement in the new ACL. *)
Theorem createAclFromFallbackAcl_spec (resource : ResourceWithFallbackAcl) :
  let fb := target_fallbackAcl resource in
  let new := createAclFromFallbackAcl resource in
  internal_accessTo new = target_sourceIri resource
  /\ getSourceUrl (acl_resourceInfo new) = target_aclUrl resource
  /\ getPublicResourceAccess new = getPublicDefaultAccess fb
  /\ (forall agent, getAgentResourceAccess new agent = getAgentDefaultAccess fb agent)
  /\ (forall group, getGroupResourceAccess new group = getGroupDefaultAccess fb group)
  /\ (forall agentClass,
        effectiveAccess RuleResource acl.agentClass agentClass new
        = effectiveAccess RuleDefault acl.agentClass agentClass fb)
  /\ (forall s,
        isDefaultForResource (getThing (quads fb) s) (internal_accessTo fb) = false ->
        thing_statements (getThing (quads new) s) = []).
Proof.
  intros fb new.
  assert (Meta : internal_accessTo new = target_sourceIri resource
                 /\ acl_resourceInfo new
                    = mkResourceInfo (target_aclUrl resource) None).
  { unfold new, createAclFromFallbackAcl. apply fold_setThing_meta. }
  destruct Meta as [Ha Hi].
  assert (Main : forall gt g,
            gt = acl.agent \/ gt = acl.agentGroup \/ gt = acl.agentClass ->
            effectiveAccess RuleResource gt g new = effectiveAccess RuleDefault gt g fb).
  { intros gt g Hgt. apply effectiveAccess_ext_scopes. intros s. rewrite Ha.
    now apply createAclFromFallbackAcl_grant. }
  split; [exact Ha|]. split; [rewrite Hi; reflexivity|].
  split; [apply (Main acl.agentClass foaf.Agent); auto|].
  split; [intros agent; apply (Main acl.agent agent); auto|].
  split; [intros group; apply (Main acl.agentGroup group); auto|].
  split; [intros agentClass; apply (Main acl.agentClass agentClass); auto|].
  intros s Hd.
  destruct (thing_statements (getThing (quads new) s)) as [|st l] eqn:E; [reflexivity|].
  exfalso.
  assert (Hst : In (toQuad s st) (quads new)).
  { apply getThing_In. rewrite E. now left. }
  unfold new, createAclFromFallbackAcl in Hst.
  apply fold_setThing_subjects in Hst. destruct Hst as [[]|[t [Hin Hs]]].
  apply in_map_iff in Hin. destruct Hin as [r [<- Hr]].
  rewrite toResourceRule_subject in Hs. simpl in Hs.
  unfold internal_getDefaultAclRulesForResource, internal_getAclRules in Hr.
  apply filter_In in Hr. destruct Hr as [Hr D].
  apply filter_In in Hr. destruct Hr as [Hr _].
  apply getThingAll_In in Hr. destruct Hr as [s' [_ ->]].
  simpl in Hs. subst s'. fold fb in D. congruence.
Qed.

(** ** Paths *)

Lemma length_append (a b : string) :
  String.length (a ++ b) = String.length a + String.length b.
Proof. induction a as [|c a IH]; simpl; [reflexivity | now rewrite IH]. Qed.

Lemma append_assoc (a b c : string) : (a ++ b) ++ c = a ++ (b ++ c).
Proof. induction a as [|x a IH]; simpl; [reflexivity | now rewrite IH]. Qed.

Lemma substring_prefix (a b : string) :
  String.substring 0 (String.length a) (a ++ b) = a.
Proof.
  induction a as [|c a IH]; simpl.
  - destruct b; reflexivity.
  - now rewrite IH.
Qed.

Lemma substring_skip (a b : string) (m : nat) :
  String.substring (String.length a) m (a ++ b) = String.substring 0 m b.
Proof. induction a as [|c a IH]; simpl; [reflexivity | exact IH]. Qed.

Lemma js_substring_prefix (a b : string) :
  js_substring (a ++ b) 0 (js_length a) = a.
Proof.
  unfold js_substring, js_length. rewrite length_append.
  replace (Z.max 0 (Z.min 0 (Z.of_nat (String.length a + String.length b))))
    with 0%Z by lia.
  replace (Z.max 0 (Z.min (Z.of_nat (String.length a))
                      (Z.of_nat (String.length a + String.length b))))
    with (Z.of_nat (String.length a)) by lia.
  replace (Z.min 0 (Z.of_nat (String.length a))) with 0%Z by lia.
  replace (Z.max 0 (Z.of_nat (String.length a)) - 0)%Z
    with (Z.of_nat (String.length a)) by lia.
  rewrite Nat2Z.id. simpl. apply substring_prefix.
Qed.

Lemma js_substring_last (a : string) (c : ascii) :
  js_substring_from (a ++ String c "") (js_length (a ++ String c "") - 1)
  = String c "".
Proof.
  unfold js_substring_from, js_substring, js_length. rewrite length_append. simpl.
  set (n := String.length a).
  replace (Z.max 0 (Z.min (Z.of_nat (n + 1) - 1) (Z.of_nat (n + 1))))
    with (Z.of_nat n) by lia.
  replace (Z.max 0 (Z.min (Z.of_nat (n + 1)) (Z.of_nat (n + 1))))
    with (Z.of_nat (n + 1)) by lia.
  replace (Z.min (Z.of_nat n) (Z.of_nat (n + 1))) with (Z.of_nat n) by lia.
  replace (Z.max (Z.of_nat n) (Z.of_nat (n + 1)) - Z.of_nat n)%Z with 1%Z by lia.
  rewrite Nat2Z.id. unfold n. rewrite substring_skip. reflexivity.
Qed.

Lemma lastIndexOfFrom_app (a b : string) (c : ascii) (i found : Z) :
  lastIndexOfFrom (a ++ b) c i found =
  lastIndexOfFrom b c (i + js_length a) (lastIndexOfFrom a c i found).
Proof.
  revert i found. induction a as [|x a IH]; intros i found.
  - simpl. unfold js_length. simpl. now rewrite Z.add_0_r.
  - simpl. rewrite IH. unfold js_length. simpl String.length.
    f_equal. lia.
Qed.

Lemma lastIndexOfFrom_none (s : string) (i found : Z) :
  hasSlash s = false -> lastIndexOfFrom s "/" i found = found.
Proof.
  revert i found. induction s as [|x s IH]; intros i found H; simpl in *; [reflexivity|].
  apply orb_false_iff in H. destruct H as [A B]. rewrite A. now apply IH.
Qed.

Lemma js_lastIndexOf_last (pre post : string) :
  hasSlash post = false ->
  js_lastIndexOf (pre ++ "/" ++ post) "/" = js_length pre.
Proof.
  intros H. unfold js_lastIndexOf. rewrite lastIndexOfFrom_app. simpl.
  now rewrite lastIndexOfFrom_none.
Qed.

Lemma string_last (s : string) :
  s <> "" -> exists s' c, s = s' ++ String c "".
Proof.
  induction s as [|x s IH]; intros H; [congruence|].
  destruct s as [|y s].
  - exists "", x. reflexivity.
  - destruct IH as [s' [c E]]; [discriminate|].
    exists (String x s'), c. simpl. now rewrite <- E.
Qed.

Lemma hasSlash_app (a b : string) : hasSlash (a ++ b) = hasSlash a || hasSlash b.
Proof.
  induction a as [|x a IH]; simpl; [reflexivity|].
  rewrite IH. now rewrite orb_assoc.
Qed.

Lemma internal_getContainerPath_trailing (pre post : string) :
  hasSlash post = false ->
  internal_getContainerPath (pre ++ "/" ++ post ++ "/") = pre ++ "/".
Proof.
  intros H. unfold internal_getContainerPath.
  replace (pre ++ "/" ++ post ++ "/") with ((pre ++ "/" ++ post) ++ "/")
    by (rewrite !append_assoc; reflexivity).
  rewrite js_substring_last. simpl (String.eqb "/" "/"). cbv iota.
  replace (js_length ((pre ++ "/" ++ post) ++ "/") - 1)%Z
    with (js_length (pre ++ "/" ++ post))
    by (unfold js_length; rewrite (length_append (pre ++ "/" ++ post) "/"); simpl; lia).
  rewrite js_substring_prefix, js_lastIndexOf_last by exact H.
  rewrite !append_assoc. rewrite js_substring_prefix. reflexivity.
Qed.

Lemma internal_getContainerPath_plain (pre post : string) :
  hasSlash post = false -> post <> "" ->
  internal_getContainerPath (pre ++ "/" ++ post) = pre ++ "/".
Proof.
  intros H Hne. unfold internal_getContainerPath.
  destruct (string_last Hne) as [post' [c E]].
  assert (Hc : Ascii.eqb c "/" = false).
  { rewrite E, hasSlash_app in H. apply orb_false_iff in H. destruct H as [_ H].
    simpl in H. now rewrite orb_false_r in H. }
  assert (T : String.eqb
                (js_substring_from (pre ++ "/" ++ post)
                   (js_length (pre ++ "/" ++ post) - 1)) "/" = false).
  { replace (pre ++ "/" ++ post) with ((pre ++ "/" ++ post') ++ String c "")
      by (rewrite E, !append_assoc; reflexivity).
    rewrite js_substring_last. simpl. rewrite Hc. reflexivity. }
  rewrite T. rewrite js_lastIndexOf_last by exact H.
  now rewrite js_substring_prefix.
Qed.

(** C9. The container of a path: the trailing slash goes first, then
    everything from the last slash that is left, and a slash is put back,
    so [/a/b/] gives [/a/] and [/a/b/c] gives [/a/b/]; the walk answers
    [null] without a request exactly when the path of the resource is
    [/], and asks for the container of the path first otherwise. *)
Theorem internal_getContainerPath_spec
    (urlPathname urlOrigin : string -> string) (urlHref : string -> string -> string)
    (serverResourceInfo : string -> Outcome ResourceInfo)
    (serverSolidDataset : string -> Outcome SolidDataset) :
  (forall pre post,
     hasSlash post = false ->
     internal_getContainerPath (pre ++ "/" ++ post ++ "/") = pre ++ "/")
  /\ (forall pre post,
        hasSlash post = false -> post <> "" ->
        internal_getContainerPath (pre ++ "/" ++ post) = pre ++ "/")
  /\ internal_getContainerPath "/a/b/" = "/a/"
  /\ internal_getContainerPath "/a/b/c" = "/a/b/"
  /\ (forall fuel resource,
        let walk :=
          internal_fetchFallbackAcl urlPathname urlOrigin urlHref
            serverResourceInfo serverSolidDataset fuel resource in
        let path := urlPathname (getSourceUrl resource) in
        (walk = ([], Resolved None) <-> path = "/")
        /\ (path <> "/" ->
            exists rest,
              fst walk =
              Head (urlHref (internal_getContainerPath path)
                      (urlOrigin (getSourceUrl resource))) :: rest)).
Proof.
  split; [exact internal_getContainerPath_trailing|].
  split; [exact internal_getContainerPath_plain|].
  split; [reflexivity|]. split; [reflexivity|].
  intros fuel resource walk path.
  assert (Step : path <> "/" ->
            exists rest,
              fst walk =
              Head (urlHref (internal_getContainerPath path)
                      (urlOrigin (getSourceUrl resource))) :: rest).
  { intros Hp. apply String.eqb_neq in Hp. unfold walk.
    destruct fuel; simpl; fold path; rewrite Hp; unfold await, getResourceInfo;
      destruct (serverResourceInfo _) as [info| |]; simpl; eauto;
      match goal with
      | |- context [let (_, _) := ?x in _] => destruct x; simpl; eauto
      end. }
  split; [|exact Step]. split.
  - intros Hw. destruct (String.eqb path "/") eqn:E; [now apply String.eqb_eq|].
    apply String.eqb_neq in E. destruct (Step E) as [rest Hr].
    rewrite Hw in Hr. discriminate.
  - intros Hp. apply String.eqb_eq in Hp. unfold walk.
    destruct fuel; simpl; fold path; rewrite Hp; reflexivity.
Qed.

(** ** Failures during the walk *)



Lemma internal_fetchFallbackAcl_unfold
    (urlPathname urlOrigin : string -> string) (urlHref : string -> string -> string)
    (serverResourceInfo : string -> Outcome ResourceInfo)
    (serverSolidDataset : string -> Outcome SolidDataset)
    (fuel : nat) (resource : ResourceInfo) :
  internal_fetchFallbackAcl urlPathname urlOrigin urlHref serverResourceInfo
    serverSolidDataset fuel resource
  = if String.eqb (urlPathname (getSourceUrl resource)) "/" then resolve None
    else
      await
        (getResourceInfo serverResourceInfo
           (urlHref (internal_getContainerPath (urlPathname (getSourceUrl resource)))
              (urlOrigin (getSourceUrl resource))))
        (fun containerInfo =>
           if negb (hasAccessibleAcl containerInfo) then resolve None
           else
             await (internal_fetchResourceAcl serverSolidDataset containerInfo)
               (fun containerAcl =>
                  match containerAcl with
                  | None =>
                      match fuel with
                      | O => ([], Unsettled)
                      | S fuel' =>
                          internal_fetchFallbackAcl urlPathname urlOrigin urlHref
                            serverResourceInfo serverSolidDataset fuel' containerInfo
                      end
                  | Some acl => resolve (Some acl)
                  end)).
Proof. destruct fuel; reflexivity. Qed.



(** * Further properties of the code *)

(** ** New and duplicated rules *)

Lemma internal_initialiseAclRule_facts (gen : nat -> string) (M : Access) (n : nat) :
  internal_getAccess (fst (internal_initialiseAclRule gen M n)) = normalise M
  /\ isAclRule (fst (internal_initialiseAclRule gen M n)) = true
  /\ thing_subject (fst (internal_initialiseAclRule gen M n)) = LocalSubject (gen n).
Proof. destruct M as [[] [] [] []]; repeat split. Qed.

(** X1. A rule made by [internal_initialiseAclRule] reads back, through
    [internal_getAccess], as the access it was made from with append
    raised by write; it is an Authorization under the name drawn, and as
    long as it has neither target nor grantee it counts as empty. *)
Theorem internal_initialiseAclRule_roundtrip
    (gen : nat -> string) (M : Access) (n : nat) :
  internal_getAccess (fst (internal_initialiseAclRule gen M n)) = normalise M
  /\ (internal_getAccess (fst (internal_initialiseAclRule gen M n)) = M
      <-> writeImpliesAppend M = true)
  /\ isAclRule (fst (internal_initialiseAclRule gen M n)) = true
  /\ thing_subject (fst (internal_initialiseAclRule gen M n)) = LocalSubject (gen n)
  /\ snd (internal_initialiseAclRule gen M n) = S n
  /\ isEmptyAclRule (fst (internal_initialiseAclRule gen M n)) = true.
Proof.
  split; [destruct M as [[] [] [] []]; reflexivity|].
  split; [destruct M as [[] [] [] []]; vm_compute; split; congruence|].
  split; [destruct M as [[] [] [] []]; reflexivity|].
  split; [destruct M as [[] [] [] []]; reflexivity|].
  split; [reflexivity|].
  destruct M as [[] [] [] []]; reflexivity.
Qed.

Lemma internal_duplicateAclRule_In (gen : nat -> string) (r : AclRule) (n : nat)
    (st : Statement) :
  In st (thing_statements (fst (internal_duplicateAclRule gen r n)))
  <-> st = (rdf.type, NamedNode acl.Authorization)
      \/ exists p i, In p copiedProperties /\ st = (p, NamedNode i)
                     /\ In st (thing_statements r).
Proof.
  unfold internal_duplicateAclRule, bind, createThing, ret. cbn [fst].
  rewrite !copyIris_In, setIri_In. cbn [thing_statements In]. split.
  - intros [[[[[[[[[[[] _]|H]|H]|H]|H]|H]|H]|H]|H]|H];
      [left; exact H | ..];
      (destruct H as [i [Hi ->]]; right; eexists; exists i;
       split; [|split; [reflexivity | exact Hi]]; simpl; tauto).
  - intros [->|[p [i [Hp [-> Hi]]]]].
    + do 8 left. right. reflexivity.
    + simpl in Hp.
      repeat match type of Hp with
             | _ \/ _ => destruct Hp as [<-|Hp]
             end; try contradiction;
        repeat first [ right; exists i; split; [exact Hi | reflexivity] | left ].
Qed.

(** X2. The duplicate made by [internal_duplicateAclRule] is an
    Authorization under the name drawn; for each of the eight ACL
    properties it names the IRIs the source names; it has no other
    statement than these and its type, so values that are not IRIs and
    statements outside access control are not copied; and it grants, for
    every scope, target and grantee, what the source grants when the source
    is an Authorization. *)
Theorem internal_duplicateAclRule_spec (gen : nat -> string) (r : AclRule) (n : nat) :
  let dup := fst (internal_duplicateAclRule gen r n) in
  thing_subject dup = LocalSubject (gen n)
  /\ snd (internal_duplicateAclRule gen r n) = S n
  /\ isAclRule dup = true
  /\ (forall p, In p copiedProperties -> sameIris dup r p)
  /\ (forall st, In st (thing_statements dup) ->
        st = (rdf.type, NamedNode acl.Authorization)
        \/ exists p i, In p copiedProperties /\ st = (p, NamedNode i)
                       /\ In st (thing_statements r))
  /\ internal_getAccess dup = internal_getAccess r
  /\ (forall ty target gt g,
        In gt [acl.agent; acl.agentGroup; acl.agentClass] ->
        grant ty target gt g dup
        = if isAclRule r then grant ty target gt g r
          else if scopeTest ty r target && namesGrantee r gt g
               then internal_getAccess r else noAccess).
Proof.
  intros dup.
  assert (Same : forall p, In p copiedProperties -> sameIris dup r p).
  { intros p Hp i. unfold dup. rewrite internal_duplicateAclRule_In. split.
    - intros [H|[p' [i' [_ [_ H]]]]]; [|exact H].
      exfalso. injection H as Q _. subst p. simpl in Hp.
      repeat match type of Hp with
             | _ \/ _ => destruct Hp as [Hp|Hp]
             end; try contradiction;
        apply String.eqb_eq in Hp; vm_compute in Hp; discriminate Hp.
    - intros H. right. exists p, i. auto. }
  assert (Rule : isAclRule dup = true).
  { apply isAclRule_iff. unfold dup. apply internal_duplicateAclRule_In. now left. }
  assert (Acc : internal_getAccess dup = internal_getAccess r).
  { apply internal_getAccess_ext. apply Same. simpl. tauto. }
  split; [apply internal_duplicateAclRule_counter|].
  split; [apply internal_duplicateAclRule_counter|].
  split; [exact Rule|]. split; [exact Same|].
  split; [intros st Hst; unfold dup in Hst;
          apply internal_duplicateAclRule_In in Hst; exact Hst|].
  split; [exact Acc|].
  intros ty target gt g Hgt. unfold grant. rewrite Rule, Acc.
  rewrite (scopeTest_ext ty target (t1 := dup) (t2 := r))
    by (apply Same; simpl; tauto).
  unfold namesGrantee.
  rewrite (includes_sameIris (t1 := dup) (t2 := r) (p := gt))
    by (apply Same; simpl in *; tauto).
  destruct (isAclRule r); reflexivity.
Qed.

(** ** Garbage collection *)

Lemma internal_removeEmptyAclRules_accessTo (d : AclDataset) :
  internal_accessTo (internal_removeEmptyAclRules d) = internal_accessTo d.
Proof. apply fold_removeThing_meta. Qed.

Lemma effectiveAccess_removeEmpty (ty : RuleType) (gt g : string) (d : AclDataset) :
  gt = acl.agent \/ gt = acl.agentGroup \/ gt = acl.agentClass ->
  effectiveAccess ty gt g (internal_removeEmptyAclRules d) = effectiveAccess ty gt g d.
Proof.
  intros Hgt. apply effectiveAccess_ext.
  - apply internal_removeEmptyAclRules_accessTo.
  - intros s. rewrite internal_removeEmptyAclRules_accessTo.
    now apply grant_removeEmpty.
Qed.

(** X3. Taking the empty rules out changes nobody's access: the public,
    every agent and every group have, for the resource and by default,
    the access they had. *)
Theorem internal_removeEmptyAclRules_keeps_access (d : AclDataset) (grantee : string) :
  getPublicResourceAccess (internal_removeEmptyAclRules d) = getPublicResourceAccess d
  /\ getPublicDefaultAccess (internal_removeEmptyAclRules d) = getPublicDefaultAccess d
  /\ getAgentResourceAccess (internal_removeEmptyAclRules d) grantee
     = getAgentResourceAccess d grantee
  /\ getAgentDefaultAccess (internal_removeEmptyAclRules d) grantee
     = getAgentDefaultAccess d grantee
  /\ getGroupResourceAccess (internal_removeEmptyAclRules d) grantee
     = getGroupResourceAccess d grantee
  /\ getGroupDefaultAccess (internal_removeEmptyAclRules d) grantee
     = getGroupDefaultAccess d grantee.
Proof.
  repeat split.
  - apply (effectiveAccess_removeEmpty RuleResource foaf.Agent d (gt := acl.agentClass)); auto.
  - apply (effectiveAccess_removeEmpty RuleDefault foaf.Agent d (gt := acl.agentClass)); auto.
  - apply (effectiveAccess_removeEmpty RuleResource grantee d (gt := acl.agent)); auto.
  - apply (effectiveAccess_removeEmpty RuleDefault grantee d (gt := acl.agent)); auto.
  - apply (effectiveAccess_removeEmpty RuleResource grantee d (gt := acl.agentGroup)); auto.
  - apply (effectiveAccess_removeEmpty RuleDefault grantee d (gt := acl.agentGroup)); auto.
Qed.

Lemma ineffective_after_removeEmpty (d : AclDataset) (s : Subject) :
  ineffective (getThing (quads (internal_removeEmptyAclRules d)) s) = false.
Proof.
  rewrite getThing_removeEmpty.
  destruct (ineffective (getThing (quads d) s)) eqn:E; [reflexivity | exact E].
Qed.

Lemma filter_all (A : Type) (f : A -> bool) (l : list A) :
  (forall x, In x l -> f x = true) -> filter f l = l.
Proof.
  induction l as [|x l IH]; intros H; simpl; [reflexivity|].
  rewrite (H x (or_introl eq_refl)). f_equal. apply IH. intros y Hy. apply H. now right.
Qed.

Lemma filter_none (A : Type) (f : A -> bool) (l : list A) :
  (forall x, In x l -> f x = false) -> filter f l = [].
Proof.
  induction l as [|x l IH]; intros H; simpl; [reflexivity|].
  rewrite (H x (or_introl eq_refl)). apply IH. intros y Hy. apply H. now right.
Qed.

(** X4. After [internal_removeEmptyAclRules] no Authorization of the
    dataset is empty, and running it again changes nothing. *)
Theorem internal_removeEmptyAclRules_idempotent (d : AclDataset) :
  filter isEmptyAclRule (internal_getAclRules (internal_removeEmptyAclRules d)) = []
  /\ internal_removeEmptyAclRules (internal_removeEmptyAclRules d)
     = internal_removeEmptyAclRules d.
Proof.
  assert (None : filter isEmptyAclRule
                   (internal_getAclRules (internal_removeEmptyAclRules d)) = []).
  { apply filter_none. intros t Ht. unfold internal_getAclRules in Ht.
    apply filter_In in Ht. destruct Ht as [Ht Ha].
    apply getThingAll_In in Ht. destruct Ht as [s [_ ->]].
    pose proof (ineffective_after_removeEmpty d s) as H.
    unfold ineffective in H. rewrite Ha in H. exact H. }
  split; [exact None|].
  unfold internal_removeEmptyAclRules at 1. rewrite None. reflexivity.
Qed.

(** ** Fetching ACLs *)

Lemma internal_fetchResourceAcl_outcome
    (serverSolidDataset : string -> Outcome SolidDataset) (info : ResourceInfo) :
  match aclUrl info with
  | None => internal_fetchResourceAcl serverSolidDataset info = ([], Resolved None)
  | Some u =>
      fst (internal_fetchResourceAcl serverSolidDataset info) = [Get u]
      /\ snd (internal_fetchResourceAcl serverSolidDataset info)
         = match serverSolidDataset u with
           | Resolved sd =>
               Resolved (Some (mkAclDataset (sd_quads sd) (getSourceUrl info)
                                 (sd_resourceInfo sd)))
           | Rejected _ => Resolved None
           | Unsettled => Unsettled
           end
  end.
Proof.
  unfold internal_fetchResourceAcl, getSolidDataset.
  destruct (aclUrl info) as [u|]; simpl; [|reflexivity].
  destruct (serverSolidDataset u); simpl; split; reflexivity.
Qed.

(** X5. [internal_fetchResourceAcl] never rejects: without an ACL URL
    it answers [null] and sends nothing; with one it sends exactly one GET
    for it, and every failure of that GET becomes [null]; an ACL it returns
    has the fetched quads and is bound to the source URL of the resource it
    was asked for. *)
Theorem internal_fetchResourceAcl_spec
    (serverSolidDataset : string -> Outcome SolidDataset) (info : ResourceInfo) :
  (forall e, snd (internal_fetchResourceAcl serverSolidDataset info) <> Rejected e)
  /\ match aclUrl info with
     | None => internal_fetchResourceAcl serverSolidDataset info = ([], Resolved None)
     | Some u =>
         fst (internal_fetchResourceAcl serverSolidDataset info) = [Get u]
         /\ snd (internal_fetchResourceAcl serverSolidDataset info)
            = match serverSolidDataset u with
              | Resolved sd =>
                  Resolved (Some (mkAclDataset (sd_quads sd) (getSourceUrl info)
                                    (sd_resourceInfo sd)))
              | Rejected _ => Resolved None
              | Unsettled => Unsettled
              end
     end.
Proof.
  unfold internal_fetchResourceAcl, getSolidDataset.
  destruct (aclUrl info) as [u|]; simpl.
  - destruct (serverSolidDataset u); simpl; repeat split; discriminate.
  - split; [discriminate | reflexivity].
Qed.

Lemma last_slash (s : string) :
  hasSlash s = true ->
  exists pre post, s = pre ++ "/" ++ post /\ hasSlash post = false.
Proof.
  induction s as [|c s IH]; simpl; intros H; [discriminate|].
  destruct (hasSlash s) eqn:E.
  - destruct (IH eq_refl) as [pre [post [-> Hp]]].
    exists (String c pre), post. auto.
  - rewrite orb_false_r in H. apply Ascii.eqb_eq in H. subst c.
    exists "", s. auto.
Qed.

Lemma startsWithSlash_app (a b : string) :
  a <> "" -> startsWithSlash (a ++ b) = startsWithSlash a.
Proof. destruct a; [congruence | reflexivity]. Qed.

Lemma startsWithSlash_hasSlash (s : string) :
  startsWithSlash s = true -> hasSlash s = true.
Proof. destruct s; simpl; [discriminate|]. intros ->. reflexivity. Qed.

Lemma startsWithSlash_length (s : string) :
  startsWithSlash s = true -> 1 <= String.length s.
Proof. destruct s; simpl; [discriminate | lia]. Qed.

(** The container of an absolute path other than [/] is an absolute
    path, and a shorter one. *)
Lemma internal_getContainerPath_shorter (p : string) :
  startsWithSlash p = true -> p <> "/" ->
  startsWithSlash (internal_getContainerPath p) = true
  /\ String.length (internal_getContainerPath p) < String.length p.
Proof.
  intros Hs Hp.
  destruct (last_slash p (startsWithSlash_hasSlash p Hs)) as [pre [post [E Hpost]]].
  assert (Pre : forall q r, p = q ++ r -> startsWithSlash (q ++ "/") = true).
  { intros q r Eq. destruct q as [|x q]; [reflexivity|].
    rewrite Eq in Hs. exact Hs. }
  destruct post as [|c post].
  - (* the path ends with a slash *)
    destruct pre as [|x pre]; [subst p; now elim Hp|].
    assert (Hpre : hasSlash (String x pre) = true).
    { apply startsWithSlash_hasSlash. rewrite E in Hs. exact Hs. }
    destruct (last_slash _ Hpre) as [pre' [post' [E' Hpost']]].
    assert (Ep : p = pre' ++ "/" ++ post' ++ "/").
    { rewrite E, E', !append_assoc. reflexivity. }
    rewrite Ep at 1 2. rewrite internal_getContainerPath_trailing by exact Hpost'.
    split; [now apply (Pre pre' ("/" ++ post' ++ "/"))|].
    rewrite Ep, !length_append. simpl. lia.
  - (* it does not *)
    rewrite E at 1 2.
    rewrite internal_getContainerPath_plain by (exact Hpost || discriminate).
    split; [now apply (Pre pre ("/" ++ String c post))|].
    rewrite E, !length_append. simpl. lia.
Qed.

Lemma await_length (A B : Type) (m : Promise A) (k : A -> Promise B) (bound : nat) :
  (forall a, List.length (fst (k a)) <= bound) ->
  List.length (fst (await m k)) <= List.length (fst m) + bound.
Proof.
  intros H. destruct m as [log [a| |]]; simpl; try lia.
  specialize (H a). destruct (k a) as [log' out]. simpl in *.
  rewrite length_app. lia.
Qed.

(** The walk from the [k]th ancestor of a URL, when resolving the path
    of each container on the way gives a URL with that path. *)
Lemma internal_fetchFallbackAcl_settles_from
    (urlPathname urlOrigin : string -> string) (urlHref : string -> string -> string)
    (serverResourceInfo : string -> Outcome ResourceInfo)
    (serverSolidDataset : string -> Outcome SolidDataset)
    (url : string)
    (Hurl : urlsFollowPaths urlPathname urlOrigin urlHref url = true)
    (Hsource : forall u info, serverResourceInfo u = Resolved info ->
                              getSourceUrl info = u)
    (Hinfo : forall u, serverResourceInfo u <> Unsettled)
    (Hacl : forall u, serverSolidDataset u <> Unsettled)
    (fuel k : nat) (resource : ResourceInfo) :
  getSourceUrl resource = ancestorUrl urlPathname urlOrigin urlHref k url ->
  startsWithSlash (urlPathname (getSourceUrl resource)) = true ->
  k + String.length (urlPathname (getSourceUrl resource))
    <= String.length (urlPathname url) ->
  String.length (urlPathname (getSourceUrl resource)) <= S fuel ->
  snd (internal_fetchFallbackAcl urlPathname urlOrigin urlHref serverResourceInfo
         serverSolidDataset fuel resource) <> Unsettled
  /\ List.length
       (fst (internal_fetchFallbackAcl urlPathname urlOrigin urlHref
               serverResourceInfo serverSolidDataset fuel resource))
     <= 2 * (String.length (urlPathname (getSourceUrl resource)) - 1).
Proof.
  revert k resource.
  induction fuel as [|fuel IH]; intros k resource Hk Hpath Hlen Hfuel;
    rewrite internal_fetchFallbackAcl_unfold;
    destruct (String.eqb (urlPathname (getSourceUrl resource)) "/") eqn:Root;
    try (simpl; split; [discriminate | lia]);
    pose proof Root as Root';
    apply String.eqb_neq in Root;
    destruct (internal_getContainerPath_shorter Hpath Root) as [Hc Hshort];
    pose proof (startsWithSlash_length _ Hc) as Hc1.
  - (* no call left: the path is the root *)
    exfalso. lia.
  - unfold await at 1 3. unfold getResourceInfo.
    destruct (serverResourceInfo _) as [info| |] eqn:Hi;
      [|simpl; split; [discriminate | lia]|now elim (Hinfo _ Hi)].
    assert (Hk' : getSourceUrl info
                  = ancestorUrl urlPathname urlOrigin urlHref (S k) url).
    { rewrite (Hsource _ _ Hi). simpl ancestorUrl. unfold containerUrlOf.
      now rewrite <- Hk. }
    assert (Hp' : urlPathname (getSourceUrl info)
                  = internal_getContainerPath (urlPathname (getSourceUrl resource))).
    { unfold urlsFollowPaths in Hurl. rewrite forallb_forall in Hurl.
      assert (Hin : In k (seq 0 (String.length (urlPathname url))))
        by (apply in_seq; lia).
      apply Hurl in Hin. cbv zeta in Hin. rewrite <- Hk in Hin.
      rewrite Root' in Hin. simpl orb in Hin. apply String.eqb_eq in Hin.
      rewrite Hk'. simpl ancestorUrl. rewrite <- Hk. exact Hin. }
    cbv beta.
    destruct (negb (hasAccessibleAcl info));
      [unfold resolve; simpl; split; [discriminate | lia]|].
    pose proof (internal_fetchResourceAcl_outcome serverSolidDataset info) as Hf.
    destruct (aclUrl info) as [u|] eqn:Ha.
    + destruct Hf as [Hlog Hout].
      destruct (internal_fetchResourceAcl serverSolidDataset info) as [log out].
      simpl in Hlog, Hout. subst log.
      destruct (serverSolidDataset u) as [sd|e|] eqn:Hd; [| |now elim (Hacl _ Hd)];
        subst out; unfold await.
      * unfold resolve. simpl. split; [discriminate | lia].
      * destruct (IH (S k) info) as [A B];
          [exact Hk' | now rewrite Hp' | rewrite Hp'; lia | rewrite Hp'; lia |].
        destruct (internal_fetchFallbackAcl urlPathname urlOrigin urlHref
                    serverResourceInfo serverSolidDataset fuel info) as [log' out'].
        simpl in *. split; [exact A|]. rewrite Hp' in B. lia.
    + rewrite Hf. unfold await, resolve.
      destruct (IH (S k) info) as [A B];
        [exact Hk' | now rewrite Hp' | rewrite Hp'; lia | rewrite Hp'; lia |].
      destruct (internal_fetchFallbackAcl urlPathname urlOrigin urlHref
                  serverResourceInfo serverSolidDataset fuel info) as [log' out'].
      simpl in *. split; [exact A|]. rewrite Hp' in B. lia.
Qed.

(** X6. The walk settles within as many recursive calls as the path of
    the resource has characters, after at most two requests for each
    character dropped from the path, when the path of the resource starts
    with a slash, resolving the path of each container on the way against
    the origin gives a URL with that path, and the server answers every
    request and reports, for each resource, the URL it was asked for. *)
Theorem internal_fetchFallbackAcl_settles
    (urlPathname urlOrigin : string -> string) (urlHref : string -> string -> string)
    (serverResourceInfo : string -> Outcome ResourceInfo)
    (serverSolidDataset : string -> Outcome SolidDataset)
    (fuel : nat) (resource : ResourceInfo)
    (Hurl : urlsFollowPaths urlPathname urlOrigin urlHref (getSourceUrl resource)
            = true)
    (Hsource : forall u info, serverResourceInfo u = Resolved info ->
                              getSourceUrl info = u)
    (Hinfo : forall u, serverResourceInfo u <> Unsettled)
    (Hacl : forall u, serverSolidDataset u <> Unsettled)
    (Hpath : startsWithSlash (urlPathname (getSourceUrl resource)) = true)
    (Hfuel : String.length (urlPathname (getSourceUrl resource)) <= S fuel) :
  snd (internal_fetchFallbackAcl urlPathname urlOrigin urlHref serverResourceInfo
         serverSolidDataset fuel resource) <> Unsettled
  /\ List.length
       (fst (internal_fetchFallbackAcl urlPathname urlOrigin urlHref
               serverResourceInfo serverSolidDataset fuel resource))
     <= 2 * (String.length (urlPathname (getSourceUrl resource)) - 1).
Proof.
  apply (@internal_fetchFallbackAcl_settles_from urlPathname urlOrigin urlHref
           serverResourceInfo serverSolidDataset (getSourceUrl resource)
           Hurl Hsource Hinfo Hacl fuel 0 resource).
  - reflexivity.
  - exact Hpath.
  - simpl. lia.
  - exact Hfuel.
Qed.

Lemma internal_fetchFallbackAcl_settles_witness :
  urlsFollowPaths examplePathname exampleOrigin exampleHref
    (getSourceUrl exampleFetchedResource) = true
  /\ snd (internal_fetchFallbackAcl examplePathname exampleOrigin exampleHref
            exampleServerResourceInfo exampleServerSolidDataset 29
            exampleFetchedResource) <> Unsettled
  /\ List.length
       (fst (internal_fetchFallbackAcl examplePathname exampleOrigin exampleHref
               exampleServerResourceInfo exampleServerSolidDataset 29
               exampleFetchedResource))
     <= 2 * (String.length (examplePathname (getSourceUrl exampleFetchedResource)) - 1).
Proof.
  split; [vm_compute; reflexivity|].
  apply internal_fetchFallbackAcl_settles.
  - vm_compute. reflexivity.
  - intros u info. unfold exampleServerResourceInfo.
    destruct (String.eqb u "https://some.pod/with-acl/without-acl/");
      [intros H; injection H as <-; reflexivity|].
    destruct (String.eqb u "https://some.pod/with-acl/");
      [intros H; injection H as <-; reflexivity | discriminate].
  - intros u. unfold exampleServerResourceInfo.
    destruct (String.eqb u "https://some.pod/with-acl/without-acl/"); [discriminate|].
    destruct (String.eqb u "https://some.pod/with-acl/"); discriminate.
  - intros u. unfold exampleServerSolidDataset.
    destruct (String.eqb u "https://some.pod/with-acl/without-acl/.acl"); [discriminate|].
    destruct (String.eqb u "https://some.pod/with-acl/.acl"); discriminate.
  - reflexivity.
  - apply Nat.leb_le. reflexivity.
Defined.

(** One step of the walk, request by request. *)
Lemma internal_fetchFallbackAcl_step
    (urlPathname urlOrigin : string -> string) (urlHref : string -> string -> string)
    (serverResourceInfo : string -> Outcome ResourceInfo)
    (serverSolidDataset : string -> Outcome SolidDataset)
    (fuel : nat) (resource : ResourceInfo) :
  let containerUrl :=
    urlHref (internal_getContainerPath (urlPathname (getSourceUrl resource)))
      (urlOrigin (getSourceUrl resource)) in
  internal_fetchFallbackAcl urlPathname urlOrigin urlHref serverResourceInfo
    serverSolidDataset fuel resource
  = if String.eqb (urlPathname (getSourceUrl resource)) "/" then ([], Resolved None)
    else
      match serverResourceInfo containerUrl with
      | Rejected e => ([Head containerUrl], Rejected e)
      | Unsettled => ([Head containerUrl], Unsettled)
      | Resolved info =>
          match aclUrl info with
          | None => ([Head containerUrl], Resolved None)
          | Some a =>
              match serverSolidDataset a with
              | Resolved sd =>
                  ([Head containerUrl; Get a],
                   Resolved (Some (mkAclDataset (sd_quads sd) (getSourceUrl info)
                                     (sd_resourceInfo sd))))
              | Unsettled => ([Head containerUrl; Get a], Unsettled)
              | Rejected _ =>
                  let next :=
                    match fuel with
                    | O => ([], Unsettled)
                    | S fuel' =>
                        internal_fetchFallbackAcl urlPathname urlOrigin urlHref
                          serverResourceInfo serverSolidDataset fuel' info
                    end in
                  (Head containerUrl :: Get a :: fst next, snd next)
              end
          end
      end.
Proof.
  intros containerUrl. rewrite internal_fetchFallbackAcl_unfold. fold containerUrl.
  destruct (String.eqb (urlPathname (getSourceUrl resource)) "/"); [reflexivity|].
  unfold await at 1. unfold getResourceInfo.
  destruct (serverResourceInfo containerUrl) as [info| |]; [|reflexivity|reflexivity].
  unfold hasAccessibleAcl, internal_fetchResourceAcl, getSolidDataset.
  destruct (aclUrl info) as [a|]; [|reflexivity]. simpl negb. cbv iota.
  destruct (serverSolidDataset a) as [sd|e|]; [reflexivity| |reflexivity].
  unfold tryCatch, await, resolve. simpl.
  destruct fuel as [|fuel']; [reflexivity|].
  destruct (internal_fetchFallbackAcl urlPathname urlOrigin urlHref
              serverResourceInfo serverSolidDataset fuel' info); reflexivity.
Qed.

(** X7. An ACL the walk returns was fetched from the ACL URL of a
    container the walk asked the server about, and is bound to the URL the
    server reported for that container; the resource the walk started from
    is not the root. *)
Theorem internal_fetchFallbackAcl_provenance
    (urlPathname urlOrigin : string -> string) (urlHref : string -> string -> string)
    (serverResourceInfo : string -> Outcome ResourceInfo)
    (serverSolidDataset : string -> Outcome SolidDataset)
    (fuel : nat) (resource : ResourceInfo) (acl : AclDataset)
    (H : snd (internal_fetchFallbackAcl urlPathname urlOrigin urlHref
                serverResourceInfo serverSolidDataset fuel resource)
         = Resolved (Some acl)) :
  urlPathname (getSourceUrl resource) <> "/"
  /\ exists containerUrl containerInfo containerAclUrl fetched,
       In (Head containerUrl)
         (fst (internal_fetchFallbackAcl urlPathname urlOrigin urlHref
                 serverResourceInfo serverSolidDataset fuel resource))
       /\ In (Get containerAclUrl)
            (fst (internal_fetchFallbackAcl urlPathname urlOrigin urlHref
                    serverResourceInfo serverSolidDataset fuel resource))
       /\ serverResourceInfo containerUrl = Resolved containerInfo
       /\ aclUrl containerInfo = Some containerAclUrl
       /\ serverSolidDataset containerAclUrl = Resolved fetched
       /\ acl = mkAclDataset (sd_quads fetched) (getSourceUrl containerInfo)
                  (sd_resourceInfo fetched).
Proof.
  revert resource H. induction fuel as [|fuel IH]; intros resource;
    rewrite internal_fetchFallbackAcl_step; cbv zeta;
    (destruct (String.eqb (urlPathname (getSourceUrl resource)) "/") eqn:Root;
     [discriminate|]);
    apply String.eqb_neq in Root;
    (destruct (serverResourceInfo _) as [info| |] eqn:Hi; [|discriminate|discriminate]);
    (destruct (aclUrl info) as [a|] eqn:Ha; [|discriminate]);
    (destruct (serverSolidDataset a) as [sd|e|] eqn:Hd; [| |discriminate]);
    simpl; intros H; try discriminate; (split; [exact Root|]).
  - injection H as <-. eexists; exists info, a, sd. repeat split; eauto.
  - injection H as <-. eexists; exists info, a, sd. repeat split; eauto.
  - destruct (IH info H) as [_ [cu [ci [ca [f [A [B C]]]]]]].
    exists cu, ci, ca, f. repeat split; try tauto; right; right; assumption.
Qed.

Lemma internal_fetchFallbackAcl_provenance_witness :
  examplePathname (getSourceUrl exampleFetchedResource) <> "/"
  /\ exists containerUrl containerInfo containerAclUrl fetched,
       In (Head containerUrl)
         (fst (internal_fetchFallbackAcl examplePathname exampleOrigin exampleHref
                 exampleServerResourceInfo exampleServerSolidDataset 3
                 exampleFetchedResource))
       /\ In (Get containerAclUrl)
            (fst (internal_fetchFallbackAcl examplePathname exampleOrigin exampleHref
                    exampleServerResourceInfo exampleServerSolidDataset 3
                    exampleFetchedResource))
       /\ exampleServerResourceInfo containerUrl = Resolved containerInfo
       /\ aclUrl containerInfo = Some containerAclUrl
       /\ exampleServerSolidDataset containerAclUrl = Resolved fetched
       /\ mkAclDataset [] "https://some.pod/with-acl/"
            (mkResourceInfo "https://some.pod/with-acl/.acl" None)
          = mkAclDataset (sd_quads fetched) (getSourceUrl containerInfo)
              (sd_resourceInfo fetched).
Proof.
  apply (internal_fetchFallbackAcl_provenance examplePathname exampleOrigin
           exampleHref exampleServerResourceInfo exampleServerSolidDataset 3
           exampleFetchedResource).
  reflexivity.
Defined.

(** ** The mutators, in general *)

Lemma setPublicResourceAccess_as_setPublicAccessFor (gen : nat -> string) :
  setPublicResourceAccess gen = setPublicAccessFor gen RuleResource.
Proof. reflexivity. Qed.

Lemma setPublicDefaultAccess_as_setPublicAccessFor (gen : nat -> string) :
  setPublicDefaultAccess gen = setPublicAccessFor gen RuleDefault.
Proof. reflexivity. Qed.

Lemma filterPublicRules_splitLoop (gen : nat -> string) (X : string) (ty : RuleType)
    (rules : list AclRule) (cur : AclDataset) (n : nat) :
  filterPublicRules gen rules X ty cur n
  = splitLoop (fun r => removePublicFromRule gen r X ty) rules cur n.
Proof.
  revert cur n. induction rules as [|r rest IH]; intros cur n; [reflexivity|].
  rewrite filterPublicRules_cons, IH. simpl.
  now rewrite (proj1 (removePublicFromRule_spec gen r X ty n)).
Qed.

Lemma removePublicFromRule_WellSplit (gen : nat -> string) (X : string) (ty : RuleType) :
  WellSplit gen (fun r => removePublicFromRule gen r X ty).
Proof.
  intros r n. pose proof (removePublicFromRule_spec gen r X ty n) as [A [B [C _]]].
  auto.
Qed.

(** After the loop, what a subject grants is what the second half of
    some split grants (the subject is one of the names drawn), or what the
    first half of some split grants (the subject is one of the rules), or
    what it granted before. *)
Lemma splitLoop_grant (gen : nat -> string)
    (split : AclRule -> Fresh (AclRule * AclRule)) (Hsplit : WellSplit gen split)
    (ty : RuleType) (target gt g : string) (rules : list Thing) :
  forall (cur : AclDataset) (n : nat),
    let out := fst (splitLoop split rules cur n) in
    snd (splitLoop split rules cur n) = n + List.length rules
    /\ internal_accessTo out = internal_accessTo cur
    /\ forall s,
         (exists r k, In r rules /\ n <= k < n + List.length rules
            /\ s = LocalSubject (gen k)
            /\ grant ty target gt g (getThing (quads out) s)
               = grant ty target gt g (snd (fst (split r k))))
         \/ (exists r k, In r rules /\ s = thing_subject r
               /\ grant ty target gt g (getThing (quads out) s)
                  = grant ty target gt g (fst (fst (split r k))))
         \/ ((forall r, In r rules -> s <> thing_subject r)
             /\ grant ty target gt g (getThing (quads out) s)
                = grant ty target gt g (getThing (quads cur) s)).
Proof.
  induction rules as [|r rest IH]; intros cur n.
  - simpl. split; [lia|]. split; [reflexivity|].
    intros s. right. right. split; [intros r []|reflexivity].
  - simpl splitLoop. destruct (Hsplit r n) as [Hn [Sf Sr]]. rewrite Hn.
    set (f := fst (fst (split r n))) in *.
    set (rem := snd (fst (split r n))) in *.
    destruct (IH (setThing (setThing cur f) rem) (S n)) as [Hn' [Ha Hs]].
    split; [rewrite Hn'; simpl; lia|]. split; [rewrite Ha; reflexivity|].
    intros s.
    destruct (Hs s) as [[r' [k [Hr [Hk [E H]]]]]|[[r' [k [Hr [E H]]]]|[Hno H]]].
    + left. exists r', k. split; [now right|]. split; [simpl; lia|]. auto.
    + right. left. exists r', k. split; [now right|]. auto.
    + rewrite !grant_setThing in H. rewrite Sf, Sr in H.
      destruct (subject_eqb s (LocalSubject (gen n))) eqn:E1.
      * left. exists r, n. apply subject_eqb_eq in E1.
        split; [now left|]. split; [simpl; lia|]. auto.
      * destruct (subject_eqb s (thing_subject r)) eqn:E2.
        { right. left. exists r, n. apply subject_eqb_eq in E2.
          split; [now left|]. auto. }
        { right. right. split; [|exact H].
          intros r' [<-|Hr']; [now apply subject_eqb_neq | now apply Hno]. }
Qed.

Lemma freshNames_spec (gen : nat -> string) (n : nat) (d : AclDataset) :
  freshNames gen n d = true ->
  forall i, n <= i < S (n + List.length (getThingAll d)) ->
            ~ In (LocalSubject (gen i)) (subjectsOf (quads d)).
Proof.
  intros Hfresh i Hi Hin. unfold freshNames in Hfresh.
  rewrite forallb_forall in Hfresh.
  assert (Hseq : In i (seq n (S (List.length (getThingAll d)))))
    by (apply in_seq; lia).
  apply Hfresh in Hseq. apply negb_true_iff in Hseq.
  assert (X : existsb (subject_eqb (LocalSubject (gen i))) (subjectsOf (quads d)) = true).
  { apply existsb_exists. exists (LocalSubject (gen i)).
    split; [exact Hin | apply subject_eqb_refl]. }
  congruence.
Qed.

(** A mutator in general: split every Thing, store the new rule, take
    the empty rules out. *)
Lemma mutator_grant (ty : RuleType) (target gt g : string)
    (out : AclDataset) (newRule : Thing) (s : Subject) :
  gt = acl.agent \/ gt = acl.agentGroup \/ gt = acl.agentClass ->
  grant ty target gt g
    (getThing (quads (internal_removeEmptyAclRules (setThing out newRule))) s)
  = if subject_eqb s (thing_subject newRule) then grant ty target gt g newRule
    else grant ty target gt g (getThing (quads out) s).
Proof.
  intros Hgt. rewrite grant_removeEmpty by exact Hgt. apply grant_setThing.
Qed.

(** When neither half of a split grants anything to the grantee, the
    grantee has what the new rule grants. *)
Lemma mutator_sets (gen : nat -> string)
    (split : AclRule -> Fresh (AclRule * AclRule)) (Hsplit : WellSplit gen split)
    (ty : RuleType) (gt g : string) (S0 : AclDataset) (n : nat) (newRule : Thing) :
  gt = acl.agent \/ gt = acl.agentGroup \/ gt = acl.agentClass ->
  (forall r k, In r (getThingAll S0) ->
     grant ty (internal_accessTo S0) gt g (snd (fst (split r k))) = noAccess) ->
  (forall r k, In r (getThingAll S0) ->
     grant ty (internal_accessTo S0) gt g (fst (fst (split r k))) = noAccess) ->
  effectiveAccess ty gt g
    (internal_removeEmptyAclRules
       (setThing (fst (splitLoop split (getThingAll S0) S0 n)) newRule))
  = normalise (grant ty (internal_accessTo S0) gt g newRule).
Proof.
  intros Hgt Hrem Hf.
  destruct (splitLoop_grant Hsplit ty (internal_accessTo S0) gt g (getThingAll S0) S0 n)
    as [_ [Ha Hs]].
  apply effectiveAccess_single with (s0 := thing_subject newRule).
  intros s. rewrite internal_removeEmptyAclRules_accessTo, setThing_accessTo, Ha.
  rewrite mutator_grant by exact Hgt.
  destruct (subject_eqb s (thing_subject newRule)); [reflexivity|].
  destruct (Hs s) as [[r [k [Hr [_ [_ H]]]]]|[[r [k [Hr [_ H]]]]|[Hno H]]].
  - rewrite H. now apply Hrem.
  - rewrite H. now apply Hf.
  - rewrite H. apply grant_absent. now apply getThingAll_subject.
Qed.

(** When the first half of a split grants the grantee what the rule
    granted, and neither the second half nor the new rule grants it
    anything, the grantee has what it had, as long as the names drawn are
    new. *)
Lemma mutator_frames (gen : nat -> string)
    (split : AclRule -> Fresh (AclRule * AclRule)) (Hsplit : WellSplit gen split)
    (ty : RuleType) (gt g : string) (S0 : AclDataset) (n : nat) (newRule : Thing) :
  gt = acl.agent \/ gt = acl.agentGroup \/ gt = acl.agentClass ->
  freshNames gen n S0 = true ->
  thing_subject newRule = LocalSubject (gen (n + List.length (getThingAll S0))) ->
  grant ty (internal_accessTo S0) gt g newRule = noAccess ->
  (forall r k, In r (getThingAll S0) ->
     grant ty (internal_accessTo S0) gt g (snd (fst (split r k))) = noAccess) ->
  (forall r k, In r (getThingAll S0) ->
     grant ty (internal_accessTo S0) gt g (fst (fst (split r k)))
     = grant ty (internal_accessTo S0) gt g r) ->
  effectiveAccess ty gt g
    (internal_removeEmptyAclRules
       (setThing (fst (splitLoop split (getThingAll S0) S0 n)) newRule))
  = effectiveAccess ty gt g S0.
Proof.
  intros Hgt Hfresh Hsubj Hnew Hrem Hf.
  pose proof (@freshNames_spec gen n S0 Hfresh) as Fresh.
  destruct (splitLoop_grant Hsplit ty (internal_accessTo S0) gt g (getThingAll S0) S0 n)
    as [_ [Ha Hs]].
  apply effectiveAccess_ext.
  - now rewrite internal_removeEmptyAclRules_accessTo, setThing_accessTo.
  - intros s. rewrite internal_removeEmptyAclRules_accessTo, setThing_accessTo, Ha.
    rewrite mutator_grant by exact Hgt.
    destruct (subject_eqb s (thing_subject newRule)) eqn:E.
    + apply subject_eqb_eq in E. subst s. rewrite Hnew, Hsubj. symmetry.
      apply grant_absent. apply Fresh. lia.
    + destruct (Hs s) as [[r [k [Hr [Hk [-> H]]]]]|[[r [k [Hr [-> H]]]]|[Hno H]]].
      * rewrite H, Hrem by exact Hr. symmetry. apply grant_absent. apply Fresh. lia.
      * rewrite H, Hf by exact Hr.
        apply getThingAll_In in Hr. destruct Hr as [s' [_ ->]]. reflexivity.
      * exact H.
Qed.

(** ** The new rule of a mutator *)

Lemma internal_initialiseAclRule_In (gen : nat -> string) (M : Access) (n : nat)
    (st : Statement) :
  In st (thing_statements (fst (internal_initialiseAclRule gen M n))) ->
  fst st = rdf.type \/ fst st = acl.mode.
Proof.
  destruct M as [[] [] [] []]; cbn; intros H;
    repeat (destruct H as [<-|H]; [cbn; tauto|]); contradiction.
Qed.

(** The rule a mutator adds: an initialised rule with a target and a
    grantee set. *)
Lemma newRule_statements (gen : nat -> string) (M : Access) (n : nat)
    (p1 v1 p2 v2 : string) :
  p1 <> rdf.type -> p1 <> acl.mode -> p2 <> rdf.type -> p2 <> acl.mode -> p1 <> p2 ->
  let newRule :=
    setIri (setIri (fst (internal_initialiseAclRule gen M n)) p1 v1) p2 v2 in
  thing_subject newRule = LocalSubject (gen n)
  /\ isAclRule newRule = true
  /\ internal_getAccess newRule = normalise M
  /\ (forall p i, In (p, NamedNode i) (thing_statements newRule) ->
        (p = p1 /\ i = v1) \/ (p = p2 /\ i = v2) \/ p = rdf.type \/ p = acl.mode)
  /\ In (p1, NamedNode v1) (thing_statements newRule)
  /\ In (p2, NamedNode v2) (thing_statements newRule).
Proof.
  intros H1t H1m H2t H2m H12 newRule.
  pose proof (internal_initialiseAclRule_facts gen M n) as [Acc [Rule Subj]].
  assert (Same : forall p, p <> p1 -> p <> p2 ->
            sameIris newRule (fst (internal_initialiseAclRule gen M n)) p).
  { intros p A B i. unfold newRule. rewrite !setIri_In. cbn [fst]. split.
    - intros [[[[H _]|H] _]|H]; [exact H| |]; inversion H; congruence.
    - intros H. left. split; [|exact B]. left. split; [exact H | exact A]. }
  split; [unfold newRule; rewrite !setIri_subject; exact Subj|].
  split.
  { unfold isAclRule. rewrite (includes_sameIris (t1 := newRule)
                                 (t2 := fst (internal_initialiseAclRule gen M n)));
      [exact Rule | apply Same; congruence]. }
  split.
  { rewrite <- Acc. apply internal_getAccess_ext. apply Same; congruence. }
  split.
  { intros p i H. unfold newRule in H. apply setIri_In in H.
    destruct H as [[H _]|H]; [|inversion H; tauto].
    apply setIri_In in H. destruct H as [[H _]|H]; [|inversion H; tauto].
    apply internal_initialiseAclRule_In in H. cbn [fst] in H. tauto. }
  split.
  { unfold newRule. apply setIri_In. left. split; [|cbn [fst]; exact H12].
    apply setIri_In. now right. }
  unfold newRule. apply setIri_In. now right.
Qed.

Lemma setPublicAccessFor_unfold (gen : nat -> string) (ty : RuleType)
    (S0 : AclDataset) (M : Access) (n : nat) :
  fst (setPublicAccessFor gen ty S0 M n)
  = internal_removeEmptyAclRules
      (setThing
         (fst (splitLoop (fun r => removePublicFromRule gen r (internal_accessTo S0) ty)
                 (getThingAll S0) S0 n))
         (setIri (setIri (fst (internal_initialiseAclRule gen M
                                 (n + List.length (getThingAll S0))))
                    (targetProperty ty) (internal_accessTo S0))
            acl.agentClass foaf.Agent)).
Proof.
  unfold setPublicAccessFor, bind. rewrite filterPublicRules_splitLoop.
  pose proof (splitLoop_grant (removePublicFromRule_WellSplit gen (internal_accessTo S0) ty)
                RuleResource "" "" "" (getThingAll S0) S0 n) as [Hn _].
  destruct (splitLoop _ (getThingAll S0) S0 n) as [out n1]. simpl in Hn. subst n1.
  cbn [fst]. destruct (internal_initialiseAclRule gen M _) as [nr n2]. reflexivity.
Qed.

Lemma targetProperty_distinct (ty : RuleType) :
  targetProperty ty <> rdf.type /\ targetProperty ty <> acl.mode
  /\ targetProperty ty <> acl.agentClass /\ targetProperty ty <> acl.agentGroup
  /\ targetProperty ty <> acl.agent /\ targetProperty ty <> acl.defaultForNew
  /\ targetProperty (otherScope ty) <> targetProperty ty.
Proof. destruct ty; repeat split; distinct_iris. Qed.

(** What the new rule of [setPublicResourceAccess] and of
    [setPublicDefaultAccess] grants. *)
Lemma publicNewRule_grant (gen : nat -> string) (ty tyq : RuleType)
    (X : string) (M : Access) (n : nat) (gt g : string) :
  gt = acl.agent \/ gt = acl.agentGroup \/ gt = acl.agentClass ->
  let newRule :=
    setIri (setIri (fst (internal_initialiseAclRule gen M n)) (targetProperty ty) X)
      acl.agentClass foaf.Agent in
  thing_subject newRule = LocalSubject (gen n)
  /\ grant tyq X gt g newRule
     = if (match ty, tyq with
           | RuleResource, RuleResource | RuleDefault, RuleDefault => true
           | _, _ => false
           end)
          && (String.eqb gt acl.agentClass && String.eqb g foaf.Agent)
       then normalise M else noAccess.
Proof.
  intros Hgt newRule.
  destruct (targetProperty_distinct ty) as [D1 [D2 [D3 [D4 [D5 [D6 D7]]]]]].
  destruct (newRule_statements gen M n (p1 := targetProperty ty) X
              (p2 := acl.agentClass) foaf.Agent D1 D2)
    as [Subj [Rule [Acc [Only [In1 In2]]]]]; try distinct_iris; try exact D3.
  fold newRule in Subj, Rule, Acc, Only, In1, In2.
  split; [exact Subj|].
  unfold grant. rewrite Rule, Acc. cbn [andb].
  assert (Sc : scopeTest tyq newRule X
               = match ty, tyq with
                 | RuleResource, RuleResource | RuleDefault, RuleDefault => true
                 | _, _ => false
                 end).
  { apply bool_ext. destruct ty, tyq; simpl; unfold appliesToResource, isDefaultForResource;
      rewrite ?orb_true_iff, !includes_getIriAll; split; intros H; try discriminate; auto.
    - destruct H as [H|H]; apply Only in H;
        destruct H as [[H _]|[[H _]|[H|H]]];
        apply String.eqb_eq in H; vm_compute in H; discriminate H.
    - apply Only in H. destruct H as [[H _]|[[H _]|[H|H]]];
        apply String.eqb_eq in H; vm_compute in H; discriminate H. }
  assert (Gr : namesGrantee newRule gt g
               = (String.eqb gt acl.agentClass && String.eqb g foaf.Agent)).
  { apply bool_ext. unfold namesGrantee.
    rewrite includes_getIriAll, andb_true_iff, !String.eqb_eq. split.
    - intros H. apply Only in H. destruct H as [[H _]|[H|[H|H]]]; [|exact H| |];
        exfalso; subst gt;
        destruct Hgt as [Q|[Q|Q]]; try (now apply D5 in Q); try (now apply D4 in Q);
          try (now apply D3 in Q);
          apply String.eqb_eq in Q; vm_compute in Q; discriminate Q.
    - intros [-> ->]. exact In2. }
  rewrite Sc, Gr. reflexivity.
Qed.

(** ** Setting the default access of the public *)

(** Where the statements of the second half of a split come from: the
    rule that was split, which then names the public, or the two
    statements the split adds. *)
Lemma removePublicFromRule_rem_In (gen : nat -> string) (r : AclRule) (X : string)
    (ty : RuleType) (k : nat) (st : Statement) :
  In st (thing_statements (snd (fst (removePublicFromRule gen r X ty k)))) ->
  st = (rdf.type, NamedNode acl.Authorization)
  \/ st = (acl.agentClass, NamedNode foaf.Agent)
  \/ (In st (thing_statements r) /\ appliesToClass r foaf.Agent = true).
Proof.
  unfold appliesToClass.
  destruct (includes (getIriAll r acl.agentClass) foaf.Agent) eqn:E.
  - rewrite (removePublicFromRule_public gen r X ty k E). cbn [fst snd].
    intros H. apply removeIri_In in H. destruct H as [H _].
    apply removeAll_In in H. destruct H as [H _].
    apply removeAll_In in H. destruct H as [H _].
    apply setIri_In in H. destruct H as [[H _]|H]; [|auto].
    apply internal_duplicateAclRule_In in H.
    destruct H as [H|[p [i [_ [_ H]]]]]; auto.
  - rewrite (removePublicFromRule_other gen r X ty k E). cbn [fst snd thing_statements].
    intros [<-|[]]. now left.
Qed.

Lemma noPublicDefaultForNew_spec (d : AclDataset) (r : Thing) :
  noPublicDefaultForNew d = true -> In r (getThingAll d) ->
  appliesToClass r foaf.Agent = true ->
  ~ In (acl.defaultForNew, NamedNode (internal_accessTo d)) (thing_statements r).
Proof.
  intros H Hr Hp Hin. unfold noPublicDefaultForNew in H.
  rewrite forallb_forall in H. specialize (H r Hr).
  apply negb_true_iff in H. rewrite Hp in H.
  apply includes_getIriAll in Hin. rewrite Hin in H. discriminate.
Qed.

Lemma public_effectiveAccess_set (gen : nat -> string) (ty : RuleType)
    (S0 : AclDataset) (M : Access) (n : nat) :
  (ty = RuleDefault -> noPublicDefaultForNew S0 = true) ->
  effectiveAccess ty acl.agentClass foaf.Agent (fst (setPublicAccessFor gen ty S0 M n))
  = normalise M.
Proof.
  intros Hyp. rewrite setPublicAccessFor_unfold.
  rewrite (mutator_sets (removePublicFromRule_WellSplit gen (internal_accessTo S0) ty)).
  - destruct (publicNewRule_grant gen ty ty (internal_accessTo S0) M
                (n + List.length (getThingAll S0)) (gt := acl.agentClass) foaf.Agent)
      as [_ G]; [auto|].
    rewrite G. rewrite !String.eqb_refl.
    destruct ty; cbn [andb]; apply normalise_idem.
  - auto.
  - intros r k Hr. unfold grant.
    destruct (scopeTest ty _ (internal_accessTo S0)) eqn:Sc;
      [|now rewrite andb_false_r].
    exfalso.
    pose proof (removePublicFromRule_spec gen r (internal_accessTo S0) ty k)
      as [_ [_ [_ [_ [_ [_ Hno]]]]]].
    destruct ty; simpl in Sc, Hno.
    + apply includes_getIriAll in Sc. contradiction.
    + unfold isDefaultForResource in Sc. apply orb_true_iff in Sc.
      destruct Sc as [Sc|Sc]; apply includes_getIriAll in Sc; [contradiction|].
      apply removePublicFromRule_rem_In in Sc.
      destruct Sc as [Q|[Q|[Q P]]]; try discriminate Q.
      exact (noPublicDefaultForNew_spec S0 r (Hyp eq_refl) Hr P Q).
  - intros r k _. apply split_grants_no_public.
Qed.

(** X8. When no Thing names the public together with an
    [acl:defaultForNew] for the container, [setPublicDefaultAccess] makes
    the public's default access the access asked for, with append raised by
    write, whatever it was before. *)
Theorem setPublicDefaultAccess_public_access
    (gen : nat -> string) (S0 : AclDataset) (M : Access) (n : nat)
    (Hdefault : noPublicDefaultForNew S0 = true) :
  getPublicDefaultAccess (fst (setPublicDefaultAccess gen S0 M n)) = normalise M.
Proof.
  change (effectiveAccess RuleDefault acl.agentClass foaf.Agent
            (fst (setPublicAccessFor gen RuleDefault S0 M n)) = normalise M).
  apply public_effectiveAccess_set. intros _. exact Hdefault.
Qed.

Lemma setPublicDefaultAccess_public_access_witness :
  getPublicDefaultAccess
    (fst (setPublicDefaultAccess exampleNames exampleAcl
            (mkAccess true false true false) 0))
  = normalise (mkAccess true false true false).
Proof.
  apply setPublicDefaultAccess_public_access. reflexivity.
Defined.

Lemma public_effectiveAccess_frame (gen : nat -> string) (ty tyq : RuleType)
    (gt grantee : string) (S0 : AclDataset) (M : Access) (n : nat) :
  gt = acl.agent \/ gt = acl.agentGroup ->
  freshNames gen n S0 = true ->
  effectiveAccess tyq gt grantee (fst (setPublicAccessFor gen ty S0 M n))
  = effectiveAccess tyq gt grantee S0.
Proof.
  intros Hgt Hfresh. rewrite setPublicAccessFor_unfold.
  destruct (publicNewRule_grant gen ty tyq (internal_accessTo S0) M
              (n + List.length (getThingAll S0)) (gt := gt) grantee)
    as [Subj G]; [tauto|].
  apply (mutator_frames (removePublicFromRule_WellSplit gen (internal_accessTo S0) ty)).
  - tauto.
  - exact Hfresh.
  - exact Subj.
  - rewrite G. replace (String.eqb gt acl.agentClass) with false
      by (destruct Hgt; subst; reflexivity).
    now rewrite andb_false_r.
  - intros r k _. now apply rem_grants_no_other.
  - intros r k _. now apply split_grants_other.
Qed.

(** X9. [setPublicDefaultAccess] leaves the access of every agent and
    of every group as it was, for the container and by default, when the
    names drawn for the new Things are names of no Thing of the dataset. *)
Theorem setPublicDefaultAccess_frame
    (gen : nat -> string) (S0 : AclDataset) (M : Access) (n : nat)
    (Hfresh : freshNames gen n S0 = true) (grantee : string) :
  getAgentResourceAccess (fst (setPublicDefaultAccess gen S0 M n)) grantee
    = getAgentResourceAccess S0 grantee
  /\ getAgentDefaultAccess (fst (setPublicDefaultAccess gen S0 M n)) grantee
    = getAgentDefaultAccess S0 grantee
  /\ getGroupResourceAccess (fst (setPublicDefaultAccess gen S0 M n)) grantee
    = getGroupResourceAccess S0 grantee
  /\ getGroupDefaultAccess (fst (setPublicDefaultAccess gen S0 M n)) grantee
    = getGroupDefaultAccess S0 grantee.
Proof.
  repeat split.
  - apply (public_effectiveAccess_frame gen RuleDefault RuleResource
             (gt := acl.agent) grantee S0 M n); auto.
  - apply (public_effectiveAccess_frame gen RuleDefault RuleDefault
             (gt := acl.agent) grantee S0 M n); auto.
  - apply (public_effectiveAccess_frame gen RuleDefault RuleResource
             (gt := acl.agentGroup) grantee S0 M n); auto.
  - apply (public_effectiveAccess_frame gen RuleDefault RuleDefault
             (gt := acl.agentGroup) grantee S0 M n); auto.
Qed.

Lemma setPublicDefaultAccess_frame_witness :
  getAgentResourceAccess
    (fst (setPublicDefaultAccess exampleNames exampleAcl
            (mkAccess true false false false) 0)) exampleAgent
  = getAgentResourceAccess exampleAcl exampleAgent.
Proof.
  exact (proj1 (setPublicDefaultAccess_frame exampleNames exampleAcl
                  (mkAccess true false false false) 0 eq_refl exampleAgent)).
Defined.

(** X10. Of two calls of [setPublicResourceAccess] the last one
    decides: the public has the access the second call asked for, which is
    what one call would have given; asking twice for the same access is
    asking once. *)
Theorem setPublicResourceAccess_last_wins
    (gen : nat -> string) (S0 : AclDataset) (M1 M2 : Access) (n n' : nat) :
  getPublicResourceAccess
    (fst (setPublicResourceAccess gen
            (fst (setPublicResourceAccess gen S0 M1 n)) M2 n'))
  = getPublicResourceAccess (fst (setPublicResourceAccess gen S0 M2 n))
  /\ getPublicResourceAccess
       (fst (setPublicResourceAccess gen
               (fst (setPublicResourceAccess gen S0 M1 n)) M1 n'))
     = getPublicResourceAccess (fst (setPublicResourceAccess gen S0 M1 n)).
Proof.
  assert (Set_ : forall d M k,
            getPublicResourceAccess (fst (setPublicResourceAccess gen d M k))
            = normalise M).
  { intros d M k.
    change (effectiveAccess RuleResource acl.agentClass foaf.Agent
              (fst (setPublicAccessFor gen RuleResource d M k)) = normalise M).
    apply public_effectiveAccess_set. discriminate. }
  rewrite !Set_. split; reflexivity.
Qed.

(** ** The other scope of the public *)

Lemma effectiveAccess_iff (ty : RuleType) (gt g : string) (d1 d2 : AclDataset) :
  internal_accessTo d1 = internal_accessTo d2 ->
  (forall f : Access -> bool, f noAccess = false ->
     (exists s, f (grant ty (internal_accessTo d1) gt g (getThing (quads d1) s)) = true)
     <-> (exists s, f (grant ty (internal_accessTo d1) gt g (getThing (quads d2) s)) = true)) ->
  effectiveAccess ty gt g d1 = effectiveAccess ty gt g d2.
Proof.
  intros E H. unfold effectiveAccess.
  rewrite !internal_combineAccessModes_fields.
  assert (X : forall f, f noAccess = false ->
    existsb f (map internal_getAccess
       (filter (fun rule => namesGrantee rule gt g)
          (filter (fun rule => scopeTest ty rule (internal_accessTo d1))
             (internal_getAclRules d1))))
    = existsb f (map internal_getAccess
       (filter (fun rule => namesGrantee rule gt g)
          (filter (fun rule => scopeTest ty rule (internal_accessTo d2))
             (internal_getAclRules d2))))).
  { intros f F. apply bool_ext. rewrite !selected_field by exact F.
    rewrite <- E. now apply H. }
  rewrite (X read eq_refl), (X append eq_refl), (X write eq_refl), (X control eq_refl).
  reflexivity.
Qed.

(** When the names drawn are new and differ from one another, the
    second half of the split of the [j]-th rule is what its name holds
    after the loop. *)
Lemma splitLoop_rem (gen : nat -> string)
    (split : AclRule -> Fresh (AclRule * AclRule)) (Hsplit : WellSplit gen split)
    (ty : RuleType) (target gt g : string) (rules : list Thing) :
  forall (cur : AclDataset) (n : nat),
    (forall k r, n <= k < n + List.length rules -> In r rules ->
                 LocalSubject (gen k) <> thing_subject r) ->
    (forall i j, n <= i < n + List.length rules -> n <= j < n + List.length rules ->
                 gen i = gen j -> i = j) ->
    forall j r, nth_error rules j = Some r ->
      grant ty target gt g
        (getThing (quads (fst (splitLoop split rules cur n))) (LocalSubject (gen (n + j))))
      = grant ty target gt g (snd (fst (split r (n + j)))).
Proof.
  induction rules as [|r0 rest IH]; intros cur n Hfresh Hinj j r Hj.
  - destruct j; discriminate.
  - simpl splitLoop. destruct (Hsplit r0 n) as [Hn [Sf Sr]]. rewrite Hn.
    simpl List.length in Hfresh, Hinj.
    destruct j as [|j]; simpl in Hj.
    + injection Hj as <-. rewrite Nat.add_0_r.
      destruct (splitLoop_grant Hsplit ty target gt g rest
                  (setThing (setThing cur (fst (fst (split r0 n))))
                     (snd (fst (split r0 n)))) (S n)) as [_ [_ Hs]].
      destruct (Hs (LocalSubject (gen n)))
        as [[r' [k [_ [Hk [E _]]]]]|[[r' [k [Hr [E _]]]]|[_ H]]].
      * exfalso. injection E as E. apply Hinj in E; lia.
      * exfalso. apply (Hfresh n r'); [lia | now right | exact E].
      * rewrite H, grant_setThing, Sr, subject_eqb_refl. reflexivity.
    + replace (n + S j) with (S n + j) by lia.
      apply IH; [| |exact Hj].
      * intros k r' Hk Hr'. apply Hfresh; [lia | now right].
      * intros i i' Hi Hi'. apply Hinj; lia.
Qed.

Lemma distinctNames_spec (gen : nat -> string) (n : nat) (d : AclDataset) :
  distinctNames gen n d = true ->
  forall i j, n <= i < S (n + List.length (getThingAll d)) ->
              n <= j < S (n + List.length (getThingAll d)) ->
              gen i = gen j -> i = j.
Proof.
  intros H i j Hi Hj E. unfold distinctNames in H.
  rewrite forallb_forall in H.
  assert (Ii : In i (seq n (S (List.length (getThingAll d))))) by (apply in_seq; lia).
  assert (Ij : In j (seq n (S (List.length (getThingAll d))))) by (apply in_seq; lia).
  specialize (H i Ii). rewrite forallb_forall in H. specialize (H j Ij).
  rewrite E, String.eqb_refl in H. simpl in H. now apply Nat.eqb_eq.
Qed.

(** The second half of the split of a rule that names the public keeps
    the rule's modes and the rule's targets in the other scope. *)
Lemma removePublicFromRule_rem_other_scope (gen : nat -> string) (r : AclRule)
    (X : string) (ty : RuleType) (k : nat) :
  grant (otherScope ty) X acl.agentClass foaf.Agent
    (snd (fst (removePublicFromRule gen r X ty k)))
  = if appliesToClass r foaf.Agent
    then (if scopeTest (otherScope ty) r X then internal_getAccess r else noAccess)
    else noAccess.
Proof.
  unfold appliesToClass.
  destruct (includes (getIriAll r acl.agentClass) foaf.Agent) eqn:E.
  - rewrite (removePublicFromRule_public gen r X ty k E). cbn [fst snd].
    set (rem := removeIri _ (targetProperty ty) X).
    destruct (targetProperty_distinct ty) as [D1 [D2 [D3 [D4 [D5 [D6 D7]]]]]].
    assert (Same : forall p, In p [acl.accessTo; acl.default; acl.defaultForNew; acl.mode] ->
              p <> targetProperty ty -> sameIris rem r p).
    { intros p Hp Hn i. unfold rem.
      rewrite removeIri_In, !removeAll_In, setIri_In, internal_duplicateAclRule_In.
      cbn [fst].
      assert (P : p <> acl.agent /\ p <> acl.agentGroup /\ p <> acl.agentClass
                  /\ p <> rdf.type /\ In p copiedProperties).
      { simpl in Hp. destruct Hp as [<-|[<-|[<-|[<-|[]]]]];
          repeat split; try distinct_iris; simpl; tauto. }
      destruct P as [P1 [P2 [P3 [P4 P5]]]]. split.
      - intros [[[[[[H|[p' [i' [_ [_ H]]]]] _]|H] _] _] _]; [| exact H |];
          inversion H; congruence.
      - intros H. split; [|intros Q; inversion Q; congruence].
        split; [|exact P2]. split; [|exact P1]. left. split; [|exact P3].
        right. exists p, i. auto. }
    assert (Rule : isAclRule rem = true).
    { apply isAclRule_iff. unfold rem.
      rewrite removeIri_In, !removeAll_In, setIri_In, internal_duplicateAclRule_In.
      cbn [fst]. split; [|intros Q; inversion Q; congruence].
      split; [|distinct_iris]. split; [|distinct_iris].
      left. split; [now left | distinct_iris]. }
    assert (Pub : namesGrantee rem acl.agentClass foaf.Agent = true).
    { apply includes_getIriAll. unfold rem.
      rewrite removeIri_In, !removeAll_In, setIri_In. cbn [fst].
      split; [|intros Q; inversion Q; congruence].
      split; [|distinct_iris]. split; [|distinct_iris]. now right. }
    unfold grant. rewrite Rule, Pub, andb_true_r. cbn [andb].
    assert (Sc : scopeTest (otherScope ty) rem X = scopeTest (otherScope ty) r X).
    { destruct ty; simpl; unfold appliesToResource, isDefaultForResource.
      - rewrite (includes_sameIris (t1 := rem) (t2 := r) (p := acl.default)),
          (includes_sameIris (t1 := rem) (t2 := r) (p := acl.defaultForNew));
          [reflexivity | |]; apply Same; simpl; try tauto; distinct_iris.
      - rewrite (includes_sameIris (t1 := rem) (t2 := r) (p := acl.accessTo));
          [reflexivity|]; apply Same; simpl; try tauto; distinct_iris. }
    rewrite Sc.
    rewrite (internal_getAccess_ext (t1 := rem) (t2 := r));
      [reflexivity|]. apply Same; [simpl; tauto | exact (not_eq_sym D2)].
  - rewrite (removePublicFromRule_other gen r X ty k E). cbn [fst snd].
    destruct ty; reflexivity.
Qed.

Lemma publicThingsAreRules_spec (d : AclDataset) (r : Thing) :
  publicThingsAreRules d = true -> In r (getThingAll d) ->
  appliesToClass r foaf.Agent = true -> isAclRule r = true.
Proof.
  intros H Hr Hp. unfold publicThingsAreRules in H.
  rewrite forallb_forall in H. specialize (H r Hr).
  rewrite Hp in H. exact H.
Qed.

Lemma public_effectiveAccess_other_scope (gen : nat -> string) (ty : RuleType)
    (S0 : AclDataset) (M : Access) (n : nat) :
  freshNames gen n S0 = true -> distinctNames gen n S0 = true ->
  publicThingsAreRules S0 = true ->
  effectiveAccess (otherScope ty) acl.agentClass foaf.Agent
    (fst (setPublicAccessFor gen ty S0 M n))
  = effectiveAccess (otherScope ty) acl.agentClass foaf.Agent S0.
Proof.
  intros Hfresh Hdist Hrules.
  pose proof (@freshNames_spec gen n S0 Hfresh) as Fresh.
  pose proof (@distinctNames_spec gen n S0 Hdist) as Inj.
  set (X := internal_accessTo S0).
  set (split := fun r => removePublicFromRule gen r X ty).
  pose proof (removePublicFromRule_WellSplit gen X ty) as Hsplit. fold split in Hsplit.
  rewrite setPublicAccessFor_unfold. fold X split.
  set (newRule := setIri (setIri _ (targetProperty ty) X) acl.agentClass foaf.Agent).
  destruct (publicNewRule_grant gen ty (otherScope ty) X M
              (n + List.length (getThingAll S0)) (gt := acl.agentClass) foaf.Agent)
    as [Subj Gnew]; [auto|]. fold newRule in Subj, Gnew.
  assert (Hnew : grant (otherScope ty) X acl.agentClass foaf.Agent newRule = noAccess).
  { rewrite Gnew. destruct ty; reflexivity. }
  destruct (splitLoop_grant Hsplit (otherScope ty) X acl.agentClass foaf.Agent
              (getThingAll S0) S0 n) as [_ [Ha Hs]].
  assert (Grem : forall r k, In r (getThingAll S0) ->
            grant (otherScope ty) X acl.agentClass foaf.Agent (snd (fst (split r k)))
            = if appliesToClass r foaf.Agent
              then grant (otherScope ty) X acl.agentClass foaf.Agent r else noAccess).
  { intros r k Hr. unfold split. rewrite removePublicFromRule_rem_other_scope.
    destruct (appliesToClass r foaf.Agent) eqn:P; [|reflexivity].
    unfold grant, namesGrantee. unfold appliesToClass in P.
    rewrite P, (publicThingsAreRules_spec S0 r Hrules Hr P), andb_true_r.
    reflexivity. }
  apply effectiveAccess_iff.
  { now rewrite internal_removeEmptyAclRules_accessTo, setThing_accessTo. }
  intros f F.
  rewrite internal_removeEmptyAclRules_accessTo, setThing_accessTo, Ha. fold X.
  split.
  - intros [s Hf]. rewrite mutator_grant in Hf by auto.
    destruct (subject_eqb s (thing_subject newRule)); [rewrite Hnew in Hf; congruence|].
    destruct (Hs s) as [[r [k [Hr [_ [_ H]]]]]|[[r [k [Hr [_ H]]]]|[_ H]]].
    + rewrite H, Grem in Hf by exact Hr.
      destruct (appliesToClass r foaf.Agent); [|congruence].
      apply getThingAll_In in Hr. destruct Hr as [s' [_ ->]]. now exists s'.
    + rewrite H in Hf. unfold split in Hf.
      rewrite split_grants_no_public in Hf. congruence.
    + rewrite H in Hf. now exists s.
  - intros [s Hf].
    destruct (grant_some f _ _ _ _ _ F Hf) as [A [_ P]].
    assert (Hr : In (getThing (quads S0) s) (getThingAll S0)).
    { apply getThingAll_In. exists s. split; [|reflexivity].
      apply isAclRule_iff in A. apply getThing_In in A. apply subjectsOf_In. eauto. }
    destruct (In_nth_error _ _ Hr) as [j Hj].
    assert (Hjlt : j < List.length (getThingAll S0)).
    { apply nth_error_Some. rewrite Hj. discriminate. }
    exists (LocalSubject (gen (n + j))).
    rewrite mutator_grant by auto. rewrite Subj.
    destruct (subject_eqb (LocalSubject (gen (n + j)))
                (LocalSubject (gen (n + List.length (getThingAll S0))))) eqn:E.
    { exfalso. apply subject_eqb_eq in E. injection E as E.
      apply Inj in E; unfold AclRule in *; lia. }
    rewrite (splitLoop_rem Hsplit (otherScope ty) X acl.agentClass foaf.Agent
               (getThingAll S0) S0 (n := n)) with (r := getThing (quads S0) s).
    + rewrite Grem by exact Hr. unfold namesGrantee in P. unfold appliesToClass.
      rewrite P. exact Hf.
    + intros k r Hk Hr' Q. apply (Fresh k); [unfold AclRule in *; lia|].
      rewrite Q. apply getThingAll_In in Hr'. destruct Hr' as [s' [Hs' ->]]. exact Hs'.
    + intros i i' Hi Hi'. apply Inj; unfold AclRule in *; lia.
    + exact Hj.
Qed.

(** X11. Setting the public's access in one scope leaves the public's
    access in the other scope as it was: [setPublicResourceAccess] keeps
    the public's default access, [setPublicDefaultAccess] keeps the
    public's access to the resource itself.  The names drawn are new and
    differ from one another, and every Thing that names the public is an
    Authorization. *)
Theorem setPublicAccess_keeps_other_scope
    (gen : nat -> string) (S0 : AclDataset) (M : Access) (n : nat)
    (Hfresh : freshNames gen n S0 = true)
    (Hdistinct : distinctNames gen n S0 = true)
    (Hrules : publicThingsAreRules S0 = true) :
  getPublicDefaultAccess (fst (setPublicResourceAccess gen S0 M n))
    = getPublicDefaultAccess S0
  /\ getPublicResourceAccess (fst (setPublicDefaultAccess gen S0 M n))
     = getPublicResourceAccess S0.
Proof.
  split.
  - exact (public_effectiveAccess_other_scope gen RuleResource S0 M n
             Hfresh Hdistinct Hrules).
  - exact (public_effectiveAccess_other_scope gen RuleDefault S0 M n
             Hfresh Hdistinct Hrules).
Qed.

Lemma setPublicAccess_keeps_other_scope_witness :
  getPublicDefaultAccess
    (fst (setPublicResourceAccess exampleNames exampleAcl
            (mkAccess true false false false) 0))
    = getPublicDefaultAccess exampleAcl
  /\ getPublicResourceAccess
       (fst (setPublicDefaultAccess exampleNames exampleAcl
               (mkAccess true false false false) 0))
     = getPublicResourceAccess exampleAcl.
Proof.
  apply setPublicAccess_keeps_other_scope; reflexivity.
Defined.

(** ** Setting the access of a group *)

Lemma removeGroupFromRule_member
    (gen : nat -> string) (rule : AclRule) (group X : string) (ty : RuleType) (n : nat) :
  includes (getIriAll rule acl.agentGroup) group = true ->
  removeGroupFromRule gen rule group X ty n =
  ((removeIri rule acl.agentGroup group,
    removeAll
      (removeAll
         (setIri
            (removeIri (fst (internal_duplicateAclRule gen rule n))
               (targetProperty ty) X)
            acl.agent group)
         acl.agentClass)
      acl.agentGroup),
   S n).
Proof.
  intros E. unfold removeGroupFromRule. rewrite E. destruct ty; reflexivity.
Qed.

Lemma removeGroupFromRule_other
    (gen : nat -> string) (rule : AclRule) (group X : string) (ty : RuleType) (n : nat) :
  includes (getIriAll rule acl.agentGroup) group = false ->
  removeGroupFromRule gen rule group X ty n =
  ((rule, mkThing (LocalSubject (gen n)) [(rdf.type, NamedNode acl.Authorization)]),
   S n).
Proof.
  intros E. unfold removeGroupFromRule. rewrite E. reflexivity.
Qed.

(** What the two rules of a group split say: the first is the input
    rule without the group, the second names no group and no class, names
    the group's IRI as its only agent, and has lost the target. *)
Lemma removeGroupFromRule_spec
    (gen : nat -> string) (rule : AclRule) (group X : string) (ty : RuleType) (n : nat) :
  let f := fst (fst (removeGroupFromRule gen rule group X ty n)) in
  let rem := snd (fst (removeGroupFromRule gen rule group X ty n)) in
  snd (removeGroupFromRule gen rule group X ty n) = S n
  /\ thing_subject f = thing_subject rule
  /\ thing_subject rem = LocalSubject (gen n)
  /\ (forall p, p <> acl.agentGroup -> sameIris f rule p)
  /\ ~ In (acl.agentGroup, NamedNode group) (thing_statements f)
  /\ (forall i, i <> group ->
        (In (acl.agentGroup, NamedNode i) (thing_statements f)
         <-> In (acl.agentGroup, NamedNode i) (thing_statements rule)))
  /\ (forall st, In st (thing_statements rem) ->
        fst st <> acl.agentClass /\ fst st <> acl.agentGroup)
  /\ (forall i, In (acl.agent, NamedNode i) (thing_statements rem) -> i = group)
  /\ ~ In (targetProperty ty, NamedNode X) (thing_statements rem).
Proof.
  destruct (includes (getIriAll rule acl.agentGroup) group) eqn:E.
  - rewrite (removeGroupFromRule_member gen rule group X ty n E). cbn [fst snd].
    destruct (targetProperty_distinct ty) as [D1 [D2 [D3 [D4 [D5 [D6 D7]]]]]].
    split; [reflexivity|]. split; [reflexivity|]. split.
    { simpl. rewrite setIri_subject. simpl.
      apply (internal_duplicateAclRule_counter gen rule n). }
    split.
    { intros p Hp i. rewrite removeIri_In. split; [tauto|].
      intros H. split; [exact H|]. intros Q. inversion Q. congruence. }
    split; [rewrite removeIri_In; tauto|].
    split.
    { intros i Hi. rewrite removeIri_In. split; [tauto|].
      intros H. split; [exact H|]. intros Q. inversion Q. congruence. }
    split.
    { intros st Hst. apply removeAll_In in Hst. destruct Hst as [Hst G].
      apply removeAll_In in Hst. destruct Hst as [_ C]. auto. }
    split.
    { intros i Hi. apply removeAll_In in Hi. destruct Hi as [Hi _].
      apply removeAll_In in Hi. destruct Hi as [Hi _].
      apply setIri_In in Hi. destruct Hi as [[_ Q]|Q]; [now elim Q|].
      inversion Q. reflexivity. }
    { intros H. apply removeAll_In in H. destruct H as [H _].
      apply removeAll_In in H. destruct H as [H _].
      apply setIri_In in H. destruct H as [[H _]|Q].
      - apply removeIri_In in H. tauto.
      - inversion Q. congruence. }
  - rewrite (removeGroupFromRule_other gen rule group X ty n E).
    cbn [fst snd thing_subject thing_statements].
    split; [reflexivity|]. split; [reflexivity|]. split; [reflexivity|].
    split; [intros p _ i; tauto|].
    split.
    { intros H. apply includes_getIriAll in H. congruence. }
    split; [intros i _; tauto|].
    split.
    { intros st [<-|[]]. cbn [fst]. split; distinct_iris. }
    split.
    { intros i [H|[]]. discriminate H. }
    { intros [H|[]]. injection H as Q _. apply String.eqb_eq in Q.
      destruct ty; vm_compute in Q; discriminate Q. }
Qed.

Lemma removeGroupFromRule_WellSplit (gen : nat -> string) (group X : string)
    (ty : RuleType) :
  WellSplit gen (fun r => removeGroupFromRule gen r group X ty).
Proof.
  intros r n. pose proof (removeGroupFromRule_spec gen r group X ty n) as [A [B [C _]]].
  auto.
Qed.

Lemma filterGroupRules_splitLoop (gen : nat -> string) (group X : string)
    (ty : RuleType) (rules : list AclRule) (cur : AclDataset) (n : nat) :
  filterGroupRules gen rules group X ty cur n
  = splitLoop (fun r => removeGroupFromRule gen r group X ty) rules cur n.
Proof.
  revert cur n. induction rules as [|r rest IH]; intros cur n; [reflexivity|].
  simpl. unfold bind.
  pose proof (removeGroupFromRule_spec gen r group X ty n) as [Hn _].
  destruct (removeGroupFromRule gen r group X ty n) as [[f rem] n'].
  simpl in Hn. subst n'. cbn [fst snd]. apply IH.
Qed.

Lemma setGroupResourceAccess_unfold (gen : nat -> string) (S0 : AclDataset)
    (group : string) (M : Access) (n : nat) :
  fst (setGroupResourceAccess gen S0 group M n)
  = internal_removeEmptyAclRules
      (setThing
         (fst (splitLoop
                 (fun r => removeGroupFromRule gen r group (internal_accessTo S0)
                             RuleResource)
                 (getThingAll S0) S0 n))
         (setIri (setIri (fst (internal_initialiseAclRule gen M
                                 (n + List.length (getThingAll S0))))
                    acl.accessTo (internal_accessTo S0))
            acl.agentGroup group)).
Proof.
  unfold setGroupResourceAccess, bind. rewrite filterGroupRules_splitLoop.
  pose proof (splitLoop_grant
                (removeGroupFromRule_WellSplit gen group (internal_accessTo S0) RuleResource)
                RuleResource "" "" "" (getThingAll S0) S0 n) as [Hn _].
  destruct (splitLoop _ (getThingAll S0) S0 n) as [out n1]. simpl in Hn. subst n1.
  cbn [fst]. destruct (internal_initialiseAclRule gen M _) as [nr n2]. reflexivity.
Qed.

(** What the new rule of [setGroupResourceAccess] grants. *)
Lemma groupNewRule_grant (gen : nat -> string) (tyq : RuleType)
    (X group : string) (M : Access) (n : nat) (gt g : string) :
  gt = acl.agent \/ gt = acl.agentGroup \/ gt = acl.agentClass ->
  let newRule :=
    setIri (setIri (fst (internal_initialiseAclRule gen M n)) acl.accessTo X)
      acl.agentGroup group in
  thing_subject newRule = LocalSubject (gen n)
  /\ grant tyq X gt g newRule
     = if (match tyq with RuleResource => true | RuleDefault => false end)
          && (String.eqb gt acl.agentGroup && String.eqb g group)
       then normalise M else noAccess.
Proof.
  intros Hgt newRule.
  destruct (newRule_statements gen M n (p1 := acl.accessTo) X
              (p2 := acl.agentGroup) group)
    as [Subj [Rule [Acc [Only [In1 In2]]]]]; try distinct_iris.
  fold newRule in Subj, Rule, Acc, Only, In1, In2.
  split; [exact Subj|].
  unfold grant. rewrite Rule, Acc. cbn [andb].
  assert (Sc : scopeTest tyq newRule X
               = match tyq with RuleResource => true | RuleDefault => false end).
  { apply bool_ext. destruct tyq; simpl; unfold appliesToResource, isDefaultForResource;
      rewrite ?orb_true_iff, !includes_getIriAll; split; intros H; try discriminate; auto.
    destruct H as [H|H]; apply Only in H;
      destruct H as [[H _]|[[H _]|[H|H]]];
      apply String.eqb_eq in H; vm_compute in H; discriminate H. }
  assert (Gr : namesGrantee newRule gt g
               = (String.eqb gt acl.agentGroup && String.eqb g group)).
  { apply bool_ext. unfold namesGrantee.
    rewrite includes_getIriAll, andb_true_iff, !String.eqb_eq. split.
    - intros H. apply Only in H. destruct H as [[H _]|[H|[H|H]]]; [|exact H| |];
        exfalso; subst gt;
        destruct Hgt as [Q|[Q|Q]];
        apply String.eqb_eq in Q; vm_compute in Q; discriminate Q.
    - intros [-> ->]. exact In2. }
  rewrite Sc, Gr. reflexivity.
Qed.

(** X12. [setGroupResourceAccess] makes the group's access to the
    resource the access asked for, with append raised by write, whatever
    the group had before. *)
Theorem setGroupResourceAccess_group_access
    (gen : nat -> string) (S0 : AclDataset) (group : string) (M : Access) (n : nat) :
  getGroupResourceAccess (fst (setGroupResourceAccess gen S0 group M n)) group
  = normalise M.
Proof.
  change (effectiveAccess RuleResource acl.agentGroup group
            (fst (setGroupResourceAccess gen S0 group M n)) = normalise M).
  rewrite setGroupResourceAccess_unfold.
  rewrite (mutator_sets
             (removeGroupFromRule_WellSplit gen group (internal_accessTo S0) RuleResource)).
  - destruct (groupNewRule_grant gen RuleResource (internal_accessTo S0) group M
                (n + List.length (getThingAll S0)) (gt := acl.agentGroup) group)
      as [_ G]; [auto|].
    rewrite G, !String.eqb_refl. apply normalise_idem.
  - auto.
  - intros r k _.
    pose proof (removeGroupFromRule_spec gen r group (internal_accessTo S0)
                  RuleResource k) as [_ [_ [_ [_ [_ [_ [H _]]]]]]].
    unfold grant. rewrite namesGrantee_absent; [now rewrite andb_false_r|].
    intros st Hst. now destruct (H st Hst).
  - intros r k _.
    pose proof (removeGroupFromRule_spec gen r group (internal_accessTo S0)
                  RuleResource k) as [_ [_ [_ [_ [H _]]]]].
    unfold grant, namesGrantee.
    destruct (includes _ group) eqn:E; [|now rewrite andb_false_r].
    apply includes_getIriAll in E. contradiction.
Qed.

Lemma group_effectiveAccess_frame (gen : nat -> string) (tyq : RuleType)
    (gt grantee : string) (S0 : AclDataset) (group : string) (M : Access) (n : nat) :
  gt = acl.agent \/ gt = acl.agentGroup \/ gt = acl.agentClass ->
  (gt = acl.agentGroup -> grantee <> group) ->
  (gt = acl.agent -> tyq = RuleDefault -> grantee <> group) ->
  freshNames gen n S0 = true ->
  effectiveAccess tyq gt grantee (fst (setGroupResourceAccess gen S0 group M n))
  = effectiveAccess tyq gt grantee S0.
Proof.
  intros Hgt Hgroup Hagent Hfresh. rewrite setGroupResourceAccess_unfold.
  destruct (groupNewRule_grant gen tyq (internal_accessTo S0) group M
              (n + List.length (getThingAll S0)) (gt := gt) grantee)
    as [Subj G]; [exact Hgt|].
  apply (mutator_frames
           (removeGroupFromRule_WellSplit gen group (internal_accessTo S0) RuleResource)).
  - exact Hgt.
  - exact Hfresh.
  - exact Subj.
  - rewrite G.
    destruct (String.eqb gt acl.agentGroup && String.eqb grantee group) eqn:E;
      [|now rewrite andb_false_r].
    apply andb_true_iff in E. destruct E as [A B].
    apply String.eqb_eq in A, B. now elim (Hgroup A).
  - intros r k _.
    pose proof (removeGroupFromRule_spec gen r group (internal_accessTo S0)
                  RuleResource k) as [_ [_ [_ [_ [_ [_ [Hno [Hag Htar]]]]]]]].
    unfold grant.
    destruct Hgt as [->|[->| ->]].
    + (* an agent *)
      destruct tyq.
      * simpl scopeTest. unfold appliesToResource.
        destruct (includes _ (internal_accessTo S0)) eqn:E.
        { apply includes_getIriAll in E. contradiction. }
        now rewrite andb_false_r.
      * unfold namesGrantee.
        destruct (includes _ grantee) eqn:E; [|now rewrite andb_false_r].
        apply includes_getIriAll in E. apply Hag in E.
        now elim (Hagent eq_refl eq_refl).
    + rewrite namesGrantee_absent; [now rewrite andb_false_r|].
      intros st Hst. now destruct (Hno st Hst).
    + rewrite namesGrantee_absent; [now rewrite andb_false_r|].
      intros st Hst. now destruct (Hno st Hst).
  - intros r k _.
    pose proof (removeGroupFromRule_spec gen r group (internal_accessTo S0)
                  RuleResource k) as [_ [_ [_ [Same [_ [Others _]]]]]].
    unfold grant, isAclRule.
    rewrite (includes_sameIris (p := rdf.type) _ (Same rdf.type ltac:(distinct_iris))).
    rewrite (scopeTest_ext tyq (internal_accessTo S0)
               (Same acl.accessTo ltac:(distinct_iris))
               (Same acl.default ltac:(distinct_iris))
               (Same acl.defaultForNew ltac:(distinct_iris))).
    rewrite (internal_getAccess_ext (Same acl.mode ltac:(distinct_iris))).
    replace (namesGrantee (fst (fst (removeGroupFromRule gen r group
                                       (internal_accessTo S0) RuleResource k)))
               gt grantee)
      with (namesGrantee r gt grantee); [reflexivity|].
    unfold namesGrantee. apply bool_ext. rewrite !includes_getIriAll.
    destruct Hgt as [->|[->| ->]].
    + symmetry. apply (Same acl.agent). distinct_iris.
    + symmetry. apply Others. now apply Hgroup.
    + symmetry. apply (Same acl.agentClass). distinct_iris.
Qed.

(** X13. [setGroupResourceAccess] leaves the others as they were: the
    public and every other group, for the resource and by default, and
    every agent for the resource; an agent keeps its default access too
    unless its IRI is the group's.  The names drawn for the new Things are
    names of no Thing of the dataset. *)
Theorem setGroupResourceAccess_frame
    (gen : nat -> string) (S0 : AclDataset) (group : string) (M : Access) (n : nat)
    (Hfresh : freshNames gen n S0 = true) (grantee : string) :
  getPublicResourceAccess (fst (setGroupResourceAccess gen S0 group M n))
    = getPublicResourceAccess S0
  /\ getPublicDefaultAccess (fst (setGroupResourceAccess gen S0 group M n))
     = getPublicDefaultAccess S0
  /\ getAgentResourceAccess (fst (setGroupResourceAccess gen S0 group M n)) grantee
     = getAgentResourceAccess S0 grantee
  /\ (grantee <> group ->
      getAgentDefaultAccess (fst (setGroupResourceAccess gen S0 group M n)) grantee
      = getAgentDefaultAccess S0 grantee)
  /\ (grantee <> group ->
      getGroupResourceAccess (fst (setGroupResourceAccess gen S0 group M n)) grantee
      = getGroupResourceAccess S0 grantee)
  /\ (grantee <> group ->
      getGroupDefaultAccess (fst (setGroupResourceAccess gen S0 group M n)) grantee
      = getGroupDefaultAccess S0 grantee).
Proof.
  split; [|split; [|split; [|split; [|split]]]].
  - apply (@group_effectiveAccess_frame gen RuleResource acl.agentClass foaf.Agent S0 group M n); auto; intros Q;
      apply String.eqb_eq in Q; vm_compute in Q; discriminate Q.
  - apply (@group_effectiveAccess_frame gen RuleDefault acl.agentClass foaf.Agent S0 group M n); auto; intros Q;
      apply String.eqb_eq in Q; vm_compute in Q; discriminate Q.
  - apply (@group_effectiveAccess_frame gen RuleResource acl.agent grantee S0 group M n); auto; try discriminate; intros Q;
      apply String.eqb_eq in Q; vm_compute in Q; discriminate Q.
  - intros Hne.
    apply (@group_effectiveAccess_frame gen RuleDefault acl.agent grantee S0 group M n); auto.
  - intros Hne.
    apply (@group_effectiveAccess_frame gen RuleResource acl.agentGroup grantee S0 group M n); auto.
  - intros Hne.
    apply (@group_effectiveAccess_frame gen RuleDefault acl.agentGroup grantee S0 group M n); auto.
Qed.

Lemma setGroupResourceAccess_frame_witness :
  getAgentResourceAccess
    (fst (setGroupResourceAccess exampleNames exampleAcl
            "https://pod.example/groups#friends"
            (mkAccess true false false false) 0)) exampleAgent
  = getAgentResourceAccess exampleAcl exampleAgent.
Proof.
  exact (proj1 (proj2 (proj2
           (setGroupResourceAccess_frame exampleNames exampleAcl
              "https://pod.example/groups#friends"
              (mkAccess true false false false) 0 eq_refl exampleAgent)))).
Defined.

(** ** The access of all grantees of a kind *)

Lemma recordGet_recordSet (record : AccessRecord) (key key' : string) (value : Access) :
  recordGet (recordSet record key value) key'
  = if String.eqb key key' then Some value else recordGet record key'.
Proof.
  induction record as [|[k v] rest IH]; simpl.
  - reflexivity.
  - destruct (String.eqb k key) eqn:E; simpl.
    + apply String.eqb_eq in E. subst k.
      destruct (String.eqb key key'); reflexivity.
    + destruct (String.eqb k key') eqn:E'.
      * apply String.eqb_eq in E'. subst k. now rewrite String.eqb_sym, E.
      * exact IH.
Qed.

Lemma internal_getAccess_normalised (rule : AclRule) :
  internal_combineAccessModes [internal_getAccess rule] = internal_getAccess rule.
Proof.
  unfold internal_getAccess. cbv zeta.
  destruct (includes (getIriAll rule acl.mode) internal_accessModeIriStrings.write);
    destruct (includes (getIriAll rule acl.mode) internal_accessModeIriStrings.read);
    destruct (includes (getIriAll rule acl.mode) internal_accessModeIriStrings.append);
    destruct (includes (getIriAll rule acl.mode) internal_accessModeIriStrings.control);
    reflexivity.
Qed.

Lemma internal_combineAccessModes_snoc (modes : list Access) (a : Access) :
  internal_combineAccessModes [internal_combineAccessModes modes; a]
  = internal_combineAccessModes (modes ++ [a])%list.
Proof.
  rewrite (internal_combineAccessModes_fields (modes ++ [a])%list).
  rewrite (internal_combineAccessModes_fields modes).
  rewrite !existsb_app. simpl existsb. rewrite !orb_false_r.
  destruct (existsb read modes), (existsb append modes), (existsb write modes),
    (existsb control modes), a as [[] [] [] []]; reflexivity.
Qed.

Lemma internal_combineAccessModes_again (previous a : Access) :
  internal_combineAccessModes [internal_combineAccessModes [previous; a]; a]
  = internal_combineAccessModes [previous; a].
Proof.
  destruct previous as [[] [] [] []], a as [[] [] [] []]; reflexivity.
Qed.

(** The inner loop of [internal_getAccessByIri]: the IRIs of one rule. *)
Lemma internal_getAccessByIri_rule (access : Access) (iris : list string)
    (record : AccessRecord) (iri : string) :
  internal_combineAccessModes [access] = access ->
  recordGet
    (fold_left
       (fun targetIriAccess targetIri =>
          recordSet targetIriAccess targetIri
            (match recordGet targetIriAccess targetIri with
             | None => access
             | Some previous => internal_combineAccessModes [previous; access]
             end))
       iris record)
    iri
  = if includes iris iri
    then Some (match recordGet record iri with
               | None => access
               | Some previous => internal_combineAccessModes [previous; access]
               end)
    else recordGet record iri.
Proof.
  intros Hn. revert record. induction iris as [|i rest IH]; intros record.
  - reflexivity.
  - simpl fold_left. rewrite IH. rewrite recordGet_recordSet.
    unfold includes. simpl existsb. fold (includes rest iri).
    rewrite (String.eqb_sym iri i).
    destruct (String.eqb i iri) eqn:E.
    + apply String.eqb_eq in E. subst i. simpl orb.
      destruct (includes rest iri); [|reflexivity].
      f_equal. destruct (recordGet record iri) as [previous|].
      * apply internal_combineAccessModes_again.
      * rewrite <- Hn at 3. rewrite <- Hn at 1.
        destruct access as [[] [] [] []]; reflexivity.
    + simpl orb. reflexivity.
Qed.

(** What [internal_getAccessByIri] holds for an IRI: nothing when no
    rule names it, and else the combined modes of the rules that do. *)
Lemma internal_getAccessByIri_lookup (aclRules : list AclRule)
    (targetType iri : string) :
  recordGet (internal_getAccessByIri aclRules targetType) iri
  = if existsb (fun rule => includes (getIriAll rule targetType) iri) aclRules
    then Some (internal_combineAccessModes
                 (map internal_getAccess
                    (internal_getAclRulesForIri aclRules iri targetType)))
    else None.
Proof.
  unfold internal_getAccessByIri, internal_getAclRulesForIri.
  set (names := fun rule : AclRule => includes (getIriAll rule targetType) iri).
  match goal with
  | |- context [fold_left ?f aclRules []] => set (step := f)
  end.
  assert (G : forall (rules done : list AclRule) (record : AccessRecord),
             recordGet record iri
             = (if existsb names done
                then Some (internal_combineAccessModes
                             (map internal_getAccess (filter names done)))
                else None) ->
             recordGet (fold_left step rules record) iri
             = (if existsb names (done ++ rules)%list
                then Some (internal_combineAccessModes
                             (map internal_getAccess (filter names (done ++ rules)%list)))
                else None)).
  { induction rules as [|r rest IH]; intros done record Inv.
    - rewrite app_nil_r. exact Inv.
    - simpl fold_left.
      replace (done ++ r :: rest)%list with ((done ++ [r]) ++ rest)%list
        by (rewrite <- app_assoc; reflexivity).
      apply IH. unfold step at 1.
      rewrite internal_getAccessByIri_rule by apply internal_getAccess_normalised.
      rewrite existsb_app, filter_app, map_app. simpl existsb. simpl filter.
      fold (names r). rewrite orb_false_r.
      destruct (names r) eqn:E.
      + rewrite orb_true_r. f_equal. rewrite Inv.
        destruct (existsb names done) eqn:D.
        * apply internal_combineAccessModes_snoc.
        * assert (N : filter names done = []).
          { apply filter_none. intros x Hx.
            destruct (names x) eqn:Q; [|reflexivity].
            assert (existsb names done = true)
              by (apply existsb_exists; exists x; auto).
            congruence. }
          rewrite N. simpl. symmetry. apply internal_getAccess_normalised.
      + rewrite orb_false_r. simpl map. rewrite app_nil_r. exact Inv. }
  apply (G aclRules [] []). reflexivity.
Qed.

(** X14. The record of [getGroupResourceAccessAll] and
    [getGroupDefaultAccessAll] has an entry for a group exactly when a
    rule in the scope names the group, and the entry is what
    [getGroupResourceAccess], [getGroupDefaultAccess] answer for it; a
    group without an entry has no access. *)
Theorem getGroupAccessAll_agrees (aclDataset : AclDataset) (group : string) :
  (forall a,
      recordGet (getGroupResourceAccessAll aclDataset) group = Some a ->
      a = getGroupResourceAccess aclDataset group)
  /\ (recordGet (getGroupResourceAccessAll aclDataset) group = None ->
      getGroupResourceAccess aclDataset group = noAccess)
  /\ (recordGet (getGroupResourceAccessAll aclDataset) group = None <->
      forall rule,
        In rule (internal_getResourceAclRulesForResource
                   (internal_getAclRules aclDataset) (internal_accessTo aclDataset)) ->
        ~ In (acl.agentGroup, NamedNode group) (thing_statements rule))
  /\ (forall a,
      recordGet (getGroupDefaultAccessAll aclDataset) group = Some a ->
      a = getGroupDefaultAccess aclDataset group)
  /\ (recordGet (getGroupDefaultAccessAll aclDataset) group = None ->
      getGroupDefaultAccess aclDataset group = noAccess)
  /\ (recordGet (getGroupDefaultAccessAll aclDataset) group = None <->
      forall rule,
        In rule (internal_getDefaultAclRulesForResource
                   (internal_getAclRules aclDataset) (internal_accessTo aclDataset)) ->
        ~ In (acl.agentGroup, NamedNode group) (thing_statements rule)).
Proof.
  assert (G : forall rules,
             (forall a,
                 recordGet (getAccessByGroup rules) group = Some a ->
                 a = internal_combineAccessModes
                       (map internal_getAccess (getGroupAclRuleForGroup rules group)))
             /\ (recordGet (getAccessByGroup rules) group = None ->
                 internal_combineAccessModes
                   (map internal_getAccess (getGroupAclRuleForGroup rules group))
                 = noAccess)
             /\ (recordGet (getAccessByGroup rules) group = None <->
                 forall rule, In rule rules ->
                   ~ In (acl.agentGroup, NamedNode group) (thing_statements rule))).
  { intros rules. unfold getAccessByGroup, getGroupAclRuleForGroup.
    rewrite internal_getAccessByIri_lookup.
    destruct (existsb (fun rule => includes (getIriAll rule acl.agentGroup) group)
                rules) eqn:E.
    - split; [intros a Q; now inversion Q|]. split; [discriminate|].
      split; [discriminate|]. intros H. exfalso.
      apply existsb_exists in E. destruct E as [r [Hr Hn]].
      apply includes_getIriAll in Hn. exact (H r Hr Hn).
    - assert (N : forall rule, In rule rules ->
                    includes (getIriAll rule acl.agentGroup) group = false).
      { intros rule Hr. destruct (includes _ group) eqn:Q; [|reflexivity].
        assert (existsb (fun rule => includes (getIriAll rule acl.agentGroup) group)
                  rules = true) by (apply existsb_exists; exists rule; auto).
        congruence. }
      split; [discriminate|]. split.
      + intros _. unfold internal_getAclRulesForIri.
        rewrite filter_none by exact N. reflexivity.
      + split; [|reflexivity]. intros _ rule Hr Hin.
        apply includes_getIriAll in Hin. rewrite (N rule Hr) in Hin. discriminate. }
  destruct (G (internal_getResourceAclRulesForResource
                 (internal_getAclRules aclDataset) (internal_accessTo aclDataset)))
    as [R1 [R2 R3]].
  destruct (G (internal_getDefaultAclRulesForResource
                 (internal_getAclRules aclDataset) (internal_accessTo aclDataset)))
    as [D1 [D2 D3]].
  repeat split; try assumption; try apply R3; try apply D3.
Qed.

(** ** What the ACL made from a fallback ACL never holds *)

Lemma fold_setThing_In (ts : list Thing) (d : AclDataset) (q : Quad) :
  In q (quads (fold_left setThing ts d)) ->
  In q (quads d)
  \/ exists t st, In t ts /\ In st (thing_statements t)
                  /\ q = toQuad (thing_subject t) st.
Proof.
  revert d. induction ts as [|t ts IH]; intros d H; simpl in H; [now left|].
  destruct (IH _ H) as [H'|[t' [st [A [B C]]]]].
  - apply setThing_In in H'. destruct H' as [[H' _]|[st [A B]]]; [now left|].
    right. exists t, st. split; [now left|]. auto.
  - right. exists t', st. split; [now right|]. auto.
Qed.

Lemma createAclFromFallbackAcl_quads (resource : ResourceWithFallbackAcl) (q : Quad) :
  In q (quads (createAclFromFallbackAcl resource)) ->
  predicate q <> acl.default
  /\ predicate q <> acl.defaultForNew
  /\ (predicate q = acl.accessTo ->
      object q = NamedNode (target_sourceIri resource)).
Proof.
  intros H. unfold createAclFromFallbackAcl in H.
  apply fold_setThing_In in H. destruct H as [[]|[t [st [Ht [Hst ->]]]]].
  apply in_map_iff in Ht. destruct Ht as [r [<- _]].
  unfold toResourceRule in Hst. destruct st as [p o]. cbn [toQuad predicate object fst snd].
  apply setIri_In in Hst. cbn [fst] in Hst.
  destruct Hst as [[Hst Hp]|Q].
  - apply removeAll_In in Hst. destruct Hst as [Hst N]. cbn [fst] in N.
    apply removeAll_In in Hst. destruct Hst as [_ D]. cbn [fst] in D.
    split; [exact D|]. split; [exact N|]. intros E. contradiction.
  - inversion Q. subst p o.
    split; [distinct_iris|]. split; [distinct_iris|]. reflexivity.
Qed.

(** X15. The ACL [createAclFromFallbackAcl] makes holds no
    [acl:default] and no [acl:defaultForNew] statement, and names no
    target but the resource: it has no default rule, and gives nobody
    default access. *)
Theorem createAclFromFallbackAcl_no_default (resource : ResourceWithFallbackAcl) :
  let new := createAclFromFallbackAcl resource in
  (forall q, In q (quads new) ->
     predicate q <> acl.default /\ predicate q <> acl.defaultForNew
     /\ (predicate q = acl.accessTo ->
         object q = NamedNode (target_sourceIri resource)))
  /\ internal_getDefaultAclRules (internal_getAclRules new) = []
  /\ getPublicDefaultAccess new = noAccess
  /\ (forall agent, getAgentDefaultAccess new agent = noAccess)
  /\ (forall group, getGroupDefaultAccess new group = noAccess).
Proof.
  intros new.
  assert (Q : forall q, In q (quads new) ->
     predicate q <> acl.default /\ predicate q <> acl.defaultForNew
     /\ (predicate q = acl.accessTo ->
         object q = NamedNode (target_sourceIri resource)))
    by (intros q; apply createAclFromFallbackAcl_quads).
  assert (No : forall rule p, In rule (internal_getAclRules new) ->
             p = acl.default \/ p = acl.defaultForNew ->
             getIriAll rule p = []).
  { intros rule p Hr Hp. unfold internal_getAclRules in Hr.
    apply filter_In in Hr. destruct Hr as [Hr _].
    apply getThingAll_In in Hr. destruct Hr as [s [_ ->]].
    destruct (getIriAll (getThing (quads new) s) p) as [|i l] eqn:E; [reflexivity|].
    exfalso.
    assert (Hi : In i (getIriAll (getThing (quads new) s) p))
      by (rewrite E; now left).
    apply getIriAll_In, getThing_In, Q in Hi. cbn [toQuad predicate fst] in Hi.
    destruct Hi as [A [B _]]. destruct Hp; contradiction. }
  assert (Rules : forall X,
             internal_getDefaultAclRulesForResource (internal_getAclRules new) X = []).
  { intros X. unfold internal_getDefaultAclRulesForResource. apply filter_none.
    intros rule Hr. unfold isDefaultForResource.
    rewrite (No rule acl.default Hr), (No rule acl.defaultForNew Hr) by auto.
    reflexivity. }
  split; [exact Q|]. split.
  { unfold internal_getDefaultAclRules. apply filter_none.
    intros rule Hr. unfold isDefaultAclRule, getIri.
    rewrite (No rule acl.default Hr), (No rule acl.defaultForNew Hr) by auto.
    reflexivity. }
  split; [|split].
  - unfold getPublicDefaultAccess. rewrite Rules. reflexivity.
  - intros agent. unfold getAgentDefaultAccess. rewrite Rules. reflexivity.
  - intros group. unfold getGroupDefaultAccess. rewrite Rules. reflexivity.
Qed.

(** ** The record of all groups, for a resource *)

(** X16. [getGroupAccessAll] answers [null] exactly when
    [getGroupAccess] does; when it answers a record, the entry of a group
    is what [getGroupAccess] answers for the group, and a group without
    an entry has no access. *)
Theorem getGroupAccessAll_getGroupAccess (resourceInfo : Resource) (group : string) :
  (getGroupAccessAll resourceInfo = None <-> getGroupAccess resourceInfo group = None)
  /\ (forall record,
        getGroupAccessAll resourceInfo = Some record ->
        (forall a, recordGet record group = Some a ->
                   getGroupAccess resourceInfo group = Some a)
        /\ (recordGet record group = None ->
            getGroupAccess resourceInfo group = Some noAccess)).
Proof.
  assert (G : forall rules,
             match recordGet (getAccessByGroup rules) group with
             | Some a =>
                 internal_combineAccessModes
                   (map internal_getAccess (getGroupAclRuleForGroup rules group)) = a
             | None =>
                 internal_combineAccessModes
                   (map internal_getAccess (getGroupAclRuleForGroup rules group))
                 = noAccess
             end).
  { intros rules. unfold getAccessByGroup, getGroupAclRuleForGroup.
    rewrite internal_getAccessByIri_lookup.
    destruct (existsb (fun rule => includes (getIriAll rule acl.agentGroup) group)
                rules) eqn:E; [reflexivity|].
    unfold internal_getAclRulesForIri. rewrite filter_none; [reflexivity|].
    intros rule Hr. destruct (includes _ group) eqn:Q; [|reflexivity].
    assert (existsb (fun rule => includes (getIriAll rule acl.agentGroup) group)
              rules = true) by (apply existsb_exists; exists rule; auto).
    congruence. }
  unfold getGroupAccessAll, getGroupAccess, getResourceAcl, getFallbackAcl.
  destruct (hasResourceAcl resourceInfo) eqn:HR; cbn [negb].
  - destruct (resourceAcl resourceInfo) as [racl|] eqn:ER.
    + split; [split; discriminate|].
      intros record Q. injection Q as <-.
      pose proof (G (internal_getResourceAclRulesForResource
                       (internal_getAclRules racl) (internal_accessTo racl))) as H.
      unfold getGroupResourceAccessAll, getGroupResourceAccess. cbv zeta.
      destruct (recordGet _ group) as [a'|].
      * split; [|discriminate]. intros a Q. injection Q as <-. now rewrite H.
      * split; [discriminate|]. intros _. now rewrite H.
    + split; [tauto | discriminate].
  - destruct (hasFallbackAcl resourceInfo) eqn:HF; cbn [negb].
    + destruct (fallbackAcl resourceInfo) as [facl|] eqn:EF.
      * split; [split; discriminate|].
        intros record Q. injection Q as <-.
        pose proof (G (internal_getDefaultAclRulesForResource
                         (internal_getAclRules facl) (internal_accessTo facl))) as H.
        unfold getGroupDefaultAccessAll, getGroupDefaultAccess. cbv zeta.
        destruct (recordGet _ group) as [a'|].
        -- split; [|discriminate]. intros a Q. injection Q as <-. now rewrite H.
        -- split; [discriminate|]. intros _. now rewrite H.
      * split; [tauto | discriminate].
    + split; [tauto | discriminate].
Qed.

(** ** The container of a path, at the edges *)

Lemma js_substring_nothing (s : string) : js_substring s 0 (-1) = "".
Proof.
  unfold js_substring, js_length.
  replace (Z.max 0 (Z.min 0 (Z.of_nat (String.length s)))) with 0%Z by lia.
  replace (Z.max 0 (Z.min (-1) (Z.of_nat (String.length s)))) with 0%Z by lia.
  simpl. destruct s; reflexivity.
Qed.

Lemma js_substring_all_but_last (a : string) (c : ascii) :
  js_substring (a ++ String c "") 0 (js_length (a ++ String c "") - 1) = a.
Proof.
  replace (js_length (a ++ String c "") - 1)%Z with (js_length a)
    by (unfold js_length; rewrite length_append; simpl; lia).
  apply js_substring_prefix.
Qed.

Lemma internal_getContainerPath_noSlash (p : string) :
  hasSlash p = false ->
  internal_getContainerPath p = "/" /\ internal_getContainerPath (p ++ "/") = "/".
Proof.
  intros H. split.
  - unfold internal_getContainerPath.
    assert (T : String.eqb (js_substring_from p (js_length p - 1)) "/" = false).
    { destruct p as [|x p]; [reflexivity|].
      destruct (@string_last (String x p)) as [p' [c E]]; [discriminate|].
      rewrite E, js_substring_last.
      rewrite E, hasSlash_app in H. apply orb_false_iff in H. destruct H as [_ H].
      simpl in H. rewrite orb_false_r in H. simpl. now rewrite H. }
    rewrite T. unfold js_lastIndexOf. rewrite lastIndexOfFrom_none by exact H.
    now rewrite js_substring_nothing.
  - unfold internal_getContainerPath.
    rewrite js_substring_last. simpl (String.eqb "/" "/"). cbv iota.
    rewrite js_substring_all_but_last.
    unfold js_lastIndexOf. rewrite lastIndexOfFrom_none by exact H.
    now rewrite js_substring_nothing.
Qed.

(** The container of an absolute path other than [/] is what is left
    of the path when its last segment is cut off. *)
Lemma internal_getContainerPath_cut (p : string) :
  startsWithSlash p = true -> p <> "/" ->
  exists pre rest,
    internal_getContainerPath p = pre ++ "/"
    /\ p = pre ++ "/" ++ rest /\ rest <> "".
Proof.
  intros Hs Hp.
  destruct (last_slash p (startsWithSlash_hasSlash p Hs)) as [pre [post [E Hpost]]].
  destruct post as [|c post].
  - destruct pre as [|x pre]; [subst p; now elim Hp|].
    assert (Hpre : hasSlash (String x pre) = true).
    { apply startsWithSlash_hasSlash. rewrite E in Hs. exact Hs. }
    destruct (last_slash _ Hpre) as [pre' [post' [E' Hpost']]].
    assert (Ep : p = pre' ++ "/" ++ post' ++ "/").
    { rewrite E, E', !append_assoc. reflexivity. }
    exists pre', (post' ++ "/"). split; [|split].
    + rewrite Ep. now apply internal_getContainerPath_trailing.
    + exact Ep.
    + destruct post'; discriminate.
  - exists pre, (String c post). split; [|split].
    + rewrite E. apply internal_getContainerPath_plain; [exact Hpost | discriminate].
    + exact E.
    + discriminate.
Qed.

(** X17. [internal_getContainerPath] at the edges: a path without a
    slash, with or without a slash put after it, has the container [/],
    so the empty path and [/] itself do; on absolute paths the container
    is a prefix of the path, and [/] is the only path that is its own
    container. *)
Theorem internal_getContainerPath_edges :
  (forall p, hasSlash p = false ->
     internal_getContainerPath p = "/" /\ internal_getContainerPath (p ++ "/") = "/")
  /\ (forall p, startsWithSlash p = true ->
        exists rest, p = internal_getContainerPath p ++ rest)
  /\ (forall p, startsWithSlash p = true ->
        (internal_getContainerPath p = p <-> p = "/")).
Proof.
  split; [exact internal_getContainerPath_noSlash|]. split.
  - intros p Hs. destruct (string_dec p "/") as [->|Hp]; [now exists ""|].
    destruct (internal_getContainerPath_cut Hs Hp) as [pre [rest [E [Ep _]]]].
    exists rest. rewrite E, append_assoc. exact Ep.
  - intros p Hs. split.
    + intros E. destruct (string_dec p "/") as [->|Hp]; [reflexivity|].
      destruct (internal_getContainerPath_cut Hs Hp) as [pre [rest [E' [Ep Hr]]]].
      exfalso. rewrite E in E'.
      assert (L : String.length p = String.length (pre ++ "/")) by now rewrite <- E'.
      rewrite Ep in L at 1. rewrite !length_append in L.
      destruct rest; [congruence | simpl in L; lia].
    + intros ->. reflexivity.
Qed.

(** ** The default access of a group whose access is set *)

(** X18. [setGroupResourceAccess] leaves the group no default access:
    a rule that named the group loses it, and the rule put beside it for
    the other targets names the group's IRI as an agent, not as a group. *)
Theorem setGroupResourceAccess_drops_default
    (gen : nat -> string) (S0 : AclDataset) (group : string) (M : Access) (n : nat) :
  getGroupDefaultAccess (fst (setGroupResourceAccess gen S0 group M n)) group
  = noAccess.
Proof.
  change (effectiveAccess RuleDefault acl.agentGroup group
            (fst (setGroupResourceAccess gen S0 group M n)) = noAccess).
  rewrite setGroupResourceAccess_unfold.
  rewrite (mutator_sets
             (removeGroupFromRule_WellSplit gen group (internal_accessTo S0) RuleResource)).
  - destruct (groupNewRule_grant gen RuleDefault (internal_accessTo S0) group M
                (n + List.length (getThingAll S0)) (gt := acl.agentGroup) group)
      as [_ G]; [auto|].
    rewrite G. reflexivity.
  - auto.
  - intros r k _.
    pose proof (removeGroupFromRule_spec gen r group (internal_accessTo S0)
                  RuleResource k) as [_ [_ [_ [_ [_ [_ [H _]]]]]]].
    unfold grant. rewrite namesGrantee_absent; [now rewrite andb_false_r|].
    intros st Hst. now destruct (H st Hst).
  - intros r k _.
    pose proof (removeGroupFromRule_spec gen r group (internal_accessTo S0)
                  RuleResource k) as [_ [_ [_ [_ [H _]]]]].
    unfold grant, namesGrantee.
    destruct (includes _ group) eqn:E; [|now rewrite andb_false_r].
    apply includes_getIriAll in E. contradiction.
Qed.
